(** * Three Men's Morris: the rule engine of [ThreeMensMorris.cpp]

    A shallow embedding of the game-state model of the program (slots,
    adjacency, the prime-product win test, placement, selection, sliding
    moves, reset) together with the properties stated about it.

    Conventions of the embedding:
    - [int] is a 32-bit two's complement integer, kept as a [Z] with the
      wrap-around of every multiplication written out ([wrap32]);
    - [float] values are rationals ([Q]): every coordinate the rule engine
      compares is a finite [float], and every finite [float] is a rational;
      mouse coordinates are window pixels, which [float] holds exactly; the
      one place where [float] arithmetic rounds, the interpolation of a
      slide in [updateTokens], is a parameter of the model ([slide]);
    - reading an array outside its bounds, dereferencing a pointer to a token
      that does not exist and a remainder by zero have no defined result in
      C++: the functions return [None] there;
    - [Token* selected] is an index into the token vector. *)

From Stdlib Require Import ZArith QArith Qminmax Lia Lqa Bool String.
From stdpp Require Import base option list.

Local Open Scope Z_scope.

(** ** Machine integers *)

Definition INT_MAX : Z := 2147483647.
Definition INT_MIN : Z := -2147483648.

(** The value kept by an [int] after an arithmetic result [z]. *)
Definition wrap32 (z : Z) : Z := (z + 2 ^ 31) mod 2 ^ 32 - 2 ^ 31.

(** [a[i]] for an [int] index. *)
Definition index {A : Type} (a : list A) (i : Z) : option A :=
  if 0 <=? i then a !! Z.to_nat i else None.

(** ** Geometry: [sf::Vector2f] and [sf::FloatRect] *)

Record Vector2f : Type := vec2 { vec_x : Q; vec_y : Q }.

Definition vec_sub (a b : Vector2f) : Vector2f :=
  vec2 (vec_x a - vec_x b) (vec_y a - vec_y b).

Record FloatRect : Type :=
  rect { rect_left : Q; rect_top : Q; rect_width : Q; rect_height : Q }.

Definition rect_at (pos size : Vector2f) : FloatRect :=
  rect (vec_x pos) (vec_y pos) (vec_x size) (vec_y size).

Definition Qltb (a b : Q) : bool := negb (Qle_bool b a).

(** [sf::Rect<T>::contains]: the left and top edges belong to the rectangle,
    the right and bottom edges do not. *)
Definition contains (r : FloatRect) (p : Vector2f) : bool :=
  let minX := Qmin (rect_left r) (rect_left r + rect_width r) in
  let maxX := Qmax (rect_left r) (rect_left r + rect_width r) in
  let minY := Qmin (rect_top r) (rect_top r + rect_height r) in
  let maxY := Qmax (rect_top r) (rect_top r + rect_height r) in
  Qle_bool minX (vec_x p) && Qltb (vec_x p) maxX &&
  Qle_bool minY (vec_y p) && Qltb (vec_y p) maxY.

(** ** The board *)

Record Slot : Type := mkSlot { position : Vector2f; prime : Z }.

Definition fpair (a b : Z) : Vector2f := vec2 (inject_Z a) (inject_Z b).

Definition slots : list Slot :=
  [ mkSlot (fpair 50 50) 13;  mkSlot (fpair 300 50) 3;   mkSlot (fpair 550 50) 23;
    mkSlot (fpair 50 300) 17; mkSlot (fpair 300 300) 11; mkSlot (fpair 550 300) 5;
    mkSlot (fpair 50 550) 29; mkSlot (fpair 300 550) 7;  mkSlot (fpair 550 550) 19 ].

Definition winCombos : list (Z * Z * Z) :=
  [ (0, 1, 2); (3, 4, 5); (6, 7, 8);
    (0, 3, 6); (1, 4, 7); (2, 5, 8);
    (0, 4, 8); (2, 4, 6) ].

Inductive Player : Type := A | B.

Inductive GamePhase : Type :=
  Start | About | Instructions | Placement | Movement | Win.

#[global] Instance Player_eq_dec : EqDecision Player.
Proof. solve_decision. Defined.

#[global] Instance GamePhase_eq_dec : EqDecision GamePhase.
Proof. solve_decision. Defined.

Definition other (p : Player) : Player :=
  match p with A => B | B => A end.

(** [sf::Sprite] as far as the rules read it: which token texture it shows
    and where it is drawn. *)
Record Sprite : Type := mkSprite { texture : Player; sprite_pos : Vector2f }.

Record Token : Type := mkToken {
  sprite : Sprite;
  slotIndex : Z;
  nextSlotIndex : Z;
  owner : Player;
  selected : bool;
  moving : bool;
  targetPos : Vector2f
}.

(** ** Adjacency *)

Definition adjacent : list (list Z) :=
  [ [1; 3; 4];
    [0; 2; 4];
    [1; 5; 4];
    [0; 4; 6];
    [0; 1; 2; 3; 5; 6; 7; 8];
    [2; 4; 8];
    [3; 4; 7];
    [6; 4; 8];
    [4; 5; 7] ].

Definition isAdjacent (a b : Z) : option bool :=
  ns ← index adjacent a;
  Some (existsb (fun n => n =? b) ns).

(** ** Win detection *)

Definition computeWinProducts (combos : list (Z * Z * Z)) (slots : list Slot)
  : option (list Z) :=
  mapM (fun '(c0, c1, c2) =>
          s0 ← index slots c0;
          s1 ← index slots c1;
          s2 ← index slots c2;
          Some (wrap32 (wrap32 (prime s0 * prime s1) * prime s2)))
       combos.

(** The first loop of [checkWin]: the running [product]. *)
Fixpoint winProduct (tokens : list Token) (player : Player) (product : Z)
  : option Z :=
  match tokens with
  | [] => Some product
  | t :: rest =>
      if bool_decide (owner t = player) && negb (slotIndex t =? -1) then
        s ← index slots (slotIndex t);
        winProduct rest player (wrap32 (product * prime s))
      else winProduct rest player product
  end.

(** The second loop of [checkWin]: [product % p == 0] for some [p]. *)
Fixpoint anyDivides (product : Z) (winProducts : list Z) : option bool :=
  match winProducts with
  | [] => Some false
  | p :: rest =>
      if (p =? 0) || ((product =? INT_MIN) && (p =? -1)) then None
      else if Z.rem product p =? 0 then Some true
      else anyDivides product rest
  end.

Definition checkWin (tokens : list Token) (player : Player)
  (winProducts : list Z) : option bool :=
  product ← winProduct tokens player 1;
  anyDivides product winProducts.

(** The list computed once in [main]. *)
Definition winProducts : list Z :=
  default [] (computeWinProducts winCombos slots).

(** ** Free slots *)

Definition slotArea (s : Slot) : FloatRect :=
  rect_at (vec_sub (position s) (fpair 25 25)) (fpair 50 50).

(** The inner loop of [getFreeSlotUnderMouse]: slot [i] is taken by a token
    standing on it or sliding towards it. *)
Definition occupied (i : Z) (tokens : list Token) : bool :=
  existsb (fun t => (slotIndex t =? i) || (moving t && (nextSlotIndex t =? i)))
          tokens.

(** The outer loop, from slot number [i] on. *)
Fixpoint freeSlotFrom (i : Z) (ss : list Slot) (pos : Vector2f)
  (tokens : list Token) : Z :=
  match ss with
  | [] => -1
  | s :: rest =>
      if negb (occupied i tokens) && contains (slotArea s) pos then i
      else freeSlotFrom (i + 1) rest pos tokens
  end.

Definition getFreeSlotUnderMouse (pos : Vector2f) (tokens : list Token) : Z :=
  freeSlotFrom 0 slots pos tokens.

(** ** Game state

    The variables of [main] that [handleEvents] and [updateTokens] receive by
    reference, and the globals they write. *)

(** The sprite stored under ["currentPTI"] in [spritesMap]. *)
Inductive Indicator : Type := papt | pbpt | pamt | pbmt.

Record Game : Type := mkGame {
  tokens : list Token;
  turn : Player;
  phase : GamePhase;
  selectedPtr : option nat;          (* Token* selected *)
  placedA : Z;
  placedB : Z;
  startButtonBounds : FloatRect;
  currentPTI : Indicator;
  winner : option Player;            (* spritesMap["winner"] *)
  windowOpen : bool;
  logged : list string               (* messages written by log, oldest first *)
}.

Definition set_tokens (ts : list Token) (g : Game) : Game :=
  mkGame ts (turn g) (phase g) (selectedPtr g) (placedA g) (placedB g)
         (startButtonBounds g) (currentPTI g) (winner g) (windowOpen g) (logged g).
Definition set_turn (p : Player) (g : Game) : Game :=
  mkGame (tokens g) p (phase g) (selectedPtr g) (placedA g) (placedB g)
         (startButtonBounds g) (currentPTI g) (winner g) (windowOpen g) (logged g).
Definition set_phase (ph : GamePhase) (g : Game) : Game :=
  mkGame (tokens g) (turn g) ph (selectedPtr g) (placedA g) (placedB g)
         (startButtonBounds g) (currentPTI g) (winner g) (windowOpen g) (logged g).
Definition set_selectedPtr (s : option nat) (g : Game) : Game :=
  mkGame (tokens g) (turn g) (phase g) s (placedA g) (placedB g)
         (startButtonBounds g) (currentPTI g) (winner g) (windowOpen g) (logged g).
Definition set_placed (a b : Z) (g : Game) : Game :=
  mkGame (tokens g) (turn g) (phase g) (selectedPtr g) a b
         (startButtonBounds g) (currentPTI g) (winner g) (windowOpen g) (logged g).
Definition set_startButtonBounds (r : FloatRect) (g : Game) : Game :=
  mkGame (tokens g) (turn g) (phase g) (selectedPtr g) (placedA g) (placedB g)
         r (currentPTI g) (winner g) (windowOpen g) (logged g).
Definition set_currentPTI (i : Indicator) (g : Game) : Game :=
  mkGame (tokens g) (turn g) (phase g) (selectedPtr g) (placedA g) (placedB g)
         (startButtonBounds g) i (winner g) (windowOpen g) (logged g).
Definition set_winner (w : option Player) (g : Game) : Game :=
  mkGame (tokens g) (turn g) (phase g) (selectedPtr g) (placedA g) (placedB g)
         (startButtonBounds g) (currentPTI g) w (windowOpen g) (logged g).
Definition close_window (g : Game) : Game :=
  mkGame (tokens g) (turn g) (phase g) (selectedPtr g) (placedA g) (placedB g)
         (startButtonBounds g) (currentPTI g) (winner g) false (logged g).
Definition log (message : string) (g : Game) : Game :=
  mkGame (tokens g) (turn g) (phase g) (selectedPtr g) (placedA g) (placedB g)
         (startButtonBounds g) (currentPTI g) (winner g) (windowOpen g)
         (logged g ++ [message]).

Definition frect (l t w h : Z) : FloatRect :=
  rect (inject_Z l) (inject_Z t) (inject_Z w) (inject_Z h).

Definition instructionsButtonBounds : FloatRect := frect 165 560 275 100.
Definition aboutButtonBounds : FloatRect := frect 165 680 275 100.
Definition exitButtonBounds : FloatRect := frect 165 650 275 100.

(** The state [main] builds before its loop. *)
Definition initial : Game :=
  mkGame [] A Start None 0 0 (frect 165 440 275 100) papt None true
         ["Game started."%string].

(** ** Reset *)

Definition resetGame (g : Game) : Game :=
  let g := if bool_decide (phase g = Win)
           then set_startButtonBounds (frect 165 440 275 100) (set_phase Start g)
           else log "Game reset."
                  (set_startButtonBounds (frect 340 620 240 80)
                     (set_phase Placement g)) in
  set_currentPTI papt
    (set_selectedPtr None (set_turn A (set_placed 0 0 (set_tokens [] g)))).

Definition newline : string := String (Ascii.ascii_of_nat 10) EmptyString.

Definition winsMessage (p : Player) : string :=
  match p with A => "Player A wins!" | B => "Player B wins!" end.

(** ** Events and frames *)

Inductive Event : Type :=
  | Closed                      (* sf::Event::Closed *)
  | MouseLeft (x y : Z)         (* left button pressed at pixel (x, y) *)
  | OtherEvent.                 (* any other event *)

Definition set_selected (b : bool) (t : Token) : Token :=
  mkToken (sprite t) (slotIndex t) (nextSlotIndex t) (owner t) b (moving t)
          (targetPos t).

(** The four assignments that start a slide towards slot [target]. *)
Definition beginMove (target : Z) (dest : Vector2f) (t : Token) : Token :=
  mkToken (sprite t) (slotIndex t) target (owner t) false true dest.

(** The four assignments made on arrival. *)
Definition completeMove (t : Token) : Token :=
  mkToken (mkSprite (texture (sprite t)) (targetPos t))
          (nextSlotIndex t) (-1) (owner t) (selected t) false (targetPos t).

Definition moveSprite (p : Vector2f) (t : Token) : Token :=
  mkToken (mkSprite (texture (sprite t)) p)
          (slotIndex t) (nextSlotIndex t) (owner t) (selected t) (moving t)
          (targetPos t).

(** The token pushed by an accepted placement. *)
Definition placedToken (who : Player) (slot : Z) (s : Slot) : Token :=
  mkToken (mkSprite who (vec_sub (position s) (fpair 25 25)))
          slot (-1) who false false (vec2 0 0).

Section Engine.

(** Size of the two token textures ([assets/token_a.png] and
    [assets/token_b.png] are not part of the sources). *)
Variable tokenSize : Player → Vector2f.

(** The floating-point part of [updateTokens] for one sliding token, from
    the sprite position, the target position, [speed] and [dt]: [None] when
    [dist < speed * dt] (the token arrives in this frame), [Some p] when the
    sprite is moved to [p] instead. *)
Variable slide : Vector2f → Vector2f → Q → Q → option Vector2f.

Definition getGlobalBounds (s : Sprite) : FloatRect :=
  rect_at (sprite_pos s) (tokenSize (texture s)).

(** The selection loop of the Movement branch: the first token of the
    player to move whose sprite is under the mouse. *)
Fixpoint clickedToken (i : nat) (ts : list Token) (who : Player)
  (pos : Vector2f) : option nat :=
  match ts with
  | [] => None
  | t :: rest =>
      if bool_decide (owner t = who) && contains (getGlobalBounds (sprite t)) pos
      then Some i
      else clickedToken (S i) rest who pos
  end.

(** [selected->selected = false], when [selected] is not null. *)
Definition deselect (g : Game) : option Game :=
  match selectedPtr g with
  | None => Some g
  | Some j =>
      s ← tokens g !! j;
      Some (set_tokens (<[j := set_selected false s]> (tokens g)) g)
  end.

Definition placementClick (g : Game) (mousePos : Vector2f)
  (winProducts : list Z) : option (Game * bool) :=
  let slot := getFreeSlotUnderMouse mousePos (tokens g) in
  if slot =? -1 then Some (g, false)
  else
    s ← index slots slot;
    let g := set_tokens (tokens g ++ [placedToken (turn g) slot s]) g in
    let g := set_currentPTI (match turn g with A => pbpt | B => papt end) g in
    won ← checkWin (tokens g) (turn g) winProducts;
    if won : bool then
      Some (set_startButtonBounds (frect 165 510 275 100)
              (set_phase Win
                 (set_winner (Some (turn g)) (log (winsMessage (turn g)) g))),
            true)
    else
      let g := match turn g with
               | A => set_placed (wrap32 (placedA g + 1)) (placedB g) g
               | B => set_placed (placedA g) (wrap32 (placedB g + 1)) g
               end in
      let g := if (placedA g =? 3) && (placedB g =? 3)
               then set_currentPTI pamt (set_phase Movement g) else g in
      Some (set_turn (other (turn g)) g, false).

Definition movementClick (g : Game) (mousePos : Vector2f)
  : option (Game * bool) :=
  match clickedToken 0 (tokens g) (turn g) mousePos with
  | Some k =>
      g ← deselect g;
      t ← tokens g !! k;
      Some (set_selectedPtr (Some k)
              (set_tokens (<[k := set_selected true t]> (tokens g)) g),
            false)
  | None =>
      match selectedPtr g with
      | None => Some (g, false)
      | Some j =>
          s ← tokens g !! j;
          if moving s then Some (g, false)
          else
            let target := getFreeSlotUnderMouse mousePos (tokens g) in
            if target =? -1 then Some (g, false)
            else
              adj ← isAdjacent (slotIndex s) target;
              if adj : bool then
                dest ← index slots target;
                let g := set_currentPTI
                           (match turn g with A => pbmt | B => pamt end) g in
                Some (set_tokens
                        (<[j := beginMove target
                                  (vec_sub (position dest) (fpair 25 25)) s]>
                           (tokens g)) g,
                      false)
              else Some (g, false)
      end
  end.

(** One iteration of the [while (window.pollEvent(ev))] loop. The boolean
    tells whether [handleEvents] returned from inside the iteration. *)
Definition handleEvent (g : Game) (ev : Event) (winProducts : list Z)
  : option (Game * bool) :=
  match ev with
  | Closed =>
      Some (close_window (log (String.append "Game closed by user." newline) g),
            false)
  | OtherEvent => Some (g, false)
  | MouseLeft x y =>
      let mousePos := fpair x y in
      let onStart := contains (startButtonBounds g) mousePos in
      if (bool_decide (phase g = Instructions) || bool_decide (phase g = About))
         && onStart
      then Some (set_startButtonBounds (frect 165 440 275 100)
                   (set_phase Start g), true)
      else if bool_decide (phase g = Start) && onStart
      then Some (log "Game started."
                   (set_startButtonBounds (frect 340 620 240 80)
                      (set_phase Placement g)), true)
      else if onStart then Some (resetGame g, true)
      else if bool_decide (phase g = Start)
              && contains instructionsButtonBounds mousePos
      then Some (set_startButtonBounds (frect 165 665 275 100)
                   (set_phase Instructions g), true)
      else if bool_decide (phase g = Start)
              && contains aboutButtonBounds mousePos
      then Some (set_startButtonBounds (frect 165 665 275 100)
                   (set_phase About g), true)
      else if bool_decide (phase g = Win)
              && contains exitButtonBounds mousePos
      then Some (log (String.append "Game exited." newline) (close_window g), true)
      else if bool_decide (phase g = Placement)
      then placementClick g mousePos winProducts
      else if bool_decide (phase g = Movement)
      then movementClick g mousePos
      else Some (g, false)
  end.

(** [handleEvents] on the queue of pending events: it stops when the queue
    is empty, when the window has been closed ([pollEvent] then finds
    nothing), or when an iteration returns. The events left are still
    pending at the next frame. *)
Fixpoint handleEvents (g : Game) (queue : list Event) (winProducts : list Z)
  : option (Game * list Event) :=
  match queue with
  | [] => Some (g, [])
  | ev :: rest =>
      if windowOpen g then
        '(g', returned) ← handleEvent g ev winProducts;
        if returned : bool then Some (g', rest)
        else handleEvents g' rest winProducts
      else Some (g, queue)
  end.

(** The body of the loop of [updateTokens] for the token at index [i]. *)
Definition updateToken (g : Game) (i : nat) (dt speed : Q)
  (winProducts : list Z) : option Game :=
  t ← tokens g !! i;
  if moving t then
    match slide (sprite_pos (sprite t)) (targetPos t) speed dt with
    | None =>
        let g := set_tokens (<[i := completeMove t]> (tokens g)) g in
        won ← checkWin (tokens g) (owner t) winProducts;
        let g := if won : bool
                 then set_startButtonBounds (frect 165 510 275 100)
                        (set_phase Win
                           (set_winner (Some (turn g))
                              (log (winsMessage (turn g)) g)))
                 else g in
        Some (set_turn (other (turn g)) (set_selectedPtr None g))
    | Some p => Some (set_tokens (<[i := moveSprite p t]> (tokens g)) g)
    end
  else Some g.

(** The loop over the token vector, [n] tokens from index [i] on. *)
Fixpoint updateFrom (n : nat) (i : nat) (g : Game) (dt speed : Q)
  (winProducts : list Z) : option Game :=
  match n with
  | O => Some g
  | S n' =>
      g' ← updateToken g i dt speed winProducts;
      updateFrom n' (S i) g' dt speed winProducts
  end.

Definition updateTokens (g : Game) (dt speed : Q) (winProducts : list Z)
  : option Game :=
  updateFrom (length (tokens g)) 0 g dt speed winProducts.

Definition speed : Q := 400.

(** One turn of the loop of [main], without the drawing. *)
Definition frame (g : Game) (queue : list Event) (dt : Q)
  : option (Game * list Event) :=
  '(g', queue') ← handleEvents g queue winProducts;
  g'' ← updateTokens g' dt speed winProducts;
  Some (g'', queue').

(** States the program can be in: from [initial], by processing an event
    while the window is open or by a call of [updateTokens]. *)
Inductive reachable : Game → Prop :=
  | reach_initial : reachable initial
  | reach_event g ev g' r :
      reachable g → windowOpen g = true →
      handleEvent g ev winProducts = Some (g', r) → reachable g'
  | reach_update g dt g' :
      reachable g → updateTokens g dt speed winProducts = Some g' →
      reachable g'.

End Engine.

(** ** Vocabulary of the specification *)

Definition allSlots : list Z := [0; 1; 2; 3; 4; 5; 6; 7; 8].

(** Row and column of a slot on the 3×3 grid. *)
Definition row (s : Z) : Z := s / 3.
Definition col (s : Z) : Z := s mod 3.

(** The line-neighbours of a slot: the slots next to it along a row or a
    column, the centre left aside. *)
Definition lineNeighbour (a b : Z) : bool :=
  (Z.abs (row a - row b) + Z.abs (col a - col b) =? 1) && negb (b =? 4).

(** How many slots [isAdjacent] accepts as neighbours of [a]. *)
Definition neighbourCount (a : Z) : nat :=
  length (List.filter (fun b => bool_decide (isAdjacent a b = Some true)) allSlots).

(** The slots on which [player] has a token standing, in token order. *)
Definition occupiedSlots (tokens : list Token) (player : Player) : list Z :=
  map slotIndex
      (List.filter (fun t => bool_decide (owner t = player)
                             && negb (slotIndex t =? -1)) tokens).

(** The player's slots contain the winning triple [c]. *)
Definition holdsLine (occ : list Z) (c : Z * Z * Z) : Prop :=
  let '(c0, c1, c2) := c in c0 ∈ occ ∧ c1 ∈ occ ∧ c2 ∈ occ.

(** The prime weight of slot [s] (1 outside the board). *)
Definition slotPrime (s : Z) : Z :=
  match index slots s with Some sl => prime sl | None => 1 end.

(** The product of the weights of a list of slots, without wrap-around. *)
Definition primeProduct (l : list Z) : Z :=
  foldr (fun s acc => slotPrime s * acc) 1 l.

(** The product stored for a winning triple. *)
Definition comboProduct (c : Z * Z * Z) : Z :=
  let '(c0, c1, c2) := c in slotPrime c0 * slotPrime c1 * slotPrime c2.

(** A token of [who] standing on slot [s], as a placement creates it. *)
Definition standing (who : Player) (s : Z) : Token :=
  placedToken who s (default (mkSlot (vec2 0 0) 1) (index slots s)).

(** The tokens that are not in transit. *)
Definition arrivedOnly (ts : list Token) : list Token :=
  List.filter (fun t => negb (moving t)) ts.

(** A token taken as standing on its [slotIndex], with no move pending. *)
Definition atOrigin (t : Token) : Token :=
  mkToken (sprite t) (slotIndex t) (-1) (owner t) (selected t) false (targetPos t).

(** Token [t] occupies slot [i]: it stands on it, or it is in transit with
    [i] as destination. *)
Definition occupies (t : Token) (i : Z) : Prop :=
  slotIndex t = i ∨ (moving t = true ∧ nextSlotIndex t = i).

(** Slot [i] is taken by some token. *)
Definition taken (i : Z) (ts : list Token) : Prop :=
  ∃ t, t ∈ ts ∧ occupies t i.

(** No slot is occupied by two tokens of the vector. *)
Definition oneTokenPerSlot (ts : list Token) : Prop :=
  ∀ i j ti tj s,
    ts !! i = Some ti → ts !! j = Some tj →
    occupies ti s → occupies tj s → i = j.

(** How many tokens are in transit. *)
Definition inTransit (ts : list Token) : nat :=
  length (List.filter moving ts).

(** The event is a click on the button at [startButtonBounds]. *)
Definition onStartButton (g : Game) (ev : Event) : bool :=
  match ev with
  | MouseLeft x y => contains (startButtonBounds g) (fpair x y)
  | _ => false
  end.

(** The click at [pos] lands on no token of the player to move. *)
Definition offOwnTokens (tokenSize : Player → Vector2f) (g : Game)
  (pos : Vector2f) : Prop :=
  ∀ t, t ∈ tokens g → owner t = turn g →
       contains (getGlobalBounds tokenSize (sprite t)) pos = false.

(** The conditions under which a click at [pos] moves a token: token [t], at
    index [j], is selected and not moving; slot [S] is under the click, free,
    and adjacent to the slot [t] stands on. *)
Definition moveAccepted (g : Game) (pos : Vector2f) (j : nat) (t : Token)
  (S : Z) (dest : Slot) : Prop :=
  selectedPtr g = Some j
  ∧ tokens g !! j = Some t
  ∧ moving t = false
  ∧ index slots S = Some dest
  ∧ contains (slotArea dest) pos = true
  ∧ ¬ taken S (tokens g)
  ∧ isAdjacent (slotIndex t) S = Some true.

(** The game once token [t], at index [j], has begun to slide to slot [S]. *)
Definition slideStarted (g : Game) (j : nat) (t : Token) (S : Z) (dest : Slot)
  : Game :=
  set_tokens
    (<[j := beginMove S (vec_sub (position dest) (fpair 25 25)) t]> (tokens g))
    (set_currentPTI (match turn g with A => pbmt | B => pamt end) g).

(** The selection pointer, when not null, points to a token of the vector
    that stands on a slot of the board. *)
Definition selectionValid (g : Game) : Prop :=
  ∀ j, selectedPtr g = Some j →
       ∃ t, tokens g !! j = Some t ∧ 0 <= slotIndex t <= 8.

(** Token textures of 50 by 50 pixels, the size of a slot area. *)
Definition size50 (_ : Player) : Vector2f := fpair 50 50.

(** A frame long enough for every sliding token to arrive. *)
Definition arriveNow (_ _ : Vector2f) (_ _ : Q) : option Vector2f := None.

(** The game after the left clicks [cs], each handled by [handleEvent] with
    the products computed in [main] ([None] as well once the window is
    closed: no event is polled any more). *)
Fixpoint afterClicks (tokenSize : Player → Vector2f) (g : Game)
  (cs : list (Z * Z)) : option Game :=
  match cs with
  | [] => Some g
  | (x, y) :: rest =>
      if windowOpen g then
        '(g', _) ← handleEvent tokenSize g (MouseLeft x y) winProducts;
        afterClicks tokenSize g' rest
      else None
  end.

(** The centre of slot [i] in window pixels. *)
Definition slotCentre (i : Z) : Z * Z :=
  (50 + 250 * (i mod 3), 50 + 250 * (i / 3)).

(** A click on the start button of the opening screen, then one click on the
    centre of each of the slots [ss] in turn. *)
Definition game (ss : list Z) : list (Z * Z) :=
  (200, 450) :: map slotCentre ss.

(** The state after [cs], or [initial] if the clicks cannot be played. *)
Definition stateAfter (cs : list (Z * Z)) : Game :=
  default initial (afterClicks size50 initial cs).

(** Player A has placed one token, on slot 0. *)
Definition oneTokenPlaced : Game := stateAfter (game [0]).

(** Player A has completed the column 0, 3, 6 with the fifth placement. *)
Definition wonByPlacement : Game := stateAfter (game [0; 1; 3; 4; 6]).

(** Six tokens placed without a line (A on 1, 3, 8 and B on 0, 4, 7); Player
    A has then selected the token on slot 1. *)
Definition tokenSelected : Game :=
  stateAfter (game [1; 0; 3; 4; 8; 7] ++ [slotCentre 1]).

(** From [tokenSelected], Player A clicks slot 2, then the token on slot 3,
    then slot 6, all before any token has arrived. *)
Definition twoSlides : Game :=
  stateAfter (game [1; 0; 3; 4; 8; 7]
              ++ [slotCentre 1; slotCentre 2; slotCentre 3; slotCentre 6]).

(** Six tokens placed without a line (A on 0, 3, 7 and B on 1, 4, 8); Player
    A has then selected the token on slot 7 and clicked slot 6: the token is
    sliding to complete the column 0, 3, 6. *)
Definition slidingToWin : Game :=
  stateAfter (game [0; 1; 3; 4; 7; 8] ++ [slotCentre 7; slotCentre 6]).

(** Token [t] stands on a slot of the board and, if it is sliding, slides to
    a slot of the board. *)
Definition onBoard (t : Token) : Prop :=
  0 <= slotIndex t <= 8 ∧ (moving t = true → 0 <= nextSlotIndex t <= 8).

(** The button at [startButtonBounds] while a game is being played. *)
Definition resetButton : FloatRect := frect 340 620 240 80.

(** What the program keeps true of its state: tokens stand on slots of the
    board and slide to slots of the board, the selection pointer points into
    the token vector, and during a game the button at [startButtonBounds] is
    the reset button below the board. *)
Definition wellFormed (g : Game) : Prop :=
  (∀ t, t ∈ tokens g → onBoard t)
  ∧ (∀ j, selectedPtr g = Some j → (j < length (tokens g))%nat)
  ∧ (phase g = Placement ∨ phase g = Movement →
     startButtonBounds g = resetButton).

(** The bookkeeping of placements: never more than 6 tokens; before a game
    starts there is none and Player A is to begin; during the Placement phase
    no token moves, the two counts add up to the number of tokens, and the
    players have placed alternately, A first, with the player to move still
    short of 3 tokens. *)
Definition counted (g : Game) : Prop :=
  (length (tokens g) <= 6)%nat
  ∧ (phase g = Start ∨ phase g = About ∨ phase g = Instructions →
     tokens g = [] ∧ placedA g = 0 ∧ placedB g = 0 ∧ turn g = A)
  ∧ (phase g = Placement →
     (∀ t, t ∈ tokens g → moving t = false)
     ∧ Z.of_nat (length (tokens g)) = placedA g + placedB g
     ∧ 0 <= placedB g <= 2
     ∧ ((turn g = A ∧ placedA g = placedB g)
        ∨ (turn g = B ∧ placedA g = placedB g + 1))).

(** Owner, slot, destination and motion flag of each token. *)
Definition brief (g : Game) : list (Player * Z * Z * bool) :=
  map (fun t => (owner t, slotIndex t, nextSlotIndex t, moving t)) (tokens g).

(** ** Further vocabulary *)

(** Slots [a] and [b] are next to each other on one of the winning lines. *)
Definition nextOnLine (a b : Z) : Prop :=
  ∃ c0 c1 c2, (c0, c1, c2) ∈ winCombos
              ∧ ((a = c0 ∧ b = c1) ∨ (a = c1 ∧ b = c0)
                 ∨ (a = c1 ∧ b = c2) ∨ (a = c2 ∧ b = c1)).

(** What one call of [updateTokens] makes of token [t], taken alone: a token
    at rest is left as it is, a sliding token arrives or is moved along. *)
Definition stepToken (slide : Vector2f → Vector2f → Q → Q → option Vector2f)
  (dt sp : Q) (t : Token) : Token :=
  if moving t then
    match slide (sprite_pos (sprite t)) (targetPos t) sp dt with
    | None => completeMove t
    | Some p => moveSprite p t
    end
  else t.

(** Token [t] is sliding and arrives in this frame. *)
Definition arrives (slide : Vector2f → Vector2f → Q → Q → option Vector2f)
  (dt sp : Q) (t : Token) : bool :=
  moving t &&
  match slide (sprite_pos (sprite t)) (targetPos t) sp dt with
  | None => true
  | Some _ => false
  end.

(** How many tokens of [ts] arrive in this frame. *)
Definition arrivals (slide : Vector2f → Vector2f → Q → Q → option Vector2f)
  (dt sp : Q) (ts : list Token) : nat :=
  length (List.filter (arrives slide dt sp) ts).


(** Token [t'] is token [t] but for the selection flag. *)
Definition sameButFlag (t t' : Token) : Prop := set_selected (selected t') t = t'.

(** The game after a placement on slot [S] that does not win: the token is
    pushed, the count of the player goes up, the phase becomes Movement when
    both counts are 3, and the turn passes. *)
Definition placedOn (g : Game) (S : Z) (s : Slot) : Game :=
  let g1 := set_currentPTI (match turn g with A => pbpt | B => papt end)
              (set_tokens (tokens g ++ [placedToken (turn g) S s]) g) in
  let g2 := match turn g with
            | A => set_placed (wrap32 (placedA g + 1)) (placedB g) g1
            | B => set_placed (placedA g) (wrap32 (placedB g + 1)) g1
            end in
  let g3 := if (placedA g2 =? 3) && (placedB g2 =? 3)
            then set_currentPTI pamt (set_phase Movement g2) else g2 in
  set_turn (other (turn g)) g3.

(** The game after a placement on slot [S] that wins. *)
Definition placedWin (g : Game) (S : Z) (s : Slot) : Game :=
  let g1 := set_currentPTI (match turn g with A => pbpt | B => papt end)
              (set_tokens (tokens g ++ [placedToken (turn g) S s]) g) in
  set_startButtonBounds (frect 165 510 275 100)
    (set_phase Win (set_winner (Some (turn g)) (log (winsMessage (turn g)) g1))).

(** What a click may do to a token that exists already: nothing to its
    owner, its sprite or the slot it stands on, and nothing to a slide under
    way. *)
Definition keptByClick (t t' : Token) : Prop :=
  owner t' = owner t ∧ sprite t' = sprite t ∧ slotIndex t' = slotIndex t
  ∧ (moving t = true →
     moving t' = true ∧ nextSlotIndex t' = nextSlotIndex t
     ∧ targetPos t' = targetPos t).

(** The changes of phase found in the program. *)
Definition phaseEdge (a b : GamePhase) : Prop :=
  match a, b with
  | Start, Placement | Start, Instructions | Start, About
  | Instructions, Start | About, Start
  | Placement, Movement | Placement, Win
  | Movement, Placement | Movement, Win
  | Win, Start => True
  | _, _ => False
  end.

(** The selection pointer, when it is not null, points to a token of the
    player to move; it is null outside the Movement phase. *)
Definition selectionOwn (g : Game) : Prop :=
  (∀ j, selectedPtr g = Some j →
        ∃ t, tokens g !! j = Some t ∧ owner t = turn g)
  ∧ (phase g ≠ Movement → selectedPtr g = None).

(** How many tokens of [ts] belong to [p]. *)
Definition tokensOf (p : Player) (ts : list Token) : nat :=
  length (List.filter (fun t => bool_decide (owner t = p)) ts).

(** The token counts of the two players: those of the placement counters
    during Placement, 3 each during Movement, never more than 3. *)
Definition tally (g : Game) : Prop :=
  (phase g = Placement →
   Z.of_nat (tokensOf A (tokens g)) = placedA g
   ∧ Z.of_nat (tokensOf B (tokens g)) = placedB g)
  ∧ (phase g = Movement →
     tokensOf A (tokens g) = 3%nat ∧ tokensOf B (tokens g) = 3%nat)
  ∧ (tokensOf A (tokens g) <= 3)%nat
  ∧ (tokensOf B (tokens g) <= 3)%nat.

(** The turn indicator before and during the Placement phase: Player A's
    placement banner before a game, the banner of the player to move during
    Placement. *)
Definition indicatorRight (g : Game) : Prop :=
  (phase g = Start ∨ phase g = About ∨ phase g = Instructions →
   currentPTI g = papt)
  ∧ (phase g = Placement →
     currentPTI g = match turn g with A => papt | B => pbpt end).

(** Six tokens placed without a line (A on 4, 5, 1 and B on 3, 7, 8); Player
    A has then sent the token on slot 5 to slot 2 and, before it arrived,
    the token on slot 4 to slot 0. *)
Definition doubleSlide : Game :=
  stateAfter (game [4; 3; 5; 7; 1; 8]
              ++ [slotCentre 5; slotCentre 2; slotCentre 4; slotCentre 0]).

(** Six tokens placed without a line (A on 1, 3, 8 and B on 0, 4, 7); Player
    A has then sent the token on slot 1 to slot 2 and, before it arrived,
    clicked the token on slot 3. *)
Definition selectedAhead : Game :=
  stateAfter (game [1; 0; 3; 4; 8; 7]
              ++ [slotCentre 1; slotCentre 2; slotCentre 3]).

(** An interpolation in exact arithmetic, for frames in which [sp * dt] is
    not negative: the token arrives when the square of the distance left is
    below the square of [sp * dt]; otherwise the sprite goes half of the way
    left. *)
Definition slideWithin (cur tgt : Vector2f) (sp dt : Q) : option Vector2f :=
  let dx := (vec_x tgt - vec_x cur)%Q in
  let dy := (vec_y tgt - vec_y cur)%Q in
  if Qltb (dx * dx + dy * dy) (sp * dt * (sp * dt))
  then None
  else Some (vec2 (vec_x cur + dx / 2) (vec_y cur + dy / 2)).


(** The rectangle that [handleEvents] and [updateTokens] store in
    [startButtonBounds] when they enter a phase. *)
Definition buttonFor (p : GamePhase) : FloatRect :=
  match p with
  | Start => frect 165 440 275 100
  | Instructions | About => frect 165 665 275 100
  | Placement | Movement => frect 340 620 240 80
  | Win => frect 165 510 275 100
  end.

(** A click at pixel ([x], [y]) that closes the window in state [g]: on the
    exit button of the Win screen and off the button at
    [startButtonBounds]. *)
Definition exitClick (g : Game) (ev : Event) : Prop :=
  phase g = Win
  ∧ ∃ x y, ev = MouseLeft x y
           ∧ contains exitButtonBounds (fpair x y) = true
           ∧ contains (startButtonBounds g) (fpair x y) = false.

(** The running product of [checkWin] over a list of slots: from [acc], one
    32-bit multiplication by the weight of each slot, in order. *)
Definition wrappedProduct (acc : Z) (l : list Z) : Z :=
  fold_left (fun a s => wrap32 (a * slotPrime s)) l acc.
(** * Properties *)

(** ** The products of the winning lines *)

Lemma winProducts_value :
  computeWinProducts winCombos slots
  = Some [897; 935; 3857; 6409; 231; 2185; 2717; 7337].
Proof. reflexivity. Qed.

(** ** The adjacency table *)

Lemma slot_cases (a : Z) :
  0 <= a <= 8 →
  a = 0 ∨ a = 1 ∨ a = 2 ∨ a = 3 ∨ a = 4 ∨ a = 5 ∨ a = 6 ∨ a = 7 ∨ a = 8.
Proof. lia. Qed.

Ltac each_slot a H :=
  let C := fresh in
  pose proof (slot_cases a H) as C;
  repeat (destruct C as [C | C]; [subst a |]); [.. | subst a].

(** C7. On the slots 0..8 [isAdjacent] is symmetric; the centre 4 is adjacent
    to each of the 8 other slots; a slot other than the centre is adjacent to
    exactly 3 slots: the centre and its two line-neighbours. *)
Theorem isAdjacent_table (a b : Z) :
  0 <= a <= 8 → 0 <= b <= 8 →
  isAdjacent a b = isAdjacent b a
  ∧ (a = 4 → b ≠ 4 → isAdjacent a b = Some true)
  ∧ (a ≠ 4 →
     isAdjacent a b = Some ((b =? 4) || lineNeighbour a b)
     ∧ neighbourCount a = 3%nat
     ∧ length (List.filter (lineNeighbour a) allSlots) = 2%nat).
Proof.
  intros Ha Hb.
  each_slot a Ha; each_slot b Hb;
    (split; [reflexivity | split; [intros; first [reflexivity | lia] |]]);
    intros Hne; first [lia | repeat split; reflexivity].
Qed.

Lemma isAdjacent_table_witness :
  isAdjacent 0 4 = isAdjacent 4 0
  ∧ (0 = 4 → 4 ≠ 4 → isAdjacent 0 4 = Some true)
  ∧ (0 ≠ 4 →
     isAdjacent 0 4 = Some ((4 =? 4) || lineNeighbour 0 4)
     ∧ neighbourCount 0 = 3%nat
     ∧ length (List.filter (lineNeighbour 0) allSlots) = 2%nat).
Proof. apply (isAdjacent_table 0 4); lia. Defined.

(** ** Reset *)

(** C10. After [resetGame], whatever the phase: no token is left (so none is
    selected), both placement counts are zero, it is Player A's turn, the
    selection pointer is null; the phase is Start when the game was in Win
    and Placement otherwise. *)
Theorem resetGame_clears (g : Game) :
  tokens (resetGame g) = []
  ∧ placedA (resetGame g) = 0
  ∧ placedB (resetGame g) = 0
  ∧ turn (resetGame g) = A
  ∧ selectedPtr (resetGame g) = None
  ∧ phase (resetGame g) = if bool_decide (phase g = Win) then Start else Placement.
Proof.
  unfold resetGame. destruct (bool_decide (phase g = Win)); repeat split.
Qed.

(** ** Win detection *)

Lemma wrap32_small (z : Z) : INT_MIN <= z <= INT_MAX → wrap32 z = z.
Proof.
  unfold INT_MIN, INT_MAX, wrap32. intros H.
  rewrite Z.mod_small; lia.
Qed.

Lemma index_slots_Some (s : Z) :
  0 <= s <= 8 → ∃ sl, index slots s = Some sl ∧ prime sl = slotPrime s.
Proof. intros H. each_slot s H; eexists; split; reflexivity. Qed.

Lemma slotPrime_ge (s : Z) : 1 <= slotPrime s.
Proof.
  unfold slotPrime, index. destruct (0 <=? s) eqn:E; [| lia].
  destruct (Z.to_nat s) as [|[|[|[|[|[|[|[|[|n]]]]]]]]]; simpl; lia.
Qed.

Lemma slotPrime_ge3 (s : Z) : 0 <= s <= 8 → 3 <= slotPrime s.
Proof. intros H. each_slot s H; vm_compute; discriminate. Qed.

Lemma primeProduct_ge (l : list Z) : 1 <= primeProduct l.
Proof.
  induction l as [|s l IH]; simpl; [lia |].
  pose proof (slotPrime_ge s). nia.
Qed.

Lemma occupiedSlots_cons (t : Token) (ts : list Token) (player : Player) :
  occupiedSlots (t :: ts) player
  = if bool_decide (owner t = player) && negb (slotIndex t =? -1)
    then slotIndex t :: occupiedSlots ts player
    else occupiedSlots ts player.
Proof.
  unfold occupiedSlots. simpl.
  destruct (bool_decide (owner t = player) && negb (slotIndex t =? -1)); reflexivity.
Qed.

(** Without overflow the first loop of [checkWin] computes the product of the
    weights of the player's slots. *)
Lemma winProduct_exact (ts : list Token) (player : Player) (acc : Z) :
  (∀ s, s ∈ occupiedSlots ts player → 0 <= s <= 8) →
  1 <= acc →
  acc * primeProduct (occupiedSlots ts player) <= INT_MAX →
  winProduct ts player acc
  = Some (acc * primeProduct (occupiedSlots ts player)).
Proof.
  revert acc. induction ts as [|t ts IH]; intros acc Hr Hacc Hb.
  - simpl. f_equal. lia.
  - rewrite occupiedSlots_cons in Hr, Hb |- *. simpl winProduct.
    destruct (bool_decide (owner t = player) && negb (slotIndex t =? -1)).
    + destruct (index_slots_Some (slotIndex t)) as (sl & Hsl & Hp).
      { apply Hr. left. }
      rewrite Hsl. simpl. rewrite Hp.
      simpl primeProduct in Hb |- *.
      pose proof (slotPrime_ge (slotIndex t)).
      pose proof (primeProduct_ge (occupiedSlots ts player)).
      assert (acc * slotPrime (slotIndex t) <= INT_MAX) by nia.
      rewrite wrap32_small by (unfold INT_MIN; nia).
      rewrite IH; [f_equal; lia | | nia | nia].
      intros s Hs. apply Hr. right. exact Hs.
    + apply IH; assumption.
Qed.

Lemma slotPrime_coprime (a b : Z) :
  0 <= a <= 8 → 0 <= b <= 8 → a ≠ b → Z.gcd (slotPrime a) (slotPrime b) = 1.
Proof.
  intros Ha Hb. each_slot a Ha; each_slot b Hb; intros Hne;
    first [reflexivity | contradiction].
Qed.

(** A slot's weight divides the product exactly when the slot is in the
    list: the weights are distinct primes. *)
Lemma slotPrime_divide (s : Z) (l : list Z) :
  0 <= s <= 8 → (∀ x, x ∈ l → 0 <= x <= 8) →
  (slotPrime s | primeProduct l) ↔ s ∈ l.
Proof.
  intros Hs. induction l as [|x l IH]; intros Hl.
  - simpl. split.
    + intros Hd. apply Z.divide_1_r in Hd.
      pose proof (slotPrime_ge3 s Hs). lia.
    + intros Hin. inversion Hin.
  - simpl. rewrite elem_of_cons. split.
    + intros Hd. destruct (decide (s = x)) as [-> | Hne]; [left; reflexivity |].
      right. apply IH.
      * intros y Hy. apply Hl. right. exact Hy.
      * apply Z.gauss with (m := slotPrime x); [exact Hd |].
        apply slotPrime_coprime; [exact Hs | apply Hl; left | exact Hne].
    + intros [-> | Hin].
      * apply Z.divide_factor_l.
      * apply Z.divide_mul_r. apply IH; [| exact Hin].
        intros y Hy. apply Hl. right. exact Hy.
Qed.

Lemma winProducts_combos : winProducts = map comboProduct winCombos.
Proof. reflexivity. Qed.

Lemma winCombos_range (c : Z * Z * Z) :
  c ∈ winCombos →
  let '(c0, c1, c2) := c in 0 <= c0 <= 8 ∧ 0 <= c1 <= 8 ∧ 0 <= c2 <= 8.
Proof.
  unfold winCombos. rewrite !elem_of_cons, elem_of_nil.
  intros H. repeat (destruct H as [-> | H]; [lia |]). contradiction.
Qed.

(** Divisibility by the product of a triple is divisibility by each of its
    three weights. *)
Lemma comboProduct_divide (c : Z * Z * Z) (n : Z) :
  c ∈ winCombos →
  (comboProduct c | n) ↔
  let '(c0, c1, c2) := c in
  (slotPrime c0 | n) ∧ (slotPrime c1 | n) ∧ (slotPrime c2 | n).
Proof.
  unfold winCombos. rewrite !elem_of_cons, elem_of_nil.
  intros H.
  repeat (destruct H as [-> | H];
    [ split;
      [ intros Hd; repeat split;
        (eapply Z.divide_trans; [| exact Hd]);
        (apply Z.mod_divide;
         [intros E; vm_compute in E; discriminate E | reflexivity])
      | intros (H0 & H1 & H2);
        exact (Z.lcm_least _ _ _ (Z.lcm_least _ _ _ H0 H1) H2) ] |]).
  contradiction.
Qed.

Lemma anyDivides_spec (n : Z) (ps : list Z) :
  (∀ p, p ∈ ps → 0 < p) →
  ∃ b, anyDivides n ps = Some b ∧ (b = true ↔ ∃ p, p ∈ ps ∧ (p | n)).
Proof.
  induction ps as [|p ps IH]; intros Hpos.
  - exists false. split; [reflexivity |]. split; [discriminate |].
    intros (p & Hp & _). inversion Hp.
  - assert (0 < p) as Hp by (apply Hpos; left).
    simpl. replace (p =? 0) with false by lia.
    replace (p =? -1) with false by lia.
    rewrite andb_false_r. simpl.
    destruct (Z.rem n p =? 0) eqn:E.
    + exists true. split; [reflexivity |]. split; [| reflexivity].
      intros _. exists p. split; [left |].
      apply Z.rem_divide; lia.
    + destruct IH as (b & Hb & Hiff).
      { intros q Hq. apply Hpos. right. exact Hq. }
      exists b. split; [exact Hb |]. rewrite Hiff. split.
      * intros (q & Hq & Hd). exists q. split; [right; exact Hq | exact Hd].
      * intros (q & Hq & Hd). apply elem_of_cons in Hq as [-> | Hq].
        -- apply Z.rem_divide in Hd; lia.
        -- exists q. split; assumption.
Qed.

Lemma primeProduct_app (l k : list Z) :
  primeProduct (l ++ k) = primeProduct l * primeProduct k.
Proof. induction l as [|x l IH]; simpl; [lia | rewrite IH; lia]. Qed.

Lemma primeProduct_perm (l k : list Z) :
  l ≡ₚ k → primeProduct l = primeProduct k.
Proof.
  induction 1 as [| x l k _ IH | x y l | l k m _ IH1 _ IH2]; simpl;
    [reflexivity | rewrite IH; reflexivity | lia | congruence].
Qed.

(** Eight distinct slots at most: the product stays below [INT_MAX]. *)
Lemma primeProduct_bound (l : list Z) :
  (∀ s, s ∈ l → 0 <= s <= 8) → NoDup l → (length l <= 8)%nat →
  primeProduct l <= INT_MAX.
Proof.
  intros Hr Hnd Hlen.
  set (rest := filter (fun x => x ∉ l) allSlots).
  assert (l ++ rest ≡ₚ allSlots) as Hperm.
  { apply NoDup_Permutation.
    - apply NoDup_app. split; [exact Hnd | split].
      + intros x Hx Hx'. apply list_elem_of_filter in Hx' as [Hx' _]. tauto.
      + apply NoDup_filter. apply (bool_decide_unpack _). reflexivity.
    - apply (bool_decide_unpack _). reflexivity.
    - intros x. rewrite elem_of_app. unfold rest.
      rewrite list_elem_of_filter. split.
      + intros [Hx | [_ Hx]]; [| exact Hx].
        pose proof (Hr x Hx) as Hx'. each_slot x Hx';
          apply (bool_decide_unpack _); reflexivity.
      + intros Hx. destruct (decide (x ∈ l)); tauto. }
  pose proof (primeProduct_perm _ _ Hperm) as Hprod.
  rewrite primeProduct_app in Hprod.
  change (primeProduct allSlots) with 3234846615 in Hprod.
  assert (3 <= primeProduct rest) as Hrest.
  { pose proof (Permutation_length Hperm) as HL.
    rewrite length_app in HL. change (length allSlots) with 9%nat in HL.
    destruct rest as [|x r] eqn:E; [simpl in HL; lia |].
    assert (x ∈ allSlots) as Hx.
    { assert (x ∈ rest) as Hx by (rewrite E; left).
      apply list_elem_of_filter in Hx as [_ Hx]. exact Hx. }
    assert (0 <= x <= 8) as Hx'.
    { unfold allSlots in Hx. rewrite !elem_of_cons, elem_of_nil in Hx. lia. }
    simpl. pose proof (slotPrime_ge3 x Hx'). pose proof (primeProduct_ge r). nia. }
  pose proof (primeProduct_ge l). unfold INT_MAX. nia.
Qed.

(** While the product fits an [int], the verdict of [checkWin] is the
    containment of a winning triple. *)
Lemma checkWin_exact (ts : list Token) (player : Player) :
  (∀ s, s ∈ occupiedSlots ts player → 0 <= s <= 8) →
  primeProduct (occupiedSlots ts player) <= INT_MAX →
  ∃ b, checkWin ts player winProducts = Some b
       ∧ (b = true ↔
          ∃ c, c ∈ winCombos ∧ holdsLine (occupiedSlots ts player) c).
Proof.
  intros Hr Hb. unfold checkWin.
  rewrite (winProduct_exact ts player 1 Hr) by lia.
  cbn [mbind option_bind]. rewrite Z.mul_1_l.
  destruct (anyDivides_spec (primeProduct (occupiedSlots ts player)) winProducts)
    as (b & Hany & Hiff).
  { intros p. change winProducts with [897; 935; 3857; 6409; 231; 2185; 2717; 7337].
    rewrite !elem_of_cons, elem_of_nil. lia. }
  exists b. split; [exact Hany |]. rewrite Hiff, winProducts_combos. split.
  - intros (p & Hp & Hd). apply list_elem_of_fmap in Hp as (c & -> & Hc).
    exists c. split; [exact Hc |].
    apply (comboProduct_divide c _ Hc) in Hd.
    pose proof (winCombos_range c Hc) as Hcr.
    destruct c as [[c0 c1] c2]. destruct Hd as (H0 & H1 & H2).
    destruct Hcr as (R0 & R1 & R2).
    repeat split; apply slotPrime_divide; assumption.
  - intros (c & Hc & Hl). exists (comboProduct c). split.
    + apply list_elem_of_fmap. exists c. split; [reflexivity | exact Hc].
    + apply (comboProduct_divide c _ Hc).
      pose proof (winCombos_range c Hc) as Hcr.
      destruct c as [[c0 c1] c2]. destruct Hl as (H0 & H1 & H2).
      destruct Hcr as (R0 & R1 & R2).
      repeat split; apply slotPrime_divide; assumption.
Qed.

(** C1, as amended. For tokens of which [player]'s occupy pairwise distinct
    slots of the board, at most 8 of them, [checkWin] with the products of
    [computeWinProducts] returns true exactly when the player's slots contain
    one of the 8 winning triples. *)
Theorem checkWin_iff_line (ts : list Token) (player : Player) :
  (∀ s, s ∈ occupiedSlots ts player → 0 <= s <= 8) →
  NoDup (occupiedSlots ts player) →
  (length (occupiedSlots ts player) <= 8)%nat →
  computeWinProducts winCombos slots = Some winProducts
  ∧ ∃ b, checkWin ts player winProducts = Some b
         ∧ (b = true ↔
            ∃ c, c ∈ winCombos ∧ holdsLine (occupiedSlots ts player) c).
Proof.
  intros Hr Hnd Hlen. split; [reflexivity |].
  apply checkWin_exact; [exact Hr |].
  apply primeProduct_bound; assumption.
Qed.

Lemma checkWin_iff_line_witness :
  let ts := [standing A 0; standing B 1; standing A 3; standing B 4; standing A 6] in
  (∀ s, s ∈ occupiedSlots ts A → 0 <= s <= 8)
  ∧ NoDup (occupiedSlots ts A)
  ∧ (length (occupiedSlots ts A) <= 8)%nat
  ∧ computeWinProducts winCombos slots = Some winProducts
  ∧ ∃ b, checkWin ts A winProducts = Some b
         ∧ (b = true ↔ ∃ c, c ∈ winCombos ∧ holdsLine (occupiedSlots ts A) c).
Proof.
  intros ts.
  assert (∀ s, s ∈ occupiedSlots ts A → 0 <= s <= 8) as Hr.
  { intros s. change (occupiedSlots ts A) with [0; 3; 6].
    rewrite !elem_of_cons, elem_of_nil. lia. }
  assert (NoDup (occupiedSlots ts A)) as Hnd
    by (apply (bool_decide_unpack _); vm_compute; reflexivity).
  assert (length (occupiedSlots ts A) <= 8)%nat as Hlen by (simpl; lia).
  split; [exact Hr | split; [exact Hnd | split; [exact Hlen |]]].
  exact (checkWin_iff_line ts A Hr Hnd Hlen).
Defined.

(** C1 fails as stated: with a token of Player A on each of the 9 slots the
    product 3234846615 does not fit an [int]; the wrapped value -1060120681
    is divisible by none of the 8 stored products, and [checkWin] returns
    false although every winning triple is occupied. *)
Lemma checkWin_full_board_counterexample :
  let ts := map (standing A) allSlots in
  (∀ s, s ∈ occupiedSlots ts A → 0 <= s <= 8)
  ∧ NoDup (occupiedSlots ts A)
  ∧ winProduct ts A 1 = Some (-1060120681)
  ∧ ¬ (checkWin ts A winProducts = Some true
       ↔ ∃ c, c ∈ winCombos ∧ holdsLine (occupiedSlots ts A) c).
Proof.
  intros ts. split; [| split; [| split]].
  - intros s. change (occupiedSlots ts A) with allSlots. unfold allSlots.
    rewrite !elem_of_cons, elem_of_nil. lia.
  - apply (bool_decide_unpack _). vm_compute. reflexivity.
  - vm_compute. reflexivity.
  - intros [_ Hback].
    assert (checkWin ts A winProducts = Some true) as Hw.
    { apply Hback. exists (0, 1, 2). split; [left |].
      change (occupiedSlots ts A) with allSlots. unfold allSlots, holdsLine.
      rewrite !elem_of_cons. tauto. }
    vm_compute in Hw. discriminate Hw.
Qed.

(** A token of [player] multiplies the running product by the weight of the
    slot in its [slotIndex], whether it is in transit or not. *)
Lemma winProduct_in_transit (t : Token) (rest : list Token) (player : Player)
  (acc : Z) :
  owner t = player → 0 <= slotIndex t <= 8 →
  winProduct (t :: rest) player acc
  = winProduct rest player (wrap32 (acc * slotPrime (slotIndex t))).
Proof.
  intros Ho Hs. simpl. rewrite bool_decide_eq_true_2 by exact Ho.
  replace (slotIndex t =? -1) with false by lia. simpl.
  destruct (index_slots_Some _ Hs) as (sl & -> & <-). reflexivity.
Qed.

(** The first loop of [checkWin] in closed form: one 32-bit multiplication
    for each token of [player] with a [slotIndex], by the weight of that
    slot. *)
Lemma winProduct_wrapped (ts : list Token) (player : Player) (acc : Z) :
  (∀ s, s ∈ occupiedSlots ts player → 0 <= s <= 8) →
  winProduct ts player acc
  = Some (wrappedProduct acc (occupiedSlots ts player)).
Proof.
  revert acc. induction ts as [|t ts IH]; intros acc Hr; [reflexivity |].
  rewrite occupiedSlots_cons in Hr |- *.
  destruct (bool_decide (owner t = player) && negb (slotIndex t =? -1)) eqn:E.
  - apply andb_true_iff in E as [Eo Es].
    apply (bool_decide_eq_true_1 _) in Eo.
    assert (0 <= slotIndex t <= 8) as Hs by (apply Hr; left).
    rewrite (winProduct_in_transit t ts player acc Eo Hs).
    rewrite IH by (intros s Hin; apply Hr; right; exact Hin).
    reflexivity.
  - simpl winProduct. rewrite E. apply IH, Hr.
Qed.

Lemma winProduct_atOrigin (ts : list Token) (player : Player) (acc : Z) :
  winProduct ts player acc = winProduct (map atOrigin ts) player acc.
Proof.
  revert acc. induction ts as [|t ts IH]; intros a; [reflexivity |].
  simpl. destruct (bool_decide (owner t = player) && negb (slotIndex t =? -1)).
  - destruct (index slots (slotIndex t)); [simpl; apply IH | reflexivity].
  - apply IH.
Qed.

(** C3, as amended. [checkWin] reads the owner and the [slotIndex] of a token
    and nothing else. A token in transit counts on the slot it is leaving
    (its [slotIndex] until arrival): it multiplies the product by the weight
    of that slot, and that slot is among the slots of its owner. The
    product is the 32-bit product of the weights of the [slotIndex] of the
    player's tokens, moving or not, taken in vector order, and the verdict
    is the divisibility test on that product; the destination of a slide
    enters neither. So the product and the verdict are those of the same
    tokens all standing on their [slotIndex]. *)
Theorem checkWin_counts_origin (ts : list Token) (player : Player)
  (acc : Z) (wp : list Z) :
  (∀ t rest, moving t = true → owner t = player → 0 <= slotIndex t <= 8 →
             winProduct (t :: rest) player acc
             = winProduct rest player (wrap32 (acc * slotPrime (slotIndex t))))
  ∧ (∀ t, t ∈ ts → moving t = true → owner t = player → slotIndex t ≠ -1 →
          slotIndex t ∈ occupiedSlots ts player)
  ∧ ((∀ s, s ∈ occupiedSlots ts player → 0 <= s <= 8) →
     winProduct ts player acc
     = Some (wrappedProduct acc (occupiedSlots ts player))
     ∧ checkWin ts player wp
       = anyDivides (wrappedProduct 1 (occupiedSlots ts player)) wp)
  ∧ occupiedSlots (map atOrigin ts) player = occupiedSlots ts player
  ∧ winProduct ts player acc = winProduct (map atOrigin ts) player acc
  ∧ checkWin ts player wp = checkWin (map atOrigin ts) player wp.
Proof.
  split; [intros t rest _; apply winProduct_in_transit |].
  split.
  { intros t Hin _ Ho Hs. unfold occupiedSlots.
    apply list_elem_of_In, in_map, filter_In. split.
    - apply list_elem_of_In. exact Hin.
    - rewrite bool_decide_eq_true_2 by exact Ho.
      replace (slotIndex t =? -1) with false by lia. reflexivity. }
  split.
  { intros Hr. split; [apply winProduct_wrapped, Hr |].
    unfold checkWin. rewrite (winProduct_wrapped ts player 1 Hr). reflexivity. }
  split.
  { unfold occupiedSlots. induction ts as [|t ts IH]; [reflexivity |].
    simpl. destruct (bool_decide (owner t = player) && negb (slotIndex t =? -1));
      simpl; rewrite IH; reflexivity. }
  split; [apply winProduct_atOrigin |].
  unfold checkWin. rewrite (winProduct_atOrigin ts player 1). reflexivity.
Qed.

(** C3 fails as stated: Player A stands on slots 0 and 1 and has a third
    token sliding from slot 2 to slot 5. The product computed by [checkWin]
    is 13 * 3 * 23 and the verdict is a win, whereas the tokens that have
    arrived give 13 * 3 and no win. *)
Lemma checkWin_in_transit_counterexample :
  let t := beginMove 5 (fpair 525 275) (standing A 2) in
  let ts := [standing A 0; standing A 1; t] in
  moving t = true
  ∧ winProduct ts A 1 = Some 897
  ∧ winProduct (arrivedOnly ts) A 1 = Some 39
  ∧ checkWin ts A winProducts = Some true
  ∧ checkWin (arrivedOnly ts) A winProducts = Some false
  ∧ winProduct ts A 1 ≠ winProduct (arrivedOnly ts) A 1.
Proof. repeat split. discriminate. Qed.

Lemma checkWin_counts_origin_witness :
  let t := beginMove 5 (fpair 525 275) (standing A 2) in
  let ts := [standing A 0; standing A 1; t] in
  moving t = true ∧ owner t = A ∧ slotIndex t = 2 ∧ nextSlotIndex t = 5
  ∧ (∀ s, s ∈ occupiedSlots ts A → 0 <= s <= 8)
  ∧ slotIndex t ∈ occupiedSlots ts A
  ∧ winProduct [t] A 39 = Some (wrap32 (39 * slotPrime 2))
  ∧ winProduct ts A 1 = Some (wrappedProduct 1 [0; 1; 2])
  ∧ checkWin ts A winProducts = anyDivides (wrappedProduct 1 [0; 1; 2]) winProducts.
Proof.
  intros t ts.
  assert (∀ s, s ∈ occupiedSlots ts A → 0 <= s <= 8) as Hr.
  { intros s. change (occupiedSlots ts A) with [0; 1; 2].
    rewrite !elem_of_cons, elem_of_nil. lia. }
  assert (t ∈ ts) as Hin by (do 2 right; left).
  assert (0 <= slotIndex t <= 8) as Hs by (simpl; lia).
  assert (slotIndex t ≠ -1) as Hs' by (simpl; lia).
  destruct (checkWin_counts_origin ts A 1 winProducts)
    as (_ & Hocc & Hprod & _).
  destruct (checkWin_counts_origin ts A 39 winProducts) as (Hstep & _).
  split; [reflexivity |]. split; [reflexivity |]. split; [reflexivity |].
  split; [reflexivity |]. split; [exact Hr |].
  split; [exact (Hocc t Hin eq_refl eq_refl Hs') |].
  split; [exact (Hstep t [] eq_refl eq_refl Hs) |].
  exact (Hprod Hr).
Defined.

(** ** Rectangles and slot areas *)

Lemma Qltb_lt (a b : Q) : Qltb a b = true ↔ (a < b)%Q.
Proof.
  unfold Qltb. rewrite negb_true_iff. split.
  - intros H. apply Qnot_le_lt. intros Hle.
    apply Qle_bool_iff in Hle. congruence.
  - intros H. destruct (Qle_bool b a) eqn:E; [| reflexivity].
    apply Qle_bool_iff in E. lra.
Qed.

Lemma contains_spec (r : FloatRect) (p : Vector2f) :
  (0 <= rect_width r)%Q → (0 <= rect_height r)%Q →
  contains r p = true ↔
  (rect_left r <= vec_x p ∧ vec_x p < rect_left r + rect_width r
   ∧ rect_top r <= vec_y p ∧ vec_y p < rect_top r + rect_height r)%Q.
Proof.
  intros Hw Hh. unfold contains. cbv zeta.
  rewrite !andb_true_iff, !Qle_bool_iff, !Qltb_lt.
  destruct (Q.min_spec (rect_left r) (rect_left r + rect_width r)) as [[? ?] | [? ?]];
  destruct (Q.max_spec (rect_left r) (rect_left r + rect_width r)) as [[? ?] | [? ?]];
  destruct (Q.min_spec (rect_top r) (rect_top r + rect_height r)) as [[? ?] | [? ?]];
  destruct (Q.max_spec (rect_top r) (rect_top r + rect_height r)) as [[? ?] | [? ?]];
  split; intros; repeat split; lra.
Qed.

Lemma slotArea_spec (s : Slot) (p : Vector2f) :
  contains (slotArea s) p = true ↔
  (vec_x (position s) - 25 <= vec_x p ∧ vec_x p < vec_x (position s) + 25
   ∧ vec_y (position s) - 25 <= vec_y p ∧ vec_y p < vec_y (position s) + 25)%Q.
Proof.
  rewrite contains_spec by (unfold Qle; simpl; lia). simpl.
  change (inject_Z 25) with 25%Q. change (inject_Z 50) with 50%Q.
  split; intros; repeat split; lra.
Qed.

Lemma lookup_slots (i : nat) (s : Slot) :
  slots !! i = Some s → (i < 9)%nat ∧ index slots (Z.of_nat i) = Some s.
Proof.
  intros H. split; [apply lookup_lt_Some in H; exact H |].
  unfold index. destruct (Z.leb_spec 0 (Z.of_nat i)); [| lia].
  rewrite Nat2Z.id. exact H.
Qed.

(** The nine slot areas do not overlap. *)
Lemma slotArea_disjoint (i j : nat) (s s' : Slot) (p : Vector2f) :
  slots !! i = Some s → slots !! j = Some s' →
  contains (slotArea s) p = true → contains (slotArea s') p = true → i = j.
Proof.
  rewrite !slotArea_spec. intros Hi Hj.
  destruct i as [|[|[|[|[|[|[|[|[|i]]]]]]]]]; simpl in Hi; try discriminate Hi;
    injection Hi as <-;
    (destruct j as [|[|[|[|[|[|[|[|[|j]]]]]]]]]; simpl in Hj; try discriminate Hj;
     injection Hj as <-);
    simpl; change (inject_Z 50) with 50%Q; change (inject_Z 300) with 300%Q;
    change (inject_Z 550) with 550%Q;
    intros A1 A2; first [reflexivity | exfalso; lra].
Qed.

(** ** Free slots *)

Lemma occupied_taken (i : Z) (ts : list Token) :
  occupied i ts = true ↔ taken i ts.
Proof.
  unfold occupied, taken. rewrite existsb_exists. split.
  - intros (t & Hin & H). exists t. split; [apply list_elem_of_In; exact Hin |].
    apply orb_true_iff in H as [H | H]; [left; lia |].
    apply andb_true_iff in H as [Hm H]. right. split; [exact Hm | lia].
  - intros (t & Hin & H). exists t. split; [apply list_elem_of_In; exact Hin |].
    destruct H as [H | [Hm H]].
    + apply orb_true_iff. left. lia.
    + apply orb_true_iff. right. rewrite Hm. simpl. lia.
Qed.

Lemma freeSlotFrom_spec (i : Z) (ss : list Slot) (pos : Vector2f)
  (ts : list Token) :
  (freeSlotFrom i ss pos ts = -1
   ∧ ∀ k s, ss !! k = Some s → contains (slotArea s) pos = true →
            occupied (i + Z.of_nat k) ts = true)
  ∨ (∃ k s, freeSlotFrom i ss pos ts = i + Z.of_nat k
            ∧ ss !! k = Some s
            ∧ occupied (i + Z.of_nat k) ts = false
            ∧ contains (slotArea s) pos = true).
Proof.
  revert i. induction ss as [|s ss IH]; intros i.
  - left. split; [reflexivity |]. intros k s Hk. inversion Hk.
  - simpl. destruct (occupied i ts) eqn:Eo; simpl.
    + destruct (IH (i + 1)) as [[Hr Hall] | (k & s' & Hr & Hk & Ho & Hc)].
      * left. split; [exact Hr |]. intros [|k] s' Hk Hc.
        -- rewrite Z.add_0_r. exact Eo.
        -- replace (i + Z.of_nat (S k)) with (i + 1 + Z.of_nat k) by lia.
           apply (Hall k s'); assumption.
      * right. exists (S k), s'.
        replace (i + Z.of_nat (S k)) with (i + 1 + Z.of_nat k) by lia.
        repeat split; assumption.
    + destruct (contains (slotArea s) pos) eqn:Ec.
      * right. exists 0%nat, s. rewrite Z.add_0_r. repeat split; assumption.
      * destruct (IH (i + 1)) as [[Hr Hall] | (k & s' & Hr & Hk & Ho & Hc)].
        -- left. split; [exact Hr |]. intros [|k] s' Hk Hc.
           ++ injection Hk as <-. congruence.
           ++ replace (i + Z.of_nat (S k)) with (i + 1 + Z.of_nat k) by lia.
              apply (Hall k s'); assumption.
        -- right. exists (S k), s'.
           replace (i + Z.of_nat (S k)) with (i + 1 + Z.of_nat k) by lia.
           repeat split; assumption.
Qed.

Lemma index_lookup {X : Type} (l : list X) (i : Z) (x : X) :
  index l i = Some x ↔ 0 <= i ∧ l !! Z.to_nat i = Some x.
Proof.
  unfold index. destruct (Z.leb_spec 0 i); split.
  - intros H'. split; assumption.
  - intros [_ H']. exact H'.
  - discriminate.
  - intros [H' _]. lia.
Qed.

(** What [getFreeSlotUnderMouse] returns: [-1] when every slot under the
    mouse is taken, and otherwise a slot under the mouse that is not. *)
Lemma getFreeSlotUnderMouse_spec (pos : Vector2f) (ts : list Token) :
  (getFreeSlotUnderMouse pos ts = -1
   ∧ ∀ i s, index slots i = Some s → contains (slotArea s) pos = true →
            taken i ts)
  ∨ (∃ s, 0 <= getFreeSlotUnderMouse pos ts <= 8
          ∧ index slots (getFreeSlotUnderMouse pos ts) = Some s
          ∧ ¬ taken (getFreeSlotUnderMouse pos ts) ts
          ∧ contains (slotArea s) pos = true).
Proof.
  unfold getFreeSlotUnderMouse.
  destruct (freeSlotFrom_spec 0 slots pos ts)
    as [[Hr Hall] | (k & s & Hr & Hk & Ho & Hc)].
  - left. split; [exact Hr |]. intros i s Hi Hc.
    apply index_lookup in Hi as [Hi0 Hi]. apply occupied_taken.
    replace i with (0 + Z.of_nat (Z.to_nat i)) by lia. apply (Hall _ s); assumption.
  - right. exists s. rewrite Hr. simpl.
    destruct (lookup_slots k s Hk) as [Hlt Hidx].
    split; [lia |]. split; [exact Hidx |]. split; [| exact Hc].
    rewrite <- occupied_taken. simpl in Ho. congruence.
Qed.

(** A taken slot under the mouse: nothing is free there. *)
Lemma getFreeSlotUnderMouse_taken (pos : Vector2f) (ts : list Token)
  (i : Z) (s : Slot) :
  index slots i = Some s → contains (slotArea s) pos = true → taken i ts →
  getFreeSlotUnderMouse pos ts = -1.
Proof.
  intros Hi Hc Ht.
  destruct (getFreeSlotUnderMouse_spec pos ts)
    as [[Hr _] | (s' & Hrange & Hi' & Hfree & Hc')]; [exact Hr |].
  exfalso. apply Hfree.
  apply index_lookup in Hi as [Hi0 Hi]. apply index_lookup in Hi' as [_ Hi'].
  pose proof (slotArea_disjoint _ _ _ _ _ Hi Hi' Hc Hc') as E.
  replace (getFreeSlotUnderMouse pos ts) with i by lia. exact Ht.
Qed.

(** A free slot under the mouse is the one returned. *)
Lemma getFreeSlotUnderMouse_free (pos : Vector2f) (ts : list Token)
  (i : Z) (s : Slot) :
  index slots i = Some s → contains (slotArea s) pos = true → ¬ taken i ts →
  getFreeSlotUnderMouse pos ts = i.
Proof.
  intros Hi Hc Hf.
  destruct (getFreeSlotUnderMouse_spec pos ts)
    as [[_ Hall] | (s' & Hrange & Hi' & Hfree & Hc')].
  - exfalso. apply Hf. apply (Hall i s); assumption.
  - apply index_lookup in Hi as [Hi0 Hi]. apply index_lookup in Hi' as [_ Hi'].
    pose proof (slotArea_disjoint _ _ _ _ _ Hi Hi' Hc Hc') as E. lia.
Qed.

(** ** Ignored clicks *)

Lemma placementClick_on_taken (g : Game) (pos : Vector2f) (wp : list Z)
  (i : Z) (s : Slot) :
  index slots i = Some s → contains (slotArea s) pos = true →
  taken i (tokens g) →
  placementClick g pos wp = Some (g, false).
Proof.
  intros Hi Hc Ht. unfold placementClick.
  rewrite (getFreeSlotUnderMouse_taken _ _ i s Hi Hc Ht). reflexivity.
Qed.

Section Clicks.

Variable tokenSize : Player → Vector2f.

(** C5. In the Placement phase a click (one that is not on the button at
    [startButtonBounds]) over a slot on which a token stands, or towards
    which a token is sliding, changes nothing: no token is created, no
    message is logged, and [handleEvents] goes on to the next event. *)
Theorem placement_on_taken_slot_ignored (g : Game) (x y : Z) (wp : list Z)
  (i : Z) (s : Slot) :
  phase g = Placement →
  contains (startButtonBounds g) (fpair x y) = false →
  index slots i = Some s →
  contains (slotArea s) (fpair x y) = true →
  taken i (tokens g) →
  handleEvent tokenSize g (MouseLeft x y) wp = Some (g, false).
Proof.
  intros Hph Hbtn Hi Hc Ht. unfold handleEvent. rewrite Hph, Hbtn. simpl.
  exact (placementClick_on_taken g _ wp i s Hi Hc Ht).
Qed.

(** C8. In the Win phase every event other than a click on the button at
    [startButtonBounds] (the reset) leaves the tokens, the selection, the
    turn, the placement counts and the phase as they are; a click on that
    button is [resetGame]. *)
Theorem win_freezes (g : Game) (ev : Event) (wp : list Z) :
  phase g = Win →
  ∃ g' r, handleEvent tokenSize g ev wp = Some (g', r)
          ∧ if onStartButton g ev then g' = resetGame g
            else tokens g' = tokens g
                 ∧ selectedPtr g' = selectedPtr g
                 ∧ turn g' = turn g
                 ∧ placedA g' = placedA g
                 ∧ placedB g' = placedB g
                 ∧ phase g' = Win.
Proof.
  intros Hph. destruct ev as [| x y |]; simpl.
  - eexists _, _. split; [reflexivity |]. repeat split. exact Hph.
  - rewrite Hph. simpl.
    destruct (contains (startButtonBounds g) (fpair x y)).
    + eexists _, _. split; reflexivity.
    + destruct (contains exitButtonBounds (fpair x y));
        (eexists _, _; split; [reflexivity |]; repeat split; exact Hph).
  - eexists _, _. split; [reflexivity |]. repeat split. exact Hph.
Qed.

End Clicks.

(** ** Moves *)

Lemma isAdjacent_defined (a b : Z) :
  0 <= a <= 8 → ∃ r, isAdjacent a b = Some r.
Proof. intros H. each_slot a H; eexists; reflexivity. Qed.

Section Moves.

Variable tokenSize : Player → Vector2f.

Lemma clickedToken_None (i : nat) (ts : list Token) (who : Player)
  (pos : Vector2f) :
  (∀ t, t ∈ ts → owner t = who →
        contains (getGlobalBounds tokenSize (sprite t)) pos = false) →
  clickedToken tokenSize i ts who pos = None.
Proof.
  revert i. induction ts as [|t ts IH]; intros i H; [reflexivity |].
  simpl. destruct (bool_decide (owner t = who)) eqn:E.
  - apply bool_decide_eq_true in E. rewrite (H t) by (left || exact E).
    simpl. apply IH. intros t' Ht'. apply H. right. exact Ht'.
  - simpl. apply IH. intros t' Ht'. apply H. right. exact Ht'.
Qed.

(** C4. In the Movement phase, for a click that is not on the button at
    [startButtonBounds] and lands on no token of the player to move: if a
    token is selected and not moving, and the slot under the click is free
    and adjacent to the slot of that token, the token begins to slide to
    it: it is flagged as moving, slot [S] is its next slot, its target is
    the position of [S] less (25, 25), its selection flag is cleared, and
    it still stands where it stood; the turn indicator changes, and
    nothing else does (the selection pointer still points to the token, the
    turn has not passed). In every other case the game is unchanged (the
    selection with it). *)
Theorem movement_click_moves (g : Game) (x y : Z) (wp : list Z) :
  phase g = Movement →
  contains (startButtonBounds g) (fpair x y) = false →
  offOwnTokens tokenSize g (fpair x y) →
  selectionValid g →
  (∀ j t S dest,
     moveAccepted g (fpair x y) j t S dest →
     ∃ g' t',
       handleEvent tokenSize g (MouseLeft x y) wp = Some (g', false)
       ∧ g' = slideStarted g j t S dest
       ∧ g' ≠ g
       ∧ tokens g' = <[j := t']> (tokens g)
       ∧ moving t' = true
       ∧ nextSlotIndex t' = S
       ∧ targetPos t'
         = vec2 (vec_x (position dest) - 25)%Q (vec_y (position dest) - 25)%Q
       ∧ selected t' = false
       ∧ slotIndex t' = slotIndex t
       ∧ sprite t' = sprite t
       ∧ owner t' = owner t
       ∧ selectedPtr g' = Some j
       ∧ turn g' = turn g
       ∧ phase g' = Movement
       ∧ placedA g' = placedA g ∧ placedB g' = placedB g
       ∧ startButtonBounds g' = startButtonBounds g
       ∧ winner g' = winner g
       ∧ windowOpen g' = windowOpen g
       ∧ logged g' = logged g
       ∧ currentPTI g' = match turn g with A => pbmt | B => pamt end)
  ∧ ((¬ ∃ j t S dest, moveAccepted g (fpair x y) j t S dest) →
     handleEvent tokenSize g (MouseLeft x y) wp = Some (g, false)).
Proof.
  intros Hph Hbtn Hoff Hsel.
  assert (handleEvent tokenSize g (MouseLeft x y) wp
          = movementClick tokenSize g (fpair x y)) as ->.
  { unfold handleEvent. rewrite Hph, Hbtn. reflexivity. }
  unfold movementClick. rewrite (clickedToken_None _ _ _ _ Hoff). split.
  - intros j t S dest (Hj & Ht & Hm & Hd & Hc & Hfree & Hadj).
    exists (slideStarted g j t S dest),
           (beginMove S (vec_sub (position dest) (fpair 25 25)) t).
    split.
    { rewrite Hj, Ht. simpl. rewrite Hm.
      rewrite (getFreeSlotUnderMouse_free _ _ S dest Hd Hc Hfree).
      apply index_lookup in Hd as Hd'. destruct Hd' as [HS _].
      replace (S =? -1) with false by lia.
      rewrite Hadj. simpl. rewrite Hd. reflexivity. }
    split; [reflexivity |].
    split.
    { intros E. apply (f_equal tokens) in E. simpl in E.
      apply (f_equal (fun l => moving <$> l !! j)) in E.
      rewrite list_lookup_insert_eq in E by (eapply lookup_lt_Some; exact Ht).
      rewrite Ht in E. simpl in E. congruence. }
    split; [reflexivity |]. split; [reflexivity |]. split; [reflexivity |].
    split; [reflexivity |]. split; [reflexivity |]. split; [reflexivity |].
    split; [reflexivity |]. split; [reflexivity |].
    split; [exact Hj |]. split; [reflexivity |]. split; [exact Hph |].
    repeat (split; [reflexivity |]). reflexivity.
  - intros Hno. destruct (selectedPtr g) as [j|] eqn:Ej; [| reflexivity].
    destruct (Hsel j Ej) as (t & Ht & Hr). rewrite Ht. simpl.
    destruct (moving t) eqn:Hm; [reflexivity |].
    destruct (getFreeSlotUnderMouse_spec (fpair x y) (tokens g))
      as [[-> _] | (dest & Hrange & Hd & Hfree & Hc)]; [reflexivity |].
    replace (getFreeSlotUnderMouse (fpair x y) (tokens g) =? -1)
      with false by lia.
    destruct (isAdjacent_defined (slotIndex t)
                (getFreeSlotUnderMouse (fpair x y) (tokens g)) Hr)
      as ([|] & Hadj); rewrite Hadj; simpl; [| reflexivity].
    exfalso. apply Hno.
    exists j, t, (getFreeSlotUnderMouse (fpair x y) (tokens g)), dest.
    repeat split; assumption.
Qed.

End Moves.

(** ** One token per slot *)

Lemma oneTokenPerSlot_insert (ts : list Token) (i : nat) (t t' : Token) (S : Z) :
  oneTokenPerSlot ts → ts !! i = Some t → ¬ taken S ts →
  (∀ s, occupies t' s → occupies t s ∨ s = S) →
  oneTokenPerSlot (<[i := t']> ts).
Proof.
  intros Hinv Hi Hfree Hsub a b ta tb s Ha Hb Oa Ob.
  assert (∀ k tk, ts !! k = Some tk → occupies tk S → False) as Hno.
  { intros k tk Hk Ok. apply Hfree. exists tk. split; [| exact Ok].
    apply list_elem_of_lookup. exists k. exact Hk. }
  destruct (decide (a = i)) as [-> | Na]; destruct (decide (b = i)) as [-> | Nb];
    [reflexivity | | |].
  - rewrite list_lookup_insert_ne in Hb by congruence.
    rewrite list_lookup_insert_eq in Ha by (eapply lookup_lt_Some; exact Hi).
    injection Ha as <-. destruct (Hsub s Oa) as [O | ->].
    + exact (Hinv _ _ _ _ s Hi Hb O Ob).
    + destruct (Hno _ _ Hb Ob).
  - rewrite list_lookup_insert_ne in Ha by congruence.
    rewrite list_lookup_insert_eq in Hb by (eapply lookup_lt_Some; exact Hi).
    injection Hb as <-. destruct (Hsub s Ob) as [O | ->].
    + exact (Hinv _ _ _ _ s Ha Hi Oa O).
    + destruct (Hno _ _ Ha Oa).
  - rewrite list_lookup_insert_ne in Ha by congruence.
    rewrite list_lookup_insert_ne in Hb by congruence.
    exact (Hinv _ _ _ _ s Ha Hb Oa Ob).
Qed.

(** A token may be replaced by one that occupies no more than it did. *)
Lemma oneTokenPerSlot_shrink (ts : list Token) (i : nat) (t t' : Token) :
  oneTokenPerSlot ts → ts !! i = Some t →
  (∀ s, occupies t' s → occupies t s) →
  oneTokenPerSlot (<[i := t']> ts).
Proof.
  intros Hinv Hi Hsub a b ta tb s Ha Hb Oa Ob.
  assert (∀ k tk, <[i := t']> ts !! k = Some tk →
                  ∃ tk', ts !! k = Some tk' ∧ ∀ s, occupies tk s → occupies tk' s)
    as Hback.
  { intros k tk Hk. destruct (decide (k = i)) as [-> | Nk].
    - rewrite list_lookup_insert_eq in Hk by (eapply lookup_lt_Some; exact Hi).
      injection Hk as <-. exists t. split; [exact Hi | exact Hsub].
    - rewrite list_lookup_insert_ne in Hk by congruence.
      exists tk. split; [exact Hk | tauto]. }
  destruct (Hback _ _ Ha) as (ta' & Ha' & Sa).
  destruct (Hback _ _ Hb) as (tb' & Hb' & Sb).
  exact (Hinv _ _ _ _ s Ha' Hb' (Sa _ Oa) (Sb _ Ob)).
Qed.

Lemma oneTokenPerSlot_push (ts : list Token) (t : Token) (S : Z) :
  oneTokenPerSlot ts → ¬ taken S ts → (∀ s, occupies t s → s = S) →
  oneTokenPerSlot (ts ++ [t]).
Proof.
  intros Hinv Hfree Hone a b ta tb s Ha Hb Oa Ob.
  assert (∀ k tk, ts !! k = Some tk → occupies tk S → False) as Hno.
  { intros k tk Hk Ok. apply Hfree. exists tk. split; [| exact Ok].
    apply list_elem_of_lookup. exists k. exact Hk. }
  apply lookup_app_Some in Ha as [Ha | [La Ha]];
    apply lookup_app_Some in Hb as [Hb | [Lb Hb]].
  - exact (Hinv _ _ _ _ s Ha Hb Oa Ob).
  - apply list_lookup_singleton_Some in Hb as [_ <-].
    rewrite (Hone _ Ob) in Oa. destruct (Hno _ _ Ha Oa).
  - apply list_lookup_singleton_Some in Ha as [_ <-].
    rewrite (Hone _ Oa) in Ob. destruct (Hno _ _ Hb Ob).
  - apply list_lookup_singleton_Some in Ha as [Ea _].
    apply list_lookup_singleton_Some in Hb as [Eb _]. lia.
Qed.

Lemma getFreeSlotUnderMouse_not_taken (pos : Vector2f) (ts : list Token) :
  getFreeSlotUnderMouse pos ts ≠ -1 →
  ¬ taken (getFreeSlotUnderMouse pos ts) ts.
Proof.
  intros Hne. destruct (getFreeSlotUnderMouse_spec pos ts)
    as [[Hr _] | (s & _ & _ & Hfree & _)]; [contradiction | exact Hfree].
Qed.

Section Invariant.

Variable tokenSize : Player → Vector2f.
Variable slide : Vector2f → Vector2f → Q → Q → option Vector2f.

Lemma placementClick_oneTokenPerSlot (g g' : Game) (pos : Vector2f)
  (wp : list Z) (r : bool) :
  placementClick g pos wp = Some (g', r) →
  oneTokenPerSlot (tokens g) → oneTokenPerSlot (tokens g').
Proof.
  unfold placementClick. intros H Hinv.
  destruct (Z.eqb_spec (getFreeSlotUnderMouse pos (tokens g)) (-1)) as [E | E].
  { injection H as <- _. exact Hinv. }
  pose proof (getFreeSlotUnderMouse_not_taken _ _ E) as Hfree.
  destruct (index slots (getFreeSlotUnderMouse pos (tokens g))) as [s|];
    [| discriminate H].
  simpl in H.
  assert (oneTokenPerSlot
            (tokens g ++ [placedToken (turn g)
                            (getFreeSlotUnderMouse pos (tokens g)) s])) as Hnew.
  { apply (oneTokenPerSlot_push _ _ _ Hinv Hfree).
    intros s' [O | [O _]]; [symmetry; exact O | discriminate O]. }
  destruct (checkWin _ _ _) as [[|]|]; simpl in H; [| | discriminate H].
  - injection H as <- _. exact Hnew.
  - injection H as <- _. destruct (turn g); simpl;
      repeat (match goal with |- context [if ?c then _ else _] => destruct c end);
      exact Hnew.
Qed.

Lemma deselect_oneTokenPerSlot (g g' : Game) :
  deselect g = Some g' →
  oneTokenPerSlot (tokens g) →
  oneTokenPerSlot (tokens g') ∧ turn g' = turn g
  ∧ length (tokens g') = length (tokens g).
Proof.
  unfold deselect. intros H Hinv. destruct (selectedPtr g) as [j|].
  - destruct (tokens g !! j) as [s|] eqn:Es; [| discriminate H].
    injection H as <-. simpl. split; [| split; [reflexivity | apply length_insert]].
    apply (oneTokenPerSlot_shrink _ _ s _ Hinv Es). intros s' O. exact O.
  - injection H as <-. auto.
Qed.

Lemma movementClick_oneTokenPerSlot (g g' : Game) (pos : Vector2f) (r : bool) :
  movementClick tokenSize g pos = Some (g', r) →
  oneTokenPerSlot (tokens g) → oneTokenPerSlot (tokens g').
Proof.
  unfold movementClick. intros H Hinv.
  destruct (clickedToken tokenSize 0 (tokens g) (turn g) pos) as [k|].
  - destruct (deselect g) as [g1|] eqn:Ed; [| discriminate H].
    destruct (deselect_oneTokenPerSlot _ _ Ed Hinv) as (Hinv1 & _ & _).
    simpl in H. destruct (tokens g1 !! k) as [t|] eqn:Et; [| discriminate H].
    injection H as <- _. simpl.
    apply (oneTokenPerSlot_shrink _ _ t _ Hinv1 Et). intros s' O. exact O.
  - destruct (selectedPtr g) as [j|]; [| injection H as <- _; exact Hinv].
    destruct (tokens g !! j) as [s|] eqn:Es; [| discriminate H]. simpl in H.
    destruct (moving s) eqn:Em; [injection H as <- _; exact Hinv |].
    destruct (Z.eqb_spec (getFreeSlotUnderMouse pos (tokens g)) (-1)) as [E | E];
      [injection H as <- _; exact Hinv |].
    pose proof (getFreeSlotUnderMouse_not_taken _ _ E) as Hfree.
    destruct (isAdjacent _ _) as [[|]|]; simpl in H;
      [| injection H as <- _; exact Hinv | discriminate H].
    destruct (index slots _) as [dest|]; [| discriminate H]. simpl in H.
    injection H as <- _. simpl.
    apply (oneTokenPerSlot_insert _ _ s _ _ Hinv Es Hfree).
    intros s' [O | [_ O]]; [left; left; exact O | right; symmetry; exact O].
Qed.

Lemma handleEvent_oneTokenPerSlot (g g' : Game) (ev : Event) (wp : list Z)
  (r : bool) :
  handleEvent tokenSize g ev wp = Some (g', r) →
  oneTokenPerSlot (tokens g) → oneTokenPerSlot (tokens g').
Proof.
  assert (oneTokenPerSlot []) as Hnil.
  { intros i j ti tj s Hi. inversion Hi. }
  unfold handleEvent. intros H Hinv. destruct ev as [| x y |].
  - injection H as <- _. exact Hinv.
  - repeat (match type of H with
            | (if ?c then _ else _) = _ => destruct c
            end);
      try (injection H as <- _; first [exact Hinv | exact Hnil]).
    + exact (placementClick_oneTokenPerSlot _ _ _ _ _ H Hinv).
    + exact (movementClick_oneTokenPerSlot _ _ _ _ H Hinv).
  - injection H as <- _. exact Hinv.
Qed.

Lemma updateToken_oneTokenPerSlot (g g' : Game) (i : nat) (dt sp : Q)
  (wp : list Z) :
  updateToken slide g i dt sp wp = Some g' →
  oneTokenPerSlot (tokens g) →
  oneTokenPerSlot (tokens g') ∧ length (tokens g') = length (tokens g).
Proof.
  unfold updateToken. intros H Hinv.
  destruct (tokens g !! i) as [t|] eqn:Et; [| discriminate H]. simpl in H.
  destruct (moving t) eqn:Em; [| injection H as <-; auto].
  destruct (slide _ _ _ _) as [p|].
  - injection H as <-. simpl. split; [| apply length_insert].
    apply (oneTokenPerSlot_shrink _ _ t _ Hinv Et). intros s' O. exact O.
  - simpl in H.
    assert (oneTokenPerSlot (<[i := completeMove t]> (tokens g))) as Hnew.
    { apply (oneTokenPerSlot_shrink _ _ t _ Hinv Et).
      intros s' [O | [O _]]; [| discriminate O].
      right. split; [exact Em | exact O]. }
    destruct (checkWin _ _ _) as [[|]|]; simpl in H; [| | discriminate H];
      injection H as <-; simpl; (split; [exact Hnew | apply length_insert]).
Qed.

Lemma updateFrom_oneTokenPerSlot (n i : nat) (g g' : Game) (dt sp : Q)
  (wp : list Z) :
  updateFrom slide n i g dt sp wp = Some g' →
  oneTokenPerSlot (tokens g) → oneTokenPerSlot (tokens g').
Proof.
  revert i g. induction n as [|n IH]; intros i g H Hinv.
  - injection H as <-. exact Hinv.
  - simpl in H. destruct (updateToken slide g i dt sp wp) as [g1|] eqn:E;
      [| discriminate H].
    simpl in H. apply (IH _ _ H).
    apply (updateToken_oneTokenPerSlot _ _ _ _ _ _ E Hinv).
Qed.

(** C6. In every state the program reaches, no slot is occupied by two
    tokens, a token occupying the slot it stands on and, while in transit,
    the slot it is sliding to. *)
Theorem reachable_oneTokenPerSlot (g : Game) :
  reachable tokenSize slide g → oneTokenPerSlot (tokens g).
Proof.
  induction 1 as [| g ev g' r _ IH _ Hev | g dt g' _ IH Hup].
  - intros i j ti tj s Hi. inversion Hi.
  - exact (handleEvent_oneTokenPerSlot _ _ _ _ _ Hev IH).
  - exact (updateFrom_oneTokenPerSlot _ _ _ _ _ _ _ Hup IH).
Qed.

End Invariant.

(** ** Concrete games *)

Section Runs.

Variable tokenSize : Player → Vector2f.
Variable slide : Vector2f → Vector2f → Q → Q → option Vector2f.

Lemma afterClicks_reachable (cs : list (Z * Z)) (g g' : Game) :
  reachable tokenSize slide g →
  afterClicks tokenSize g cs = Some g' →
  reachable tokenSize slide g'.
Proof.
  revert g. induction cs as [|[x y] cs IH]; intros g Hg H.
  - injection H as <-. exact Hg.
  - cbn [afterClicks] in H. destruct (windowOpen g) eqn:Ew; [| discriminate H].
    destruct (handleEvent tokenSize g (MouseLeft x y) winProducts)
      as [[g1 r]|] eqn:E; [| discriminate H].
    cbn [mbind option_bind] in H. apply (IH g1); [| exact H].
    exact (reach_event _ _ _ _ _ _ Hg Ew E).
Qed.

Lemma offOwnTokens_check (g : Game) (pos : Vector2f) :
  forallb (fun t => negb (bool_decide (owner t = turn g)
                          && contains (getGlobalBounds tokenSize (sprite t)) pos))
          (tokens g) = true →
  offOwnTokens tokenSize g pos.
Proof.
  intros H t Ht Ho. rewrite forallb_forall in H.
  specialize (H t (proj1 (list_elem_of_In _ _) Ht)).
  rewrite bool_decide_eq_true_2 in H by exact Ho. simpl in H.
  destruct (contains _ _); [discriminate H | reflexivity].
Qed.

End Runs.

Lemma selectionValid_check (g : Game) :
  match selectedPtr g with
  | None => true
  | Some j => match tokens g !! j with
              | Some t => (0 <=? slotIndex t) && (slotIndex t <=? 8)
              | None => false
              end
  end = true →
  selectionValid g.
Proof.
  intros H j Hj. rewrite Hj in H.
  destruct (tokens g !! j) as [t|]; [| exfalso; congruence].
  exists t. split; [reflexivity |]. apply andb_true_iff in H. lia.
Qed.

Lemma stateAfter_reachable
  (slide : Vector2f → Vector2f → Q → Q → option Vector2f) (cs : list (Z * Z)) :
  is_Some (afterClicks size50 initial cs) →
  reachable size50 slide (stateAfter cs).
Proof.
  intros [g Hg]. unfold stateAfter. rewrite Hg. simpl.
  apply (afterClicks_reachable size50 slide cs initial g);
    [apply reach_initial | exact Hg].
Qed.

Lemma placement_on_taken_slot_ignored_witness :
  phase oneTokenPlaced = Placement
  ∧ contains (startButtonBounds oneTokenPlaced) (fpair 60 40) = false
  ∧ index slots 0 = Some (mkSlot (fpair 50 50) 13)
  ∧ contains (slotArea (mkSlot (fpair 50 50) 13)) (fpair 60 40) = true
  ∧ taken 0 (tokens oneTokenPlaced)
  ∧ handleEvent size50 oneTokenPlaced (MouseLeft 60 40) winProducts
    = Some (oneTokenPlaced, false).
Proof.
  assert (taken 0 (tokens oneTokenPlaced)) as Ht
    by (apply occupied_taken; vm_compute; reflexivity).
  repeat (split; [first [vm_compute; reflexivity | exact Ht] |]).
  apply (placement_on_taken_slot_ignored size50 oneTokenPlaced 60 40 winProducts
           0 (mkSlot (fpair 50 50) 13));
    first [vm_compute; reflexivity | exact Ht].
Defined.

Lemma win_freezes_witness :
  phase wonByPlacement = Win
  ∧ ∃ g' r, handleEvent size50 wonByPlacement (MouseLeft 300 300) winProducts
            = Some (g', r)
            ∧ if onStartButton wonByPlacement (MouseLeft 300 300)
              then g' = resetGame wonByPlacement
              else tokens g' = tokens wonByPlacement
                   ∧ selectedPtr g' = selectedPtr wonByPlacement
                   ∧ turn g' = turn wonByPlacement
                   ∧ placedA g' = placedA wonByPlacement
                   ∧ placedB g' = placedB wonByPlacement
                   ∧ phase g' = Win.
Proof.
  split; [vm_compute; reflexivity |].
  apply (win_freezes size50 wonByPlacement (MouseLeft 300 300) winProducts).
  vm_compute. reflexivity.
Defined.

(** With the token on slot 1 selected, a click on the free slot 2 meets the
    conditions of a move. *)
Lemma tokenSelected_move_accepted :
  moveAccepted tokenSelected (fpair 550 50) 0
    (mkToken (mkSprite A (fpair 275 25)) 1 (-1) A true false (vec2 0 0))
    2 (mkSlot (fpair 550 50) 23).
Proof.
  unfold moveAccepted.
  repeat (split; [vm_compute; reflexivity |]).
  split; [| vm_compute; reflexivity].
  rewrite <- occupied_taken. vm_compute. discriminate.
Qed.

Lemma movement_click_moves_witness :
  let t := mkToken (mkSprite A (fpair 275 25)) 1 (-1) A true false (vec2 0 0) in
  phase tokenSelected = Movement
  ∧ contains (startButtonBounds tokenSelected) (fpair 550 50) = false
  ∧ offOwnTokens size50 tokenSelected (fpair 550 50)
  ∧ selectionValid tokenSelected
  ∧ moveAccepted tokenSelected (fpair 550 50) 0 t 2 (mkSlot (fpair 550 50) 23)
  ∧ ∃ g' t',
      handleEvent size50 tokenSelected (MouseLeft 550 50) winProducts
      = Some (g', false)
      ∧ g' ≠ tokenSelected
      ∧ tokens g' = <[0%nat := t']> (tokens tokenSelected)
      ∧ moving t' = true
      ∧ nextSlotIndex t' = 2
      ∧ targetPos t' = fpair 525 25
      ∧ selected t' = false
      ∧ slotIndex t' = 1
      ∧ sprite t' = mkSprite A (fpair 275 25)
      ∧ owner t' = A
      ∧ selectedPtr g' = Some 0%nat
      ∧ turn g' = A
      ∧ phase g' = Movement
      ∧ currentPTI g' = pbmt.
Proof.
  intros t.
  assert (phase tokenSelected = Movement) as Hph by (vm_compute; reflexivity).
  assert (contains (startButtonBounds tokenSelected) (fpair 550 50) = false)
    as Hbtn by (vm_compute; reflexivity).
  assert (offOwnTokens size50 tokenSelected (fpair 550 50)) as Hoff
    by (apply offOwnTokens_check; vm_compute; reflexivity).
  assert (selectionValid tokenSelected) as Hsel
    by (apply selectionValid_check; vm_compute; reflexivity).
  pose proof tokenSelected_move_accepted as Hacc.
  split; [exact Hph |]. split; [exact Hbtn |].
  split; [exact Hoff |]. split; [exact Hsel |]. split; [exact Hacc |].
  destruct (proj1 (movement_click_moves size50 tokenSelected 550 50 winProducts
                     Hph Hbtn Hoff Hsel) _ _ _ _ Hacc)
    as (g' & t' & He & _ & Hne & Hts & Hm & Hn & Htg & Hs & Hsi & Hsp & Ho
        & Hptr & Htu & Hp' & _ & _ & _ & _ & _ & _ & Hpti).
  exists g', t'.
  split; [exact He |]. split; [exact Hne |]. split; [exact Hts |].
  split; [exact Hm |]. split; [exact Hn |].
  split; [rewrite Htg; vm_compute; reflexivity |].
  split; [exact Hs |]. split; [exact Hsi |]. split; [exact Hsp |].
  split; [exact Ho |]. split; [exact Hptr |].
  split; [rewrite Htu; vm_compute; reflexivity |]. split; [exact Hp' |].
  rewrite Hpti. vm_compute. reflexivity.
Defined.

Lemma reachable_oneTokenPerSlot_witness :
  reachable size50 arriveNow twoSlides ∧ oneTokenPerSlot (tokens twoSlides).
Proof.
  assert (reachable size50 arriveNow twoSlides) as Hr.
  { apply stateAfter_reachable. vm_compute. eexists. reflexivity. }
  split; [exact Hr |].
  exact (reachable_oneTokenPerSlot size50 arriveNow twoSlides Hr).
Defined.

(** ** Turn alternation *)

Section Turns.

Variable tokenSize : Player → Vector2f.
Variable slide : Vector2f → Vector2f → Q → Q → option Vector2f.

(** An accepted placement: the turn stays with the winner on a win and
    passes to the other player otherwise. *)
Lemma placementClick_turn (g g' : Game) (pos : Vector2f) (wp : list Z)
  (r : bool) :
  placementClick g pos wp = Some (g', r) →
  getFreeSlotUnderMouse pos (tokens g) ≠ -1 →
  ∃ won, checkWin (tokens g') (turn g) wp = Some won
         ∧ if won then turn g' = turn g ∧ phase g' = Win
           else turn g' = other (turn g).
Proof.
  unfold placementClick. intros H Hne.
  destruct (Z.eqb_spec (getFreeSlotUnderMouse pos (tokens g)) (-1)) as [E | _];
    [contradiction |].
  destruct (index slots _) as [s|]; [| discriminate H]. simpl in H.
  destruct (checkWin _ _ _) as [[|]|] eqn:Ew; simpl in H; [| | discriminate H].
  - injection H as <- _. exists true. simpl in Ew |- *. auto.
  - injection H as <- _. exists false. simpl in Ew.
    destruct (turn g) eqn:Et; simpl; rewrite ?Et;
      repeat (match goal with |- context [if ?c then _ else _] => destruct c end);
      simpl; rewrite ?Et; auto.
Qed.

(** A completed move: the turn passes to the other player whatever the win
    check says. *)
Lemma updateToken_arrival_turn (g g' : Game) (i : nat) (t : Token)
  (dt sp : Q) (wp : list Z) :
  tokens g !! i = Some t → moving t = true →
  slide (sprite_pos (sprite t)) (targetPos t) sp dt = None →
  updateToken slide g i dt sp wp = Some g' →
  turn g' = other (turn g)
  ∧ ∃ won, checkWin (tokens g') (owner t) wp = Some won
           ∧ (won = true → phase g' = Win).
Proof.
  unfold updateToken. intros Ht Hm Hs H. rewrite Ht in H. simpl in H.
  rewrite Hm, Hs in H. simpl in H.
  destruct (checkWin _ _ _) as [[|]|] eqn:Ew; simpl in H; [| | discriminate H];
    injection H as <-; simpl; (split; [reflexivity |]).
  - exists true. auto.
  - exists false. split; [exact Ew | discriminate].
Qed.

End Turns.

(** C2, the failing game. Player A's token slides from slot 7 to slot 6 and
    completes the column 0, 3, 6: on arrival [updateTokens] finds the win,
    sets the phase to Win, and switches the turn to Player B all the same. *)
Theorem move_win_switches_turn :
  reachable size50 arriveNow slidingToWin
  ∧ phase slidingToWin = Movement
  ∧ turn slidingToWin = A
  ∧ ∃ g', updateTokens arriveNow slidingToWin 1 speed winProducts = Some g'
          ∧ checkWin (tokens g') A winProducts = Some true
          ∧ phase g' = Win
          ∧ winner g' = Some A
          ∧ turn g' = B.
Proof.
  split.
  { apply stateAfter_reachable. vm_compute. eexists. reflexivity. }
  split; [vm_compute; reflexivity |]. split; [vm_compute; reflexivity |].
  eexists. split; [vm_compute; reflexivity |]. vm_compute. repeat split.
Qed.

(** ** Tokens in transit *)

(** C9, the failing game. With Player A to move, A selects the token on slot
    1 and clicks slot 2, then selects the token on slot 3 and clicks slot 6
    before the first token has arrived: both tokens are in transit, and it
    is still Player A's turn. *)
Theorem two_tokens_in_transit
  (slide : Vector2f → Vector2f → Q → Q → option Vector2f) :
  reachable size50 slide twoSlides
  ∧ phase twoSlides = Movement
  ∧ turn twoSlides = A
  ∧ map (fun t => (owner t, slotIndex t, nextSlotIndex t, moving t))
        (tokens twoSlides)
    = [ (A, 1, 2, true); (B, 0, -1, false); (A, 3, 6, true);
        (B, 4, -1, false); (A, 8, -1, false); (B, 7, -1, false) ]
  ∧ inTransit (tokens twoSlides) = 2%nat.
Proof.
  split.
  { apply stateAfter_reachable. vm_compute. eexists. reflexivity. }
  vm_compute. repeat split.
Qed.

(** ** Well-formed states and absence of undefined behaviour *)

Lemma winProduct_defined (ts : list Token) (player : Player) (acc : Z) :
  (∀ t, t ∈ ts → 0 <= slotIndex t <= 8) →
  is_Some (winProduct ts player acc).
Proof.
  revert acc. induction ts as [|t ts IH]; intros acc H; [eexists; reflexivity |].
  simpl. destruct (bool_decide (owner t = player) && negb (slotIndex t =? -1)).
  - destruct (index_slots_Some (slotIndex t)) as (sl & -> & _); [apply H; left |].
    simpl. apply IH. intros t' Ht'. apply H. right. exact Ht'.
  - apply IH. intros t' Ht'. apply H. right. exact Ht'.
Qed.

Lemma checkWin_defined (ts : list Token) (player : Player) :
  (∀ t, t ∈ ts → 0 <= slotIndex t <= 8) →
  is_Some (checkWin ts player winProducts).
Proof.
  intros H. unfold checkWin.
  destruct (winProduct_defined ts player 1 H) as [n ->]. cbn [mbind option_bind].
  destruct (anyDivides_spec n winProducts) as (b & -> & _); [| eexists; reflexivity].
  intros p. change winProducts with [897; 935; 3857; 6409; 231; 2185; 2717; 7337].
  rewrite !elem_of_cons, elem_of_nil. lia.
Qed.

Lemma Forall_insert_token (P : Token → Prop) (ts : list Token) (i : nat)
  (t' : Token) :
  (∀ t, t ∈ ts → P t) → P t' → ∀ t, t ∈ <[i := t']> ts → P t.
Proof.
  intros H Ht' t Ht. apply list_elem_of_lookup in Ht as [k Hk].
  destruct (decide (k = i)) as [-> | Nk].
  - destruct (decide (i < length ts)%nat) as [L | L].
    + rewrite list_lookup_insert_eq in Hk by exact L. injection Hk as <-. exact Ht'.
    + rewrite list_insert_ge in Hk by lia. apply H.
      apply list_elem_of_lookup. exists i. exact Hk.
  - rewrite list_lookup_insert_ne in Hk by congruence. apply H.
    apply list_elem_of_lookup. exists k. exact Hk.
Qed.

Section Defined.

Variable tokenSize : Player → Vector2f.
Variable slide : Vector2f → Vector2f → Q → Q → option Vector2f.

Lemma clickedToken_Some (i k : nat) (ts : list Token) (who : Player)
  (pos : Vector2f) :
  clickedToken tokenSize i ts who pos = Some k →
  (i <= k < i + length ts)%nat.
Proof.
  revert i. induction ts as [|t ts IH]; intros i H; [discriminate H |].
  simpl in H.
  destruct (bool_decide (owner t = who)
            && contains (getGlobalBounds tokenSize (sprite t)) pos).
  - injection H as <-. simpl. lia.
  - apply IH in H. simpl. lia.
Qed.

Lemma placementClick_wellFormed (g : Game) (pos : Vector2f) :
  wellFormed g → phase g = Placement →
  ∃ g' r, placementClick g pos winProducts = Some (g', r) ∧ wellFormed g'.
Proof.
  intros (Hts & Hsel & Hbtn) Hph. unfold placementClick.
  destruct (getFreeSlotUnderMouse_spec pos (tokens g))
    as [[-> _] | (s & Hr & Hs & _ & _)].
  { exists g, false. split; [reflexivity |]. exact (conj Hts (conj Hsel Hbtn)). }
  replace (getFreeSlotUnderMouse pos (tokens g) =? -1) with false by lia.
  rewrite Hs. cbn [mbind option_bind].
  set (t := placedToken (turn g) (getFreeSlotUnderMouse pos (tokens g)) s).
  assert (∀ t', t' ∈ tokens g ++ [t] → onBoard t') as Hts'.
  { intros t' Ht'. apply elem_of_app in Ht' as [Ht' | Ht']; [apply Hts; exact Ht' |].
    apply list_elem_of_singleton in Ht' as ->. split; [exact Hr | discriminate]. }
  assert (∀ j, selectedPtr g = Some j → (j < length (tokens g ++ [t]))%nat) as Hsel'.
  { intros j Hj. rewrite length_app. apply Hsel in Hj. lia. }
  destruct (checkWin_defined (tokens g ++ [t]) (turn g)) as [won Hwon].
  { intros t' Ht'. apply Hts'. exact Ht'. }
  cbn [tokens turn set_tokens set_currentPTI]. rewrite Hwon.
  cbn [mbind option_bind]. destruct won.
  - eexists _, _. split; [reflexivity |]. split; [exact Hts' |].
    split; [exact Hsel' |]. simpl. intros [E | E]; discriminate E.
  - eexists _, _. split; [reflexivity |].
    destruct (turn g); simpl;
      repeat (match goal with |- context [if ?c then _ else _] => destruct c end);
      (split; [exact Hts' |]; split; [exact Hsel' |]; simpl;
       intros _; apply Hbtn; left; exact Hph).
Qed.

Lemma deselect_wellFormed (g : Game) :
  wellFormed g →
  ∃ g', deselect g = Some g' ∧ wellFormed g'
        ∧ length (tokens g') = length (tokens g)
        ∧ phase g' = phase g
        ∧ startButtonBounds g' = startButtonBounds g.
Proof.
  intros (Hts & Hsel & Hbtn). unfold deselect.
  destruct (selectedPtr g) as [j|] eqn:Ej.
  - destruct (lookup_lt_is_Some_2 (tokens g) j (Hsel j eq_refl)) as [s Hs].
    rewrite Hs. simpl. eexists. split; [reflexivity |].
    split; [| split; [apply length_insert | split; reflexivity]].
    split; [| split].
    + simpl. apply Forall_insert_token; [exact Hts |].
      exact (Hts s (proj2 (list_elem_of_lookup _ _) (ex_intro _ j Hs))).
    + simpl. intros j' Hj'. rewrite length_insert. apply Hsel. congruence.
    + exact Hbtn.
  - exists g. split; [reflexivity |]. split; [| auto].
    split; [exact Hts | split; [| exact Hbtn]]. intros j Hj. congruence.
Qed.

Lemma movementClick_wellFormed (g : Game) (pos : Vector2f) :
  wellFormed g →
  ∃ g' r, movementClick tokenSize g pos = Some (g', r) ∧ wellFormed g'
          ∧ phase g' = phase g
          ∧ startButtonBounds g' = startButtonBounds g.
Proof.
  intros Hwf. unfold movementClick.
  destruct (clickedToken tokenSize 0 (tokens g) (turn g) pos) as [k|] eqn:Ek.
  - apply clickedToken_Some in Ek.
    destruct (deselect_wellFormed g Hwf)
      as (g1 & -> & (Hts1 & Hsel1 & Hbtn1) & Hlen & Hph & Hsbb).
    cbn [mbind option_bind].
    destruct (lookup_lt_is_Some_2 (tokens g1) k) as [t Ht]; [lia |].
    rewrite Ht. cbn [mbind option_bind]. eexists _, _. split; [reflexivity |].
    split; [| split].
    + split; [| split].
      * simpl. apply Forall_insert_token; [exact Hts1 |].
        exact (Hts1 t (proj2 (list_elem_of_lookup _ _) (ex_intro _ k Ht))).
      * simpl. intros j Hj. injection Hj as <-. rewrite length_insert. lia.
      * exact Hbtn1.
    + exact Hph.
    + exact Hsbb.
  - destruct Hwf as (Hts & Hsel & Hbtn).
    assert (wellFormed g) as Hwf by exact (conj Hts (conj Hsel Hbtn)).
    destruct (selectedPtr g) as [j|] eqn:Ej; [| exists g, false; auto].
    destruct (lookup_lt_is_Some_2 (tokens g) j (Hsel j eq_refl)) as [s Hs].
    rewrite Hs. cbn [mbind option_bind].
    destruct (moving s) eqn:Em; [exists g, false; auto |].
    destruct (getFreeSlotUnderMouse_spec pos (tokens g))
      as [[-> _] | (dest & Hr & Hd & _ & _)]; [exists g, false; auto |].
    replace (getFreeSlotUnderMouse pos (tokens g) =? -1) with false by lia.
    assert (onBoard s) as [Hs1 Hs2]
      by (apply Hts; apply list_elem_of_lookup; exists j; exact Hs).
    destruct (isAdjacent_defined (slotIndex s)
                (getFreeSlotUnderMouse pos (tokens g)) Hs1) as [[|] ->];
      cbn [mbind option_bind]; [| exists g, false; auto].
    rewrite Hd. cbn [mbind option_bind]. eexists _, _. split; [reflexivity |].
    split; [| split; reflexivity]. split; [| split].
    + simpl. apply Forall_insert_token; [exact Hts |]. split; simpl; auto.
    + simpl. intros j' Hj'. rewrite length_insert. apply Hsel. congruence.
    + exact Hbtn.
Qed.

Lemma resetGame_wellFormed (g : Game) : wellFormed (resetGame g).
Proof.
  unfold resetGame. split; [| split].
  - intros t Ht. destruct (bool_decide (phase g = Win)); inversion Ht.
  - intros j Hj. destruct (bool_decide (phase g = Win)); discriminate Hj.
  - destruct (bool_decide (phase g = Win)); simpl; [| reflexivity].
    intros [E | E]; discriminate E.
Qed.

(** From a well-formed state every event is handled without undefined
    behaviour, and the state stays well formed. *)
Lemma handleEvent_wellFormed (g : Game) (ev : Event) :
  wellFormed g →
  ∃ g' r, handleEvent tokenSize g ev winProducts = Some (g', r) ∧ wellFormed g'.
Proof.
  intros Hwf. pose proof Hwf as (Hts & Hsel & Hbtn).
  assert (∀ g', tokens g' = tokens g → selectedPtr g' = selectedPtr g →
                (phase g' = Placement ∨ phase g' = Movement →
                 startButtonBounds g' = resetButton) →
                wellFormed g') as Hsame.
  { intros g' Et Es Hb. split; [rewrite Et; exact Hts |].
    split; [rewrite Et, Es; exact Hsel | exact Hb]. }
  destruct ev as [| x y |].
  - eexists _, _. split; [reflexivity |]. apply Hsame; auto.
  - unfold handleEvent.
    repeat (match goal with
            | |- ∃ g' r, (if ?c then _ else _) = _ ∧ _ => destruct c eqn:?
            end).
    + eexists _, _. split; [reflexivity |]. apply Hsame; auto.
      simpl. intros [E | E]; discriminate E.
    + eexists _, _. split; [reflexivity |]. apply Hsame; auto.
    + eexists _, _. split; [reflexivity |]. apply resetGame_wellFormed.
    + eexists _, _. split; [reflexivity |]. apply Hsame; auto.
      simpl. intros [E | E]; discriminate E.
    + eexists _, _. split; [reflexivity |]. apply Hsame; auto.
      simpl. intros [E | E]; discriminate E.
    + eexists _, _. split; [reflexivity |]. apply Hsame; auto.
    + apply placementClick_wellFormed; [exact Hwf |].
      apply (bool_decide_eq_true_1 _). assumption.
    + destruct (movementClick_wellFormed g (fpair x y) Hwf)
        as (g' & r & E & Hwf' & _). exists g', r. auto.
    + exists g, false. auto.
  - exists g, false. auto.
Qed.

Lemma updateToken_wellFormed (g : Game) (i : nat) (dt sp : Q) :
  wellFormed g → (i < length (tokens g))%nat →
  ∃ g', updateToken slide g i dt sp winProducts = Some g' ∧ wellFormed g'
        ∧ length (tokens g') = length (tokens g).
Proof.
  intros Hwf Hi. pose proof Hwf as (Hts & Hsel & Hbtn). unfold updateToken.
  destruct (lookup_lt_is_Some_2 (tokens g) i Hi) as [t Ht]. rewrite Ht.
  cbn [mbind option_bind].
  assert (onBoard t) as [Ht1 Ht2]
    by exact (Hts t (proj2 (list_elem_of_lookup _ _) (ex_intro _ i Ht))).
  destruct (moving t) eqn:Em; [| exists g; auto].
  destruct (slide _ _ _ _) as [p|].
  - eexists. split; [reflexivity |]. split; [| apply length_insert].
    split; [| split]; simpl.
    + apply Forall_insert_token; [exact Hts |]. split; simpl; [exact Ht1 |].
      intros _. apply Ht2. reflexivity.
    + intros j Hj. rewrite length_insert. apply Hsel. exact Hj.
    + exact Hbtn.
  - assert (∀ t', t' ∈ <[i := completeMove t]> (tokens g) → onBoard t') as Hts'.
    { apply Forall_insert_token; [exact Hts |]. split; simpl; [| discriminate].
      apply Ht2. reflexivity. }
    destruct (checkWin_defined (<[i := completeMove t]> (tokens g)) (owner t))
      as [won Hwon].
    { intros t' Ht'. apply Hts'. exact Ht'. }
    cbn [tokens set_tokens]. rewrite Hwon. cbn [mbind option_bind].
    eexists. split; [reflexivity |].
    destruct won; simpl; (split; [| apply length_insert]);
      (split; [exact Hts' | split; [intros j Hj; discriminate Hj |]]); simpl.
    + intros [E | E]; discriminate E.
    + exact Hbtn.
Qed.

Lemma updateFrom_wellFormed (n i : nat) (g : Game) (dt sp : Q) :
  wellFormed g → (i + n = length (tokens g))%nat →
  ∃ g', updateFrom slide n i g dt sp winProducts = Some g' ∧ wellFormed g'.
Proof.
  revert i g. induction n as [|n IH]; intros i g Hwf Hlen.
  - exists g. auto.
  - simpl. destruct (updateToken_wellFormed g i dt sp Hwf) as (g1 & -> & Hwf1 & L);
      [lia |].
    cbn [mbind option_bind]. apply IH; [exact Hwf1 | lia].
Qed.

Lemma updateTokens_wellFormed (g : Game) (dt sp : Q) :
  wellFormed g →
  ∃ g', updateTokens slide g dt sp winProducts = Some g' ∧ wellFormed g'.
Proof. intros Hwf. apply updateFrom_wellFormed; [exact Hwf | lia]. Qed.

Lemma reachable_wellFormed (g : Game) :
  reachable tokenSize slide g → wellFormed g.
Proof.
  induction 1 as [| g ev g' r _ IH _ Hev | g dt g' _ IH Hup].
  - split; [| split].
    + intros t Ht. inversion Ht.
    + intros j Hj. discriminate Hj.
    + intros [E | E]; discriminate E.
  - destruct (handleEvent_wellFormed g ev IH) as (g1 & r1 & E & Hwf).
    rewrite E in Hev. injection Hev as <- _. exact Hwf.
  - destruct (updateTokens_wellFormed g dt speed IH) as (g1 & E & Hwf).
    rewrite E in Hup. injection Hup as <-. exact Hwf.
Qed.

(** In the states the program reaches, neither [handleEvents] nor
    [updateTokens] reads outside an array, follows a dangling selection
    pointer or divides by zero. *)
Lemma reachable_defined (g : Game) :
  reachable tokenSize slide g →
  (∀ ev, is_Some (handleEvent tokenSize g ev winProducts))
  ∧ (∀ dt, is_Some (updateTokens slide g dt speed winProducts)).
Proof.
  intros Hg. apply reachable_wellFormed in Hg. split.
  - intros ev. destruct (handleEvent_wellFormed g ev Hg) as (g' & r & E & _).
    rewrite E. eexists. reflexivity.
  - intros dt. destruct (updateTokens_wellFormed g dt speed Hg) as (g' & E & _).
    rewrite E. eexists. reflexivity.
Qed.

(** The states after whole frames of the loop of [main] are reachable. *)
Lemma handleEvents_reachable (queue queue' : list Event) (g g' : Game) :
  reachable tokenSize slide g →
  handleEvents tokenSize g queue winProducts = Some (g', queue') →
  reachable tokenSize slide g'.
Proof.
  revert g. induction queue as [|ev queue IH]; intros g Hg H.
  - injection H as <- _. exact Hg.
  - cbn [handleEvents] in H. destruct (windowOpen g) eqn:Ew;
      [| injection H as <- _; exact Hg].
    destruct (handleEvent tokenSize g ev winProducts) as [[g1 r]|] eqn:E;
      [| discriminate H].
    cbn [mbind option_bind] in H.
    pose proof (reach_event _ _ _ _ _ _ Hg Ew E) as Hg1.
    destruct r; [injection H as <- _; exact Hg1 | exact (IH _ Hg1 H)].
Qed.

Lemma frame_reachable (queue queue' : list Event) (dt : Q) (g g' : Game) :
  reachable tokenSize slide g →
  frame tokenSize slide g queue dt = Some (g', queue') →
  reachable tokenSize slide g'.
Proof.
  unfold frame. intros Hg H.
  destruct (handleEvents tokenSize g queue winProducts) as [[g1 q1]|] eqn:E;
    [| discriminate H].
  cbn [mbind option_bind] in H.
  destruct (updateTokens slide g1 dt speed winProducts) as [g2|] eqn:E2;
    [| discriminate H].
  cbn [mbind option_bind] in H. injection H as <- _.
  exact (reach_update _ _ _ _ _ (handleEvents_reachable _ _ _ _ Hg E) E2).
Qed.

(** In a reachable state the selection pointer is valid, as
    [movement_click_moves] supposes. *)
Lemma reachable_selectionValid (g : Game) :
  reachable tokenSize slide g → selectionValid g.
Proof.
  intros Hg. destruct (reachable_wellFormed g Hg) as (Hts & Hsel & _).
  intros j Hj. destruct (lookup_lt_is_Some_2 (tokens g) j (Hsel j Hj)) as [t Ht].
  exists t. split; [exact Ht |].
  exact (proj1 (Hts t (proj2 (list_elem_of_lookup _ _) (ex_intro _ j Ht)))).
Qed.

Lemma slotArea_off_resetButton (i : Z) (s : Slot) (pos : Vector2f) :
  index slots i = Some s → contains (slotArea s) pos = true →
  contains resetButton pos = false.
Proof.
  intros Hi Hc. apply index_lookup in Hi as [_ Hi].
  destruct (contains resetButton pos) eqn:E; [| reflexivity]. exfalso.
  apply slotArea_spec in Hc.
  apply contains_spec in E; [| unfold Qle; simpl; lia ..].
  simpl in E. revert Hc E.
  destruct (Z.to_nat i) as [|[|[|[|[|[|[|[|[|n]]]]]]]]]; simpl in Hi;
    try discriminate Hi; injection Hi as <-; simpl;
    change (inject_Z 50) with 50%Q; change (inject_Z 300) with 300%Q;
    change (inject_Z 550) with 550%Q; change (inject_Z 340) with 340%Q;
    change (inject_Z 620) with 620%Q; change (inject_Z 240) with 240%Q;
    change (inject_Z 80) with 80%Q; intros; lra.
Qed.

(** In the states the program reaches a click over a slot is never on the
    reset button: a placement on a taken slot is ignored with nothing
    supposed of [startButtonBounds]. *)
Lemma placement_on_taken_slot_ignored_reachable (g : Game) (x y : Z)
  (i : Z) (s : Slot) :
  reachable tokenSize slide g →
  phase g = Placement →
  index slots i = Some s →
  contains (slotArea s) (fpair x y) = true →
  taken i (tokens g) →
  handleEvent tokenSize g (MouseLeft x y) winProducts = Some (g, false).
Proof.
  intros Hg Hph Hi Hc Ht.
  destruct (reachable_wellFormed g Hg) as (_ & _ & Hbtn).
  unfold handleEvent. rewrite Hph, Hbtn by (left; exact Hph).
  rewrite (slotArea_off_resetButton i s _ Hi Hc). simpl.
  exact (placementClick_on_taken g _ winProducts i s Hi Hc Ht).
Qed.

End Defined.

(** ** Placement counts, and the win test in the states of a game *)

Section Counting.

Variable tokenSize : Player → Vector2f.
Variable slide : Vector2f → Vector2f → Q → Q → option Vector2f.

Lemma placementClick_counted (g g' : Game) (pos : Vector2f) (wp : list Z)
  (r : bool) :
  placementClick g pos wp = Some (g', r) →
  counted g → phase g = Placement → counted g'.
Proof.
  unfold placementClick. intros H (Hlen & Hpre & Hpl) Hph.
  destruct (Hpl Hph) as (Hstill & Hsum & HB & Hturn).
  destruct (Z.eqb_spec (getFreeSlotUnderMouse pos (tokens g)) (-1)) as [E | E].
  { injection H as <- _. exact (conj Hlen (conj Hpre Hpl)). }
  destruct (index slots _) as [s|]; [| discriminate H].
  cbn [mbind option_bind] in H.
  destruct (checkWin _ _ _) as [[|]|]; cbn [mbind option_bind] in H;
    [| | discriminate H]; injection H as <- _.
  - split; [| split]; simpl.
    + rewrite length_app. simpl. lia.
    + intros [E' | [E' | E']]; discriminate E'.
    + intros E'. discriminate E'.
  - assert (∀ t, t ∈ tokens g
                      ++ [placedToken (turn g)
                            (getFreeSlotUnderMouse pos (tokens g)) s] →
                 moving t = false) as Hstill'.
    { intros t Ht. apply elem_of_app in Ht as [Ht | Ht]; [apply Hstill; exact Ht |].
      apply list_elem_of_singleton in Ht as ->. reflexivity. }
    destruct Hturn as [[Ht HA] | [Ht HA]]; rewrite Ht; simpl;
      rewrite wrap32_small by (unfold INT_MIN, INT_MAX; lia).
    + replace (placedB g =? 3) with false by lia. rewrite andb_false_r.
      split; [| split]; simpl.
      * rewrite length_app. simpl. lia.
      * rewrite Hph. intros [E' | [E' | E']]; discriminate E'.
      * intros _. rewrite Ht in Hstill'. split; [exact Hstill' |].
        rewrite length_app. simpl. split; [lia |]. split; [lia |]. right. split; [rewrite ?Ht; reflexivity | lia].
    + destruct ((placedA g =? 3) && (placedB g + 1 =? 3)) eqn:E3.
      * split; [| split]; simpl.
        -- rewrite length_app. simpl. lia.
        -- intros [E' | [E' | E']]; discriminate E'.
        -- intros E'. discriminate E'.
      * split; [| split]; simpl.
        -- rewrite length_app. simpl. lia.
        -- rewrite Hph. intros [E' | [E' | E']]; discriminate E'.
        -- intros _. rewrite Ht in Hstill'. split; [exact Hstill' |].
           rewrite length_app. simpl. split; [lia |].
           apply andb_false_iff in E3. split; [lia |]. left. split; [rewrite ?Ht; reflexivity | lia].
Qed.

Lemma movementClick_counted (g g' : Game) (pos : Vector2f) (r : bool) :
  movementClick tokenSize g pos = Some (g', r) →
  counted g → phase g = Movement → counted g'.
Proof.
  intros H (Hlen & _ & _) Hph.
  assert (length (tokens g') = length (tokens g) ∧ phase g' = Movement) as [L P].
  { revert H. unfold movementClick.
    destruct (clickedToken tokenSize 0 (tokens g) (turn g) pos) as [k|].
    - unfold deselect. destruct (selectedPtr g) as [j|].
      + destruct (tokens g !! j) as [s|]; [| discriminate].
        cbn [mbind option_bind tokens set_tokens].
        destruct (_ !! k) as [t|]; [| discriminate].
        cbn [mbind option_bind]. intros H. injection H as <- _. simpl.
        rewrite !length_insert. auto.
      + cbn [mbind option_bind]. destruct (_ !! k) as [t|]; [| discriminate].
        cbn [mbind option_bind]. intros H. injection H as <- _. simpl.
        rewrite !length_insert. auto.
    - destruct (selectedPtr g) as [j|]; [| intros H; injection H as <- _; auto].
      destruct (tokens g !! j) as [s|]; [| discriminate].
      cbn [mbind option_bind].
      destruct (moving s); [intros H; injection H as <- _; auto |].
      destruct (_ =? -1); [intros H; injection H as <- _; auto |].
      destruct (isAdjacent _ _) as [[|]|]; cbn [mbind option_bind];
        [| intros H; injection H as <- _; auto | discriminate].
      destruct (index slots _) as [dest|]; [| discriminate].
      cbn [mbind option_bind]. intros H. injection H as <- _. simpl.
      rewrite length_insert. auto. }
  split; [lia |]. rewrite P. split.
  - intros [E | [E | E]]; discriminate E.
  - intros E. discriminate E.
Qed.

Lemma handleEvent_counted (g g' : Game) (ev : Event) (wp : list Z) (r : bool) :
  handleEvent tokenSize g ev wp = Some (g', r) → counted g → counted g'.
Proof.
  intros H Hc. pose proof Hc as (Hlen & Hpre & Hpl).
  assert (counted (resetGame g)) as Hreset.
  { unfold resetGame. destruct (bool_decide (phase g = Win)); simpl.
    - split; [simpl; lia |]. split; [auto |]. intros E. discriminate E.
    - split; [simpl; lia |]. split.
      + intros [E | [E | E]]; discriminate E.
      + intros _. split; [intros t Ht; inversion Ht |]. simpl.
        split; [lia |]. split; [lia |]. left. auto. }
  destruct ev as [| x y |]; [injection H as <- _; exact Hc | |
                             injection H as <- _; exact Hc].
  unfold handleEvent in H.
  repeat (match type of H with
          | (if ?c then _ else _) = _ => destruct c eqn:?
          end).
  - injection H as <- _. split; [exact Hlen |]. simpl. split.
    + intros _. apply Hpre.
      apply andb_true_iff in Heqb as [Heqb _]. apply orb_true_iff in Heqb.
      destruct Heqb as [E | E]; apply (bool_decide_eq_true_1 _) in E; auto.
    + intros E. discriminate E.
  - injection H as <- _. apply andb_true_iff in Heqb0 as [E _].
    apply (bool_decide_eq_true_1 _) in E.
    destruct (Hpre (or_introl E)) as (Ht & HA & HB & HT).
    split; [exact Hlen |]. simpl. split.
    + intros [E' | [E' | E']]; discriminate E'.
    + intros _. rewrite Ht, HA, HB, HT. split; [intros t Hin; inversion Hin |].
      simpl. split; [lia |]. split; [lia |]. left. auto.
  - injection H as <- _. exact Hreset.
  - injection H as <- _. apply andb_true_iff in Heqb2 as [E _].
    apply (bool_decide_eq_true_1 _) in E.
    split; [exact Hlen |]. simpl. split.
    + intros _. apply Hpre. auto.
    + intros E'. discriminate E'.
  - injection H as <- _. apply andb_true_iff in Heqb3 as [E _].
    apply (bool_decide_eq_true_1 _) in E.
    split; [exact Hlen |]. simpl. split.
    + intros _. apply Hpre. auto.
    + intros E'. discriminate E'.
  - injection H as <- _. exact Hc.
  - apply (bool_decide_eq_true_1 _) in Heqb5.
    exact (placementClick_counted _ _ _ _ _ H Hc Heqb5).
  - apply (bool_decide_eq_true_1 _) in Heqb6.
    exact (movementClick_counted _ _ _ _ H Hc Heqb6).
  - injection H as <- _. exact Hc.
Qed.

Lemma updateToken_counted (g g' : Game) (i : nat) (dt sp : Q) (wp : list Z) :
  updateToken slide g i dt sp wp = Some g' → counted g → counted g'.
Proof.
  unfold updateToken. intros H Hc. pose proof Hc as (Hlen & Hpre & Hpl).
  destruct (tokens g !! i) as [t|] eqn:Et; [| discriminate H].
  cbn [mbind option_bind] in H.
  destruct (moving t) eqn:Em; [| injection H as <-; exact Hc].
  assert (phase g ≠ Placement ∧ tokens g ≠ []) as [Hnp Hne].
  { split.
    - intros E. destruct (Hpl E) as (Hstill & _).
      rewrite (Hstill t) in Em; [discriminate Em |].
      apply list_elem_of_lookup. exists i. exact Et.
    - intros E. rewrite E in Et. inversion Et. }
  assert (¬ (phase g = Start ∨ phase g = About ∨ phase g = Instructions)) as Hns.
  { intros E. apply Hne. apply Hpre. exact E. }
  destruct (slide _ _ _ _) as [p|].
  - injection H as <-. split; [simpl; rewrite length_insert; exact Hlen |].
    simpl. split; [intros E; tauto | intros E; tauto].
  - cbn [mbind option_bind] in H.
    destruct (checkWin _ _ _) as [[|]|]; cbn [mbind option_bind] in H;
      [| | discriminate H]; injection H as <-;
      (split; [simpl; rewrite length_insert; exact Hlen |]); simpl.
    + split; [intros [E | [E | E]]; discriminate E | intros E; discriminate E].
    + split; [intros E; tauto | intros E; tauto].
Qed.

Lemma updateFrom_counted (n i : nat) (g g' : Game) (dt sp : Q) (wp : list Z) :
  updateFrom slide n i g dt sp wp = Some g' → counted g → counted g'.
Proof.
  revert i g. induction n as [|n IH]; intros i g H Hc.
  - injection H as <-. exact Hc.
  - simpl in H. destruct (updateToken slide g i dt sp wp) as [g1|] eqn:E;
      [| discriminate H].
    cbn [mbind option_bind] in H. apply (IH _ _ H).
    exact (updateToken_counted _ _ _ _ _ _ E Hc).
Qed.

Lemma reachable_counted (g : Game) :
  reachable tokenSize slide g → counted g.
Proof.
  induction 1 as [| g ev g' r _ IH _ Hev | g dt g' _ IH Hup].
  - split; [simpl; lia |]. split; [auto |]. intros E. discriminate E.
  - exact (handleEvent_counted _ _ _ _ _ Hev IH).
  - exact (updateFrom_counted _ _ _ _ _ _ _ Hup IH).
Qed.

End Counting.

Lemma occupiedSlots_sublist (ts : list Token) (player : Player) :
  occupiedSlots ts player `sublist_of` map slotIndex ts.
Proof.
  induction ts as [|t ts IH]; [constructor |].
  rewrite occupiedSlots_cons. simpl.
  destruct (bool_decide (owner t = player) && negb (slotIndex t =? -1)).
  - apply sublist_skip. exact IH.
  - apply sublist_cons. exact IH.
Qed.

(** Tokens on distinct slots: a player's slots are listed without
    repetition. *)
Lemma oneTokenPerSlot_NoDup (ts : list Token) (player : Player) :
  oneTokenPerSlot ts → NoDup (occupiedSlots ts player).
Proof.
  intros Hinv. apply (sublist_NoDup _ (map slotIndex ts));
    [| apply occupiedSlots_sublist].
  apply NoDup_alt. intros i j s Hi Hj.
  change (map slotIndex ts) with (slotIndex <$> ts) in Hi, Hj.
  rewrite list_lookup_fmap in Hi, Hj.
  destruct (ts !! i) as [ti|] eqn:Ei; [| discriminate Hi].
  destruct (ts !! j) as [tj|] eqn:Ej; [| discriminate Hj].
  injection Hi as Hi. injection Hj as Hj.
  apply (Hinv i j ti tj s Ei Ej); left; assumption.
Qed.

Section WinInGame.

Variable tokenSize : Player → Vector2f.
Variable slide : Vector2f → Vector2f → Q → Q → option Vector2f.

(** In every state the program reaches, and for either player, the verdict
    of [checkWin] is the containment of a winning triple: a game never has
    more than 6 tokens, each on a slot of its own. *)
Lemma checkWin_reachable (g : Game) (player : Player) :
  reachable tokenSize slide g →
  ∃ b, checkWin (tokens g) player winProducts = Some b
       ∧ (b = true ↔
          ∃ c, c ∈ winCombos ∧ holdsLine (occupiedSlots (tokens g) player) c).
Proof.
  intros Hg.
  assert (oneTokenPerSlot (tokens g)) as Hone.
  { clear player. induction Hg as [| g ev g' r _ IH _ Hev | g dt g' _ IH Hup].
    - intros i j ti tj s Hi. inversion Hi.
    - exact (handleEvent_oneTokenPerSlot _ _ _ _ _ _ Hev IH).
    - exact (updateFrom_oneTokenPerSlot _ _ _ _ _ _ _ _ Hup IH). }
  destruct (reachable_wellFormed tokenSize slide g Hg) as (Hts & _ & _).
  destruct (reachable_counted tokenSize slide g Hg) as (Hlen & _ & _).
  pose proof (occupiedSlots_sublist (tokens g) player) as Hsub.
  assert (∀ s, s ∈ occupiedSlots (tokens g) player → 0 <= s <= 8) as Hr.
  { intros s Hs. pose proof (elem_of_sublist _ _ _ Hs Hsub) as Hs'. clear Hs. rename Hs' into Hs.
    apply list_elem_of_fmap in Hs as (t & -> & Ht). apply Hts. exact Ht. }
  apply checkWin_exact; [exact Hr |].
  apply primeProduct_bound; [exact Hr | |].
  - apply oneTokenPerSlot_NoDup. exact Hone.
  - apply sublist_length in Hsub. rewrite length_map in Hsub. lia.
Qed.

End WinInGame.

(** ** The scenarios of the specification, played on the model *)

(** Scenario 1: A on 0, B on 1, A on 3, B on 4, A on 6: the fifth placement
    wins for A at once. *)
Example scenario_placement_win :
  phase wonByPlacement = Win
  ∧ winner wonByPlacement = Some A
  ∧ turn wonByPlacement = A
  ∧ winProduct (tokens wonByPlacement) A 1 = Some 6409
  ∧ logged wonByPlacement
    = ["Game started."; "Game started."; "Player A wins!"]%string.
Proof. vm_compute. repeat split. Qed.

(** Scenario 2: A on 0, 1, 5 and B on 2, 3, 4, no line: Movement phase after
    the sixth placement, Player A to move. *)
Example scenario_six_placements :
  let g := stateAfter (game [0; 2; 1; 3; 5; 4]) in
  phase g = Movement ∧ turn g = A ∧ placedA g = 3 ∧ placedB g = 3
  ∧ currentPTI g = pamt.
Proof. vm_compute. repeat split. Qed.

(** Scenario 3: the token on the centre is selected and sent to the free
    slot 1. Until it arrives it still stands on slot 4, and slot 1 is taken;
    on arrival it stands on slot 1, slot 4 is free, and the turn passes. *)
Example scenario_slide :
  let g := stateAfter (game [4; 8; 0; 2; 5; 3] ++ [slotCentre 4; slotCentre 1]) in
  brief g = [ (A, 4, 1, true); (B, 8, -1, false); (A, 0, -1, false);
              (B, 2, -1, false); (A, 5, -1, false); (B, 3, -1, false) ]
  ∧ turn g = A
  ∧ getFreeSlotUnderMouse (fpair 300 50) (tokens g) = -1
  ∧ getFreeSlotUnderMouse (fpair 300 300) (tokens g) = -1
  ∧ ∃ g', updateTokens arriveNow g 1 speed winProducts = Some g'
          ∧ brief g' = [ (A, 1, -1, false); (B, 8, -1, false); (A, 0, -1, false);
                         (B, 2, -1, false); (A, 5, -1, false); (B, 3, -1, false) ]
          ∧ getFreeSlotUnderMouse (fpair 300 300) (tokens g') = 4
          ∧ phase g' = Movement
          ∧ turn g' = B.
Proof.
  cbv zeta. split; [vm_compute; reflexivity |]. split; [vm_compute; reflexivity |].
  split; [vm_compute; reflexivity |]. split; [vm_compute; reflexivity |].
  eexists. split; [vm_compute; reflexivity |]. vm_compute. repeat split.
Qed.

(** Scenario 4: the token on slot 0 is selected; a click on slot 8, free but
    not adjacent, changes nothing. *)
Example scenario_not_adjacent :
  let g := stateAfter (game [0; 2; 1; 3; 5; 4] ++ [slotCentre 0]) in
  selectedPtr g = Some 0%nat
  ∧ getFreeSlotUnderMouse (fpair 550 550) (tokens g) = 8
  ∧ isAdjacent 0 8 = Some false
  ∧ handleEvent size50 g (MouseLeft 550 550) winProducts = Some (g, false).
Proof. vm_compute. repeat split. Qed.

(** * Further properties of the rule engine *)

(** ** Adjacency and the winning lines *)

Ltac in_list := simpl; repeat (first [left; reflexivity | right]).

Ltac on_some_line :=
  unfold nextOnLine;
  first [ exists 0, 1, 2; split; [apply list_elem_of_In; in_list | lia]
        | exists 3, 4, 5; split; [apply list_elem_of_In; in_list | lia]
        | exists 6, 7, 8; split; [apply list_elem_of_In; in_list | lia]
        | exists 0, 3, 6; split; [apply list_elem_of_In; in_list | lia]
        | exists 1, 4, 7; split; [apply list_elem_of_In; in_list | lia]
        | exists 2, 5, 8; split; [apply list_elem_of_In; in_list | lia]
        | exists 0, 4, 8; split; [apply list_elem_of_In; in_list | lia]
        | exists 2, 4, 6; split; [apply list_elem_of_In; in_list | lia] ].

Lemma isAdjacent_Some_true (a b : Z) :
  isAdjacent a b = Some true ↔ ∃ ns, index adjacent a = Some ns ∧ b ∈ ns.
Proof.
  unfold isAdjacent. destruct (index adjacent a) as [ns|]; simpl.
  - split.
    + intros H. injection H as H. apply existsb_exists in H as (n & Hin & Hn).
      exists ns. split; [reflexivity |]. apply Z.eqb_eq in Hn. subst n.
      apply list_elem_of_In. exact Hin.
    + intros (ns' & E & Hb). injection E as <-. f_equal.
      apply existsb_exists. exists b. split; [apply list_elem_of_In; exact Hb |].
      apply Z.eqb_refl.
  - split; [discriminate |]. intros (ns & E & _). discriminate E.
Qed.

(** X1. [isAdjacent a b] reads outside its table exactly when [a] is not a
    slot of the board; otherwise it answers true exactly when [a] and [b]
    are next to each other on one of the 8 winning lines (so never for
    [b = a], nor for a [b] outside the board): a token slides along the
    lines that win the game. *)
Theorem isAdjacent_along_lines (a b : Z) :
  (isAdjacent a b = None ↔ ¬ 0 <= a <= 8)
  ∧ (isAdjacent a b = Some true ↔ nextOnLine a b).
Proof.
  destruct (decide (0 <= a <= 8)) as [Ha | Ha].
  - split.
    + split; [| tauto]. intros H.
      destruct (isAdjacent_defined a b Ha) as [r Hr]. congruence.
    + split.
      * intros H. apply isAdjacent_Some_true in H as (ns & Hns & Hb).
        each_slot a Ha; vm_compute in Hns; injection Hns as <-;
          rewrite !elem_of_cons, elem_of_nil in Hb;
          repeat (destruct Hb as [-> | Hb]; [on_some_line |]);
          contradiction.
      * intros (c0 & c1 & c2 & Hc & H). unfold winCombos in Hc.
        rewrite !elem_of_cons, elem_of_nil in Hc.
        repeat (destruct Hc as [Hc | Hc];
                [injection Hc as -> -> ->;
                 repeat (destruct H as [[-> ->] | H]; [reflexivity |]);
                 destruct H as [-> ->]; reflexivity |]).
        contradiction.
  - split.
    + split; [tauto |]. intros _. unfold isAdjacent, index.
      destruct (Z.leb_spec 0 a); [| reflexivity].
      rewrite (lookup_ge_None_2 adjacent (Z.to_nat a)); [reflexivity |].
      simpl. lia.
    + split.
      * intros H. exfalso. unfold isAdjacent, index in H.
        destruct (Z.leb_spec 0 a); [| discriminate H].
        rewrite (lookup_ge_None_2 adjacent (Z.to_nat a)) in H by (simpl; lia).
        discriminate H.
      * intros (c0 & c1 & c2 & Hc & H). exfalso.
        pose proof (winCombos_range _ Hc) as Hr. simpl in Hr. lia.
Qed.

(** ** The slot under the mouse *)

(** X2. [getFreeSlotUnderMouse] returns [-1] exactly when every slot whose
    area is under the mouse is taken (by a token standing on it or sliding
    to it), and returns a slot [i] of the board exactly when the area of [i]
    is under the mouse and [i] is not taken. *)
Theorem getFreeSlotUnderMouse_exact (pos : Vector2f) (ts : list Token) :
  (getFreeSlotUnderMouse pos ts = -1
   ↔ ∀ i s, index slots i = Some s → contains (slotArea s) pos = true →
            taken i ts)
  ∧ (∀ i s, index slots i = Some s →
            (getFreeSlotUnderMouse pos ts = i
             ↔ contains (slotArea s) pos = true ∧ ¬ taken i ts)).
Proof.
  split.
  - split.
    + intros E i s Hi Hc.
      destruct (getFreeSlotUnderMouse_spec pos ts)
        as [[_ Hall] | (s' & Hr & _)]; [| lia].
      exact (Hall i s Hi Hc).
    + intros Hall.
      destruct (getFreeSlotUnderMouse_spec pos ts)
        as [[Hr _] | (s' & _ & Hi & Hfree & Hc)]; [exact Hr |].
      destruct (Hfree (Hall _ s' Hi Hc)).
  - intros i s Hi. split.
    + intros E.
      destruct (getFreeSlotUnderMouse_spec pos ts)
        as [[Hr _] | (s' & _ & Hi' & Hfree & Hc)].
      * apply index_lookup in Hi as [Hi0 _]. lia.
      * rewrite E in Hi', Hfree. rewrite Hi in Hi'. injection Hi' as <-. auto.
    + intros [Hc Hfree]. exact (getFreeSlotUnderMouse_free pos ts i s Hi Hc Hfree).
Qed.

(** ** The win test *)

Lemma wrap32_mul_l (x y : Z) : wrap32 (wrap32 x * y) = wrap32 (x * y).
Proof.
  unfold wrap32. f_equal.
  rewrite (Z.mod_eq (x + 2 ^ 31) (2 ^ 32)) by lia.
  replace ((x + 2 ^ 31 - 2 ^ 32 * ((x + 2 ^ 31) / 2 ^ 32) - 2 ^ 31) * y + 2 ^ 31)
    with (x * y + 2 ^ 31 + (- ((x + 2 ^ 31) / 2 ^ 32) * y) * 2 ^ 32) by ring.
  apply Z.mod_add. lia.
Qed.

Lemma winProduct_swap (t1 t2 : Token) (ts : list Token) (player : Player)
  (acc : Z) :
  winProduct (t1 :: t2 :: ts) player acc = winProduct (t2 :: t1 :: ts) player acc.
Proof.
  simpl.
  destruct (bool_decide (owner t1 = player) && negb (slotIndex t1 =? -1));
    destruct (bool_decide (owner t2 = player) && negb (slotIndex t2 =? -1));
    try reflexivity.
  destruct (index slots (slotIndex t1)) as [s1|];
    destruct (index slots (slotIndex t2)) as [s2|]; simpl; try reflexivity.
  rewrite !wrap32_mul_l. do 2 f_equal. ring.
Qed.

Lemma winProduct_perm (ts ts' : list Token) (player : Player) :
  ts ≡ₚ ts' → ∀ acc, winProduct ts player acc = winProduct ts' player acc.
Proof.
  induction 1 as [| t ts ts' _ IH | t1 t2 ts | ts ts' ts'' _ IH1 _ IH2];
    intros acc.
  - reflexivity.
  - simpl. destruct (bool_decide (owner t = player) && negb (slotIndex t =? -1)).
    + destruct (index slots (slotIndex t)); [simpl; apply IH | reflexivity].
    + apply IH.
  - symmetry. apply winProduct_swap.
  - rewrite IH1. apply IH2.
Qed.

(** X3. The verdict of [checkWin] does not depend on the order of the tokens
    in the vector, overflow or not: the 32-bit product is the same whatever
    the order of the multiplications. *)
Theorem checkWin_order (ts ts' : list Token) (player : Player) (wp : list Z) :
  ts ≡ₚ ts' → checkWin ts player wp = checkWin ts' player wp.
Proof.
  intros Hp. unfold checkWin. rewrite (winProduct_perm ts ts' player Hp 1).
  reflexivity.
Qed.

Lemma checkWin_order_witness :
  let ts := map (standing A) allSlots in
  ts ≡ₚ reverse ts
  ∧ checkWin ts A winProducts = checkWin (reverse ts) A winProducts.
Proof.
  intros ts.
  assert (ts ≡ₚ reverse ts) as Hp by (symmetry; apply reverse_Permutation).
  split; [exact Hp |].
  exact (checkWin_order ts (reverse ts) A winProducts Hp).
Defined.

Lemma slotPrime_le (s : Z) : 0 <= s <= 8 → slotPrime s <= 29.
Proof. intros H. each_slot s H; vm_compute; discriminate. Qed.

(** X4. A player with tokens on fewer than three slots never wins: with at
    most two tokens of [player] standing on the board, [checkWin] returns
    false (in particular for a player with no token at all). *)
Theorem checkWin_needs_three (ts : list Token) (player : Player) :
  (∀ s, s ∈ occupiedSlots ts player → 0 <= s <= 8) →
  (length (occupiedSlots ts player) <= 2)%nat →
  checkWin ts player winProducts = Some false.
Proof.
  intros Hr Hlen.
  assert (primeProduct (occupiedSlots ts player) <= INT_MAX) as Hb.
  { unfold INT_MAX. destruct (occupiedSlots ts player) as [|x [|y [|z l]]];
      simpl in Hlen |- *; try lia.
    - pose proof (slotPrime_le x (Hr x ltac:(left))).
      pose proof (slotPrime_ge x). lia.
    - pose proof (slotPrime_le x (Hr x ltac:(left))).
      pose proof (slotPrime_le y (Hr y ltac:(right; left))).
      pose proof (slotPrime_ge x). pose proof (slotPrime_ge y). nia. }
  destruct (checkWin_exact ts player Hr Hb) as ([|] & Hc & Hiff); [| exact Hc].
  exfalso. destruct (proj1 Hiff eq_refl) as (c & Hc' & Hl).
  unfold winCombos in Hc'. rewrite !elem_of_cons, elem_of_nil in Hc'.
  destruct (occupiedSlots ts player) as [|x [|y [|z l]]]; simpl in Hlen; try lia;
    repeat (destruct Hc' as [-> | Hc'];
            [simpl in Hl; rewrite ?elem_of_cons, ?elem_of_nil in Hl; lia |]);
    contradiction.
Qed.

Lemma checkWin_needs_three_witness :
  let ts := [standing A 0; standing B 4; standing A 3; standing B 6] in
  (∀ s, s ∈ occupiedSlots ts A → 0 <= s <= 8)
  ∧ (length (occupiedSlots ts A) <= 2)%nat
  ∧ checkWin ts A winProducts = Some false.
Proof.
  intros ts.
  assert (∀ s, s ∈ occupiedSlots ts A → 0 <= s <= 8) as Hr.
  { intros s. change (occupiedSlots ts A) with [0; 3].
    rewrite !elem_of_cons, elem_of_nil. lia. }
  assert (length (occupiedSlots ts A) <= 2)%nat as Hlen by (simpl; lia).
  split; [exact Hr | split; [exact Hlen |]].
  exact (checkWin_needs_three ts A Hr Hlen).
Defined.

(** ** Frames *)

Lemma set_tokens_same (g : Game) : set_tokens (tokens g) g = g.
Proof. destruct g. reflexivity. Qed.

Section Frames.

Variable slide : Vector2f → Vector2f → Q → Q → option Vector2f.

(** One iteration of the loop of [updateTokens], read off the token it
    handles. *)
Lemma updateToken_step (g g' : Game) (i : nat) (dt sp : Q) (wp : list Z) :
  updateToken slide g i dt sp wp = Some g' →
  ∃ t, tokens g !! i = Some t
       ∧ tokens g' = <[i := stepToken slide dt sp t]> (tokens g)
       ∧ if arrives slide dt sp t
         then turn g' = other (turn g) ∧ selectedPtr g' = None
              ∧ (phase g' = phase g ∨ phase g' = Win)
         else g' = set_tokens (tokens g') g.
Proof.
  unfold updateToken, stepToken, arrives. intros H.
  destruct (tokens g !! i) as [t|] eqn:Et; [| discriminate H].
  cbn [mbind option_bind] in H. exists t. split; [reflexivity |].
  destruct (moving t) eqn:Em; simpl.
  - destruct (slide _ _ _ _) as [p|].
    + injection H as <-. simpl. split; reflexivity.
    + cbn [mbind option_bind] in H.
      destruct (checkWin _ _ _) as [[|]|]; cbn [mbind option_bind] in H;
        [| | discriminate H]; injection H as <-; simpl; auto.
  - injection H as <-. rewrite list_insert_id by exact Et.
    split; [reflexivity |]. symmetry. apply set_tokens_same.
Qed.

Lemma arrivals_cons (dt sp : Q) (t : Token) (ts : list Token) :
  arrivals slide dt sp (t :: ts)
  = ((if arrives slide dt sp t then 1 else 0) + arrivals slide dt sp ts)%nat.
Proof. unfold arrivals. simpl. destruct (arrives slide dt sp t); reflexivity. Qed.

Lemma other_iter_swap (n : nat) (p : Player) :
  Nat.iter n other (other p) = other (Nat.iter n other p).
Proof. induction n as [|n IH]; simpl; [reflexivity | rewrite IH; reflexivity]. Qed.

(** The loop of [updateTokens] from index [i] over [n] tokens. *)
Lemma updateFrom_spec (n i : nat) (g g' : Game) (dt sp : Q) (wp : list Z) :
  updateFrom slide n i g dt sp wp = Some g' →
  length (tokens g') = length (tokens g)
  ∧ (∀ k, tokens g' !! k
          = if decide (i <= k < i + n)%nat
            then stepToken slide dt sp <$> tokens g !! k
            else tokens g !! k)
  ∧ turn g'
    = Nat.iter (arrivals slide dt sp (take n (drop i (tokens g)))) other (turn g)
  ∧ (phase g' = phase g ∨ phase g' = Win)
  ∧ if (arrivals slide dt sp (take n (drop i (tokens g))) =? 0)%nat
    then g' = set_tokens (tokens g') g
    else selectedPtr g' = None.
Proof.
  revert i g. induction n as [|n IH]; intros i g H.
  - injection H as <-. split; [reflexivity |].
    split; [intros k; destruct (decide _); [lia | reflexivity] |].
    rewrite take_0. simpl. split; [reflexivity |]. split; [auto |].
    symmetry. apply set_tokens_same.
  - simpl in H. destruct (updateToken slide g i dt sp wp) as [g1|] eqn:E1;
      [| discriminate H].
    cbn [mbind option_bind] in H.
    destruct (updateToken_step _ _ _ _ _ _ E1) as (t & Et & Hts1 & Hrest).
    destruct (IH _ _ H) as (HL & Hk & Hturn & Hph & Hsel).
    assert (length (tokens g1) = length (tokens g)) as L1
      by (rewrite Hts1; apply length_insert).
    assert (i < length (tokens g))%nat as Hi by (eapply lookup_lt_Some; exact Et).
    assert (drop (S i) (tokens g1) = drop (S i) (tokens g)) as Hdrop
      by (rewrite Hts1; apply drop_insert_lt; lia).
    rewrite (drop_S _ _ _ Et). rewrite firstn_cons, arrivals_cons.
    rewrite Hdrop in Hturn, Hsel.
    split; [lia |]. split; [| split; [| split]].
    + intros k. rewrite Hk, Hts1.
      destruct (decide (S i <= k < S i + n)%nat) as [D | D];
        destruct (decide (i <= k < i + S n)%nat) as [D' | D']; try lia.
      * rewrite list_lookup_insert_ne by lia. reflexivity.
      * assert (k = i) as -> by lia.
        rewrite list_lookup_insert_eq by exact Hi. rewrite Et. reflexivity.
      * rewrite list_lookup_insert_ne by lia. reflexivity.
    + rewrite Hturn. destruct (arrives slide dt sp t).
      * destruct Hrest as (-> & _). simpl. apply other_iter_swap.
      * rewrite Hrest. reflexivity.
    + destruct (arrives slide dt sp t).
      * destruct Hrest as (_ & _ & [P | P]); destruct Hph as [P' | P'];
          rewrite ?P' , ?P; auto.
      * rewrite Hrest in Hph. exact Hph.
    + destruct (arrives slide dt sp t).
      * simpl. destruct Hrest as (_ & Hnone & _).
        destruct (arrivals slide dt sp (take n (drop (S i) (tokens g))) =? 0)%nat;
          [rewrite Hsel; exact Hnone | exact Hsel].
      * simpl.
        destruct (arrivals slide dt sp (take n (drop (S i) (tokens g))) =? 0)%nat.
        -- etransitivity; [exact Hsel |]. rewrite Hrest. reflexivity.
        -- exact Hsel.
Qed.

(** X5. [updateTokens] handles each token on its own: the token vector after
    the call is the vector before with each token at rest left as it is and
    each sliding token either moved along or arrived; the turn has changed
    hands once for each token that arrived; the phase is unchanged or Win;
    without an arrival nothing but the tokens has changed, and with one the
    selection pointer is null. *)
Theorem updateTokens_per_token (g g' : Game) (dt sp : Q) (wp : list Z) :
  updateTokens slide g dt sp wp = Some g' →
  tokens g' = map (stepToken slide dt sp) (tokens g)
  ∧ turn g' = Nat.iter (arrivals slide dt sp (tokens g)) other (turn g)
  ∧ (phase g' = phase g ∨ phase g' = Win)
  ∧ if (arrivals slide dt sp (tokens g) =? 0)%nat
    then g' = set_tokens (tokens g') g
    else selectedPtr g' = None.
Proof.
  unfold updateTokens. intros H.
  destruct (updateFrom_spec _ _ _ _ _ _ _ H) as (HL & Hk & Hturn & Hph & Hsel).
  rewrite drop_0, firstn_all in Hturn, Hsel.
  split; [| split; [exact Hturn | split; [exact Hph | exact Hsel]]].
  apply list_eq. intros k. rewrite Hk.
  change (map (stepToken slide dt sp) (tokens g))
    with (stepToken slide dt sp <$> tokens g).
  rewrite list_lookup_fmap. destruct (decide _) as [D | D]; [reflexivity |].
  rewrite (lookup_ge_None_2 (tokens g) k) by lia. reflexivity.
Qed.

End Frames.

Lemma updateTokens_per_token_witness :
  ∃ g', updateTokens arriveNow twoSlides 1 speed winProducts = Some g'
        ∧ tokens g' = map (stepToken arriveNow 1 speed) (tokens twoSlides)
        ∧ turn g'
          = Nat.iter (arrivals arriveNow 1 speed (tokens twoSlides)) other
                     (turn twoSlides)
        ∧ (phase g' = phase twoSlides ∨ phase g' = Win)
        ∧ if (arrivals arriveNow 1 speed (tokens twoSlides) =? 0)%nat
          then g' = set_tokens (tokens g') twoSlides
          else selectedPtr g' = None.
Proof.
  destruct (updateTokens arriveNow twoSlides 1 speed winProducts) as [g'|] eqn:E;
    [| vm_compute in E; discriminate E].
  exists g'. split; [reflexivity |].
  exact (updateTokens_per_token arriveNow twoSlides g' 1 speed winProducts E).
Defined.

Section Arrivals.

Variable slide : Vector2f → Vector2f → Q → Q → option Vector2f.



Lemma updateFrom_idle (n i : nat) (g : Game) (dt sp : Q) (wp : list Z) :
  (∀ k t, (i <= k < i + n)%nat → tokens g !! k = Some t → moving t = false) →
  (i + n <= length (tokens g))%nat →
  updateFrom slide n i g dt sp wp = Some g.
Proof.
  revert i. induction n as [|n IH]; intros i Hrest Hlen; [reflexivity |].
  destruct (lookup_lt_is_Some_2 (tokens g) i) as [t Et]; [lia |].
  simpl. unfold updateToken. rewrite Et. cbn [mbind option_bind].
  rewrite (Hrest i t) by (lia || exact Et). cbn [mbind option_bind].
  apply IH; [| lia]. intros k t' Hk. apply Hrest. lia.
Qed.



End Arrivals.



(** ** What a click can do *)

Lemma sameButFlag_refl (t : Token) : sameButFlag t t.
Proof. destruct t. reflexivity. Qed.

Lemma sameButFlag_trans (t1 t2 t3 : Token) :
  sameButFlag t1 t2 → sameButFlag t2 t3 → sameButFlag t1 t3.
Proof.
  unfold sameButFlag. intros <- <-. destruct t1. reflexivity.
Qed.

Lemma sameButFlag_set (b : bool) (t : Token) : sameButFlag t (set_selected b t).
Proof. destruct t. reflexivity. Qed.

(** An accepted or ignored placement click. *)
Lemma placementClick_effect (g g' : Game) (pos : Vector2f) (wp : list Z)
  (r : bool) :
  placementClick g pos wp = Some (g', r) →
  (g' = g ∧ r = false ∧ getFreeSlotUnderMouse pos (tokens g) = -1)
  ∨ ∃ S s, getFreeSlotUnderMouse pos (tokens g) = S
           ∧ 0 <= S <= 8 ∧ index slots S = Some s
           ∧ ¬ taken S (tokens g)
           ∧ contains (slotArea s) pos = true
           ∧ ((checkWin (tokens g ++ [placedToken (turn g) S s]) (turn g) wp
               = Some true ∧ g' = placedWin g S s ∧ r = true)
              ∨ (checkWin (tokens g ++ [placedToken (turn g) S s]) (turn g) wp
                 = Some false ∧ g' = placedOn g S s ∧ r = false)).
Proof.
  unfold placementClick. intros H.
  destruct (getFreeSlotUnderMouse_spec pos (tokens g))
    as [[E _] | (s & Hr & Hs & Hfree & Hc)].
  - left. rewrite E in H. simpl in H. injection H as <- <-. auto.
  - right. exists (getFreeSlotUnderMouse pos (tokens g)), s.
    replace (getFreeSlotUnderMouse pos (tokens g) =? -1) with false in H by lia.
    rewrite Hs in H. cbn [mbind option_bind] in H.
    cbn [tokens turn set_tokens set_currentPTI] in H.
    split; [reflexivity |]. split; [exact Hr |]. split; [exact Hs |].
    split; [exact Hfree |]. split; [exact Hc |].
    destruct (checkWin _ _ _) as [[|]|]; cbn [mbind option_bind] in H;
      [| | discriminate H]; injection H as <- <-.
    + left. auto.
    + right. split; [reflexivity |]. split; [| reflexivity].
      unfold placedOn. destruct (turn g) eqn:Et; simpl; rewrite ?Et;
        match goal with |- context [if ?c then _ else _] => destruct c end;
        simpl; rewrite ?Et; reflexivity.
Qed.

Section ClickEffects.

Variable tokenSize : Player → Vector2f.

Lemma clickedToken_spec (i k : nat) (ts : list Token) (who : Player)
  (pos : Vector2f) :
  clickedToken tokenSize i ts who pos = Some k →
  ∃ t, (i <= k)%nat ∧ ts !! (k - i)%nat = Some t ∧ owner t = who
       ∧ contains (getGlobalBounds tokenSize (sprite t)) pos = true.
Proof.
  revert i. induction ts as [|t ts IH]; intros i H; [discriminate H |].
  simpl in H.
  destruct (bool_decide (owner t = who)
            && contains (getGlobalBounds tokenSize (sprite t)) pos) eqn:E.
  - injection H as <-. exists t. apply andb_true_iff in E as [E1 E2].
    apply (bool_decide_eq_true_1 _) in E1.
    rewrite Nat.sub_diag. auto.
  - destruct (IH _ H) as (t' & Hle & Hk & Ho & Hc). exists t'.
    split; [lia |]. replace (k - i)%nat with (S (k - S i)) by lia. auto.
Qed.

(** A click in the Movement phase: nothing, a selection, or the start of a
    slide. *)
Lemma movementClick_effect (g g' : Game) (pos : Vector2f) (r : bool) :
  movementClick tokenSize g pos = Some (g', r) →
  r = false
  ∧ (g' = g
     ∨ (∃ k t, tokens g !! k = Some t ∧ owner t = turn g
               ∧ contains (getGlobalBounds tokenSize (sprite t)) pos = true
               ∧ g' = set_selectedPtr (Some k) (set_tokens (tokens g') g)
               ∧ length (tokens g') = length (tokens g)
               ∧ (∀ i ti, tokens g !! i = Some ti →
                          ∃ ti', tokens g' !! i = Some ti' ∧ sameButFlag ti ti')
               ∧ ∃ t', tokens g' !! k = Some t' ∧ selected t' = true)
     ∨ (∃ j t S dest, moveAccepted g pos j t S dest
                      ∧ g' = slideStarted g j t S dest)).
Proof.
  unfold movementClick. intros H.
  destruct (clickedToken tokenSize 0 (tokens g) (turn g) pos) as [k|] eqn:Ek.
  - apply clickedToken_spec in Ek as (t & _ & Hk & Ho & Hc).
    rewrite Nat.sub_0_r in Hk.
    assert (∃ ts1, deselect g = Some (set_tokens ts1 g)
                   ∧ length ts1 = length (tokens g)
                   ∧ ∀ i ti, tokens g !! i = Some ti →
                             ∃ ti', ts1 !! i = Some ti' ∧ sameButFlag ti ti')
      as (ts1 & Ed & L1 & H1).
    { unfold deselect. destruct (selectedPtr g) as [j|] eqn:Ej.
      - destruct (tokens g !! j) as [s|] eqn:Es;
          [| exfalso; unfold deselect in H; rewrite Ej, Es in H; discriminate H].
        eexists. split; [reflexivity |]. split; [apply length_insert |].
        intros i ti Hi. destruct (decide (i = j)) as [-> | N].
        + rewrite list_lookup_insert_eq by (eapply lookup_lt_Some; exact Es).
          rewrite Es in Hi. injection Hi as <-. eexists. split; [reflexivity |].
          apply sameButFlag_set.
        + rewrite list_lookup_insert_ne by congruence. exists ti.
          split; [exact Hi | apply sameButFlag_refl].
      - exists (tokens g). rewrite set_tokens_same. split; [reflexivity |].
        split; [reflexivity |]. intros i ti Hi. exists ti.
        split; [exact Hi | apply sameButFlag_refl]. }
    rewrite Ed in H. cbn [mbind option_bind tokens set_tokens] in H.
    destruct (H1 k t Hk) as (t1 & Hk1 & S1). rewrite Hk1 in H.
    cbn [mbind option_bind] in H. injection H as <- <-.
    split; [reflexivity |]. right. left. exists k, t.
    split; [exact Hk |]. split; [exact Ho |]. split; [exact Hc |].
    split; [reflexivity |]. simpl. split; [rewrite length_insert; exact L1 |].
    assert (k < length ts1)%nat as Lk by (eapply lookup_lt_Some; exact Hk1).
    split.
    + intros i ti Hi. destruct (H1 i ti Hi) as (ti1 & Hi1 & Si).
      destruct (decide (i = k)) as [-> | N].
      * rewrite list_lookup_insert_eq by exact Lk. eexists. split; [reflexivity |].
        rewrite Hk1 in Hi1. injection Hi1 as <-.
        apply (sameButFlag_trans _ _ _ Si). apply sameButFlag_set.
      * rewrite list_lookup_insert_ne by congruence. exists ti1. auto.
    + rewrite list_lookup_insert_eq by exact Lk. eexists. split; reflexivity.
  - destruct (selectedPtr g) as [j|] eqn:Ej;
      [| injection H as <- <-; auto].
    destruct (tokens g !! j) as [s|] eqn:Es; [| discriminate H].
    cbn [mbind option_bind] in H.
    destruct (moving s) eqn:Em; [injection H as <- <-; auto |].
    destruct (getFreeSlotUnderMouse_spec pos (tokens g))
      as [[E _] | (dest & Hr & Hd & Hfree & Hc)].
    { rewrite E in H. simpl in H. injection H as <- <-. auto. }
    replace (getFreeSlotUnderMouse pos (tokens g) =? -1) with false in H by lia.
    destruct (isAdjacent _ _) as [[|]|] eqn:Ea; cbn [mbind option_bind] in H;
      [| injection H as <- <-; auto | discriminate H].
    rewrite Hd in H. cbn [mbind option_bind] in H. injection H as <- <-.
    split; [reflexivity |]. right. right.
    exists j, s, (getFreeSlotUnderMouse pos (tokens g)), dest.
    split; [| reflexivity]. repeat split; assumption.
Qed.

End ClickEffects.

Section EventCases.

Variable tokenSize : Player → Vector2f.

(** The branches of [handleEvents] for one event. *)
Lemma handleEvent_cases (g g' : Game) (ev : Event) (wp : list Z) (r : bool) :
  handleEvent tokenSize g ev wp = Some (g', r) →
  g' = g
  ∨ g' = close_window (log (String.append "Game closed by user." newline) g)
  ∨ ((phase g = Instructions ∨ phase g = About)
     ∧ g' = set_startButtonBounds (frect 165 440 275 100) (set_phase Start g))
  ∨ (phase g = Start
     ∧ g' = log "Game started."
              (set_startButtonBounds resetButton (set_phase Placement g)))
  ∨ ((phase g = Placement ∨ phase g = Movement ∨ phase g = Win)
     ∧ g' = resetGame g)
  ∨ (phase g = Start
     ∧ (g' = set_startButtonBounds (frect 165 665 275 100)
               (set_phase Instructions g)
        ∨ g' = set_startButtonBounds (frect 165 665 275 100)
                 (set_phase About g)))
  ∨ (phase g = Win
     ∧ g' = log (String.append "Game exited." newline) (close_window g))
  ∨ (phase g = Placement
     ∧ ∃ pos, placementClick g pos wp = Some (g', r))
  ∨ (phase g = Movement
     ∧ ∃ pos, movementClick tokenSize g pos = Some (g', r)).
Proof.
  intros H. destruct ev as [| x y |].
  - injection H as <- _. auto.
  - unfold handleEvent in H. destruct (phase g) eqn:Eph; simpl in H;
      repeat (match type of H with
              | (if ?c then _ else _) = _ => destruct c
              end);
      try (injection H as <- _); eauto 12.
  - injection H as <- _. auto.
Qed.

(** X8. Handling an event never takes a token away nor touches the owner,
    the sprite or the slot of a token, and never stops or redirects a slide
    under way, unless it resets the game: each token of the vector is found
    at the same index afterwards, changed at most in its selection flag and,
    for a token at rest, in the start of a slide. *)
Theorem handleEvent_keeps_tokens (g g' : Game) (ev : Event) (wp : list Z)
  (r : bool) :
  handleEvent tokenSize g ev wp = Some (g', r) →
  g' = resetGame g
  ∨ ∀ i t, tokens g !! i = Some t →
           ∃ t', tokens g' !! i = Some t' ∧ keptByClick t t'.
Proof.
  intros H.
  assert (∀ t, keptByClick t t) as Hrefl by (intros t; repeat split; auto).
  assert (tokens g' = tokens g →
          ∀ i t, tokens g !! i = Some t →
                 ∃ t', tokens g' !! i = Some t' ∧ keptByClick t t') as Hsame.
  { intros E i t Hi. exists t. rewrite E. auto. }
  destruct (handleEvent_cases _ _ _ _ _ H)
    as [-> | [-> | [[_ ->] | [[_ ->] | [[_ ->] | [[_ [-> | ->]] | [[_ ->]
       | [[_ [pos Hp]] | [_ [pos Hm]]]]]]]]]];
    try (right; apply Hsame; reflexivity); [left; reflexivity | |].
  - right. destruct (placementClick_effect _ _ _ _ _ Hp)
      as [(-> & _) | (S & s & _ & _ & _ & _ & _ & [(_ & -> & _) | (_ & -> & _)])].
    + apply Hsame. reflexivity.
    + intros i t Hi. exists t. split; [| apply Hrefl]. simpl.
      apply lookup_app_l_Some. exact Hi.
    + intros i t Hi. exists t. split; [| apply Hrefl].
      assert (tokens (placedOn g S s) = tokens g ++ [placedToken (turn g) S s])
        as ->.
      { unfold placedOn. destruct (turn g); simpl;
          match goal with |- context [if ?c then _ else _] => destruct c end;
          reflexivity. }
      apply lookup_app_l_Some. exact Hi.
  - right. destruct (movementClick_effect _ _ _ _ _ Hm)
      as (_ & [-> | [(k & tk & _ & _ & _ & _ & _ & Hall & _)
                    | (j & tj & S & dest & Hacc & ->)]]).
    + apply Hsame. reflexivity.
    + intros i t Hi. destruct (Hall i t Hi) as (t' & Hi' & Hf). exists t'.
      split; [exact Hi' |]. unfold sameButFlag in Hf. rewrite <- Hf.
      repeat split; auto.
    + destruct Hacc as (_ & Hj & Hm' & _). intros i t Hi. simpl.
      destruct (decide (i = j)) as [-> | N].
      * rewrite list_lookup_insert_eq by (eapply lookup_lt_Some; exact Hj).
        eexists. split; [reflexivity |]. rewrite Hj in Hi. injection Hi as <-.
        repeat split; simpl; congruence.
      * rewrite list_lookup_insert_ne by congruence. exists t. auto.
Qed.

(** X9. Handling an event either leaves the phase as it is or follows one of
    ten arrows: Start to Placement, Instructions or About; Instructions or
    About back to Start; Placement to Movement or Win; Movement to Win or
    (reset) Placement; Win to Start. No event leads from a game in progress
    straight to the Start screen, none leaves Win but for Start, and none
    leads back from Movement to Placement but the reset. *)
Theorem handleEvent_phase_edges (g g' : Game) (ev : Event) (wp : list Z)
  (r : bool) :
  handleEvent tokenSize g ev wp = Some (g', r) →
  phase g' = phase g
  ∨ (phaseEdge (phase g) (phase g')
     ∧ (phase g = Movement → phase g' = Placement → g' = resetGame g)).
Proof.
  intros H.
  destruct (handleEvent_cases _ _ _ _ _ H)
    as [-> | [-> | [[Hph ->] | [[Hph ->] | [[Hph ->] | [[Hph [-> | ->]] | [[Hph ->]
       | [[Hph [pos Hp]] | [Hph [pos Hm]]]]]]]]]].
  - left. reflexivity.
  - left. reflexivity.
  - right. simpl. destruct Hph as [-> | ->]; (split; [exact I | discriminate]).
  - right. rewrite Hph. simpl. split; [exact I | discriminate].
  - unfold resetGame.
    destruct Hph as [Hph | [Hph | Hph]]; rewrite Hph; simpl.
    + left. reflexivity.
    + right. split; [exact I |]. intros _ _. reflexivity.
    + right. split; [exact I | discriminate].
  - right. rewrite Hph. simpl. split; [exact I | discriminate].
  - right. rewrite Hph. simpl. split; [exact I | discriminate].
  - left. reflexivity.
  - destruct (placementClick_effect _ _ _ _ _ Hp)
      as [(-> & _) | (S & s & _ & _ & _ & _ & _ & [(_ & -> & _) | (_ & -> & _)])].
    + left. reflexivity.
    + right. rewrite Hph. simpl. split; [exact I | discriminate].
    + unfold placedOn. rewrite Hph. destruct (turn g); simpl;
        match goal with |- context [if ?c then _ else _] => destruct c end;
        simpl; rewrite ?Hph;
        first [left; reflexivity | right; split; [exact I | discriminate]].
  - destruct (movementClick_effect _ _ _ _ _ Hm)
      as (_ & [-> | [(k & tk & _ & _ & _ & -> & _) | (j & tj & S & dest & _ & ->)]]);
      left; reflexivity.
Qed.

End EventCases.

(** ** More invariants of a game *)

Lemma tokensOf_app (p : Player) (ts : list Token) (t : Token) :
  tokensOf p (ts ++ [t])
  = (tokensOf p ts + if bool_decide (owner t = p) then 1 else 0)%nat.
Proof.
  unfold tokensOf. rewrite List.filter_app, length_app. simpl.
  destruct (bool_decide (owner t = p)); reflexivity.
Qed.

Lemma tokensOf_owners (p : Player) (ts ts' : list Token) :
  map owner ts = map owner ts' → tokensOf p ts = tokensOf p ts'.
Proof.
  revert ts'. induction ts as [|t ts IH]; intros [|t' ts'] H;
    try discriminate H; [reflexivity |].
  simpl in H. injection H as Ho Hr. unfold tokensOf in *. simpl.
  rewrite Ho. destruct (bool_decide (owner t' = p)); simpl;
    rewrite (IH ts' Hr); reflexivity.
Qed.

Lemma owners_pointwise (ts ts' : list Token) :
  length ts' = length ts →
  (∀ i t, ts !! i = Some t → ∃ t', ts' !! i = Some t' ∧ owner t' = owner t) →
  map owner ts' = map owner ts.
Proof.
  intros L H. apply list_eq. intros i.
  change (map owner ts') with (owner <$> ts').
  change (map owner ts) with (owner <$> ts).
  rewrite !list_lookup_fmap.
  destruct (ts !! i) as [t|] eqn:E.
  - destruct (H i t E) as (t' & -> & Ho). simpl. congruence.
  - apply lookup_ge_None in E.
    rewrite (lookup_ge_None_2 ts' i) by lia. reflexivity.
Qed.

Lemma owners_insert (ts : list Token) (i : nat) (t t' : Token) :
  ts !! i = Some t → owner t' = owner t →
  map owner (<[i := t']> ts) = map owner ts.
Proof.
  intros Hi Ho. apply owners_pointwise; [apply length_insert |].
  intros k tk Hk. destruct (decide (k = i)) as [-> | N].
  - rewrite list_lookup_insert_eq by (eapply lookup_lt_Some; exact Hi).
    exists t'. split; [reflexivity |]. congruence.
  - rewrite list_lookup_insert_ne by congruence. exists tk. auto.
Qed.

Lemma placedOn_fields (g : Game) (S : Z) (s : Slot) :
  tokens (placedOn g S s) = tokens g ++ [placedToken (turn g) S s]
  ∧ turn (placedOn g S s) = other (turn g)
  ∧ selectedPtr (placedOn g S s) = selectedPtr g
  ∧ startButtonBounds (placedOn g S s) = startButtonBounds g
  ∧ logged (placedOn g S s) = logged g
  ∧ winner (placedOn g S s) = winner g.
Proof.
  unfold placedOn. destruct (turn g); simpl;
    match goal with |- context [if ?c then _ else _] => destruct c end;
    repeat split.
Qed.

Section MoreInvariants.

Variable tokenSize : Player → Vector2f.
Variable slide : Vector2f → Vector2f → Q → Q → option Vector2f.

Lemma handleEvent_selectionOwn (g g' : Game) (ev : Event) (wp : list Z)
  (r : bool) :
  handleEvent tokenSize g ev wp = Some (g', r) →
  selectionOwn g → selectionOwn g'.
Proof.
  intros H [Hown Hnull].
  assert (selectionOwn g) as Hg by (split; assumption).
  assert (∀ g1, selectedPtr g1 = None → selectionOwn g1) as Hnone.
  { intros g1 E. split; [intros j Hj; congruence | auto]. }
  destruct (handleEvent_cases _ _ _ _ _ _ H)
    as [-> | [-> | [[Hph ->] | [[Hph ->] | [[Hph ->] | [[Hph [-> | ->]] | [[Hph ->]
       | [[Hph [pos Hp]] | [Hph [pos Hm]]]]]]]]]].
  - exact Hg.
  - exact Hg.
  - apply Hnone. simpl. apply Hnull. destruct Hph as [-> | ->]; discriminate.
  - apply Hnone. simpl. apply Hnull. rewrite Hph. discriminate.
  - apply Hnone. reflexivity.
  - apply Hnone. simpl. apply Hnull. rewrite Hph. discriminate.
  - apply Hnone. simpl. apply Hnull. rewrite Hph. discriminate.
  - apply Hnone. simpl. apply Hnull. rewrite Hph. discriminate.
  - assert (selectedPtr g = None) as En by (apply Hnull; rewrite Hph; discriminate).
    destruct (placementClick_effect _ _ _ _ _ Hp)
      as [(-> & _) | (S & s & _ & _ & _ & _ & _ & [(_ & -> & _) | (_ & -> & _)])].
    + exact Hg.
    + apply Hnone. exact En.
    + apply Hnone. destruct (placedOn_fields g S s) as (_ & _ & -> & _). exact En.
  - destruct (movementClick_effect _ _ _ _ _ Hm)
      as (_ & [-> | [(k & tk & Hk & Ho & _ & Hg' & _ & Hall & _)
                    | (j & tj & S & dest & Hacc & ->)]]).
    + exact Hg.
    + rewrite Hg'. split; simpl.
      * intros j Hj. injection Hj as <-.
        destruct (Hall k tk Hk) as (t' & Hk' & Hf). exists t'.
        split; [exact Hk' |]. unfold sameButFlag in Hf. rewrite <- Hf. exact Ho.
      * intros N. contradiction.
    + destruct Hacc as (Hj & Ht & _). split; simpl.
      * intros j' Hj'. rewrite Hj in Hj'. injection Hj' as <-.
        rewrite list_lookup_insert_eq by (eapply lookup_lt_Some; exact Ht).
        eexists. split; [reflexivity |]. simpl.
        destruct (Hown j Hj) as (t0 & Ht0 & Ho). congruence.
      * intros N. contradiction.
Qed.

Lemma updateTokens_selectionOwn (g g' : Game) (dt sp : Q) (wp : list Z) :
  updateTokens slide g dt sp wp = Some g' →
  selectionOwn g → selectionOwn g'.
Proof.
  unfold updateTokens. intros H [Hown Hnull].
  destruct (updateFrom_spec _ _ _ _ _ _ _ _ H) as (HL & Hk & _ & _ & Hsel).
  destruct (arrivals slide dt sp _ =? 0)%nat.
  - rewrite Hsel. split; simpl.
    + intros j Hj. destruct (Hown j Hj) as (t & Ht & Ho).
      rewrite Hk. apply lookup_lt_Some in Ht as Hlt.
      destruct (decide _) as [D | D]; [| lia]. rewrite Ht. simpl.
      eexists. split; [reflexivity |]. rewrite <- Ho. unfold stepToken.
      destruct (moving t); [destruct (slide _ _ _ _) |]; reflexivity.
    + exact Hnull.
  - split; [intros j Hj; congruence | auto].
Qed.

Lemma reachable_selectionOwn (g : Game) :
  reachable tokenSize slide g → selectionOwn g.
Proof.
  induction 1 as [| g ev g' r _ IH _ Hev | g dt g' _ IH Hup].
  - split; [intros j Hj; discriminate Hj | reflexivity].
  - exact (handleEvent_selectionOwn _ _ _ _ _ Hev IH).
  - exact (updateTokens_selectionOwn _ _ _ _ _ Hup IH).
Qed.

(** X10. In every state the program reaches the selection pointer is null
    or points to a token of the player to move, and it is null outside the
    Movement phase. So an event sets a token in motion only in the Movement
    phase, and only the selected token, which belongs to the player to
    move; the turn does not pass at the click. *)
Theorem only_own_token_moves (g : Game) :
  reachable tokenSize slide g →
  selectionOwn g
  ∧ ∀ (g' : Game) (ev : Event) (r : bool) (i : nat) (t t' : Token),
      handleEvent tokenSize g ev winProducts = Some (g', r) →
      tokens g !! i = Some t → tokens g' !! i = Some t' →
      moving t = false → moving t' = true →
      phase g = Movement ∧ selectedPtr g = Some i ∧ owner t = turn g
      ∧ turn g' = turn g.
Proof.
  intros Hg.
  pose proof (reachable_selectionOwn g Hg) as Hown. split; [exact Hown |].
  intros g' ev r i t t' H Hi Hi' Hm Hm'.
  destruct Hown as [Hown _].
  assert (tokens g' = tokens g → False) as Hsame.
  { intros E. rewrite E, Hi in Hi'. injection Hi' as <-. congruence. }
  destruct (handleEvent_cases _ _ _ _ _ _ H)
    as [-> | [-> | [[Hph ->] | [[Hph ->] | [[Hph ->] | [[Hph [-> | ->]] | [[Hph ->]
       | [[Hph [pos Hp]] | [Hph [pos Hm'']]]]]]]]]];
    try (exfalso; apply Hsame; reflexivity).
  - exfalso. destruct i; discriminate Hi'.
  - exfalso. destruct (placementClick_effect _ _ _ _ _ Hp)
      as [(-> & _) | (S & s & _ & _ & _ & _ & _ & [(_ & -> & _) | (_ & -> & _)])].
    + apply Hsame. reflexivity.
    + simpl in Hi'. rewrite (lookup_app_l_Some _ _ _ _ Hi) in Hi'.
      injection Hi' as <-. congruence.
    + destruct (placedOn_fields g S s) as (E & _). rewrite E in Hi'.
      rewrite (lookup_app_l_Some _ _ _ _ Hi) in Hi'.
      injection Hi' as <-. congruence.
  - destruct (movementClick_effect _ _ _ _ _ Hm'')
      as (_ & [-> | [(k & tk & _ & _ & _ & _ & _ & Hall & _)
                    | (j & tj & S & dest & Hacc & ->)]]).
    + exfalso. apply Hsame. reflexivity.
    + exfalso. destruct (Hall i t Hi) as (t'' & Hi'' & Hf).
      rewrite Hi' in Hi''. injection Hi'' as <-.
      unfold sameButFlag in Hf. rewrite <- Hf in Hm'. simpl in Hm'. congruence.
    + destruct Hacc as (Hj & Ht & _). simpl in Hi'.
      destruct (decide (i = j)) as [-> | N].
      * split; [exact Hph |]. split; [exact Hj |]. split; [| reflexivity].
        destruct (Hown j Hj) as (t0 & Ht0 & Ho). congruence.
      * exfalso. rewrite list_lookup_insert_ne in Hi' by congruence.
        rewrite Hi in Hi'. injection Hi' as <-. congruence.
Qed.

End MoreInvariants.

Lemma owners_stepToken
  (slide : Vector2f → Vector2f → Q → Q → option Vector2f) (dt sp : Q)
  (ts : list Token) :
  map owner (map (stepToken slide dt sp) ts) = map owner ts.
Proof.
  induction ts as [|t ts IH]; [reflexivity |]. simpl. rewrite IH. f_equal.
  unfold stepToken. destruct (moving t); [destruct (slide _ _ _ _) |]; reflexivity.
Qed.

Section Tally.

Variable tokenSize : Player → Vector2f.
Variable slide : Vector2f → Vector2f → Q → Q → option Vector2f.

Lemma updateTokens_fields (g g' : Game) (dt sp : Q) (wp : list Z) :
  updateTokens slide g dt sp wp = Some g' →
  tokens g' = map (stepToken slide dt sp) (tokens g)
  ∧ (phase g' = phase g ∨ phase g' = Win)
  ∧ ((∀ t, t ∈ tokens g → moving t = false) → g' = g).
Proof.
  unfold updateTokens. intros H.
  destruct (updateFrom_spec _ _ _ _ _ _ _ _ H) as (HL & Hk & _ & Hph & Hsel).
  assert (tokens g' = map (stepToken slide dt sp) (tokens g)) as Hts.
  { apply list_eq. intros k. rewrite Hk.
    change (map (stepToken slide dt sp) (tokens g))
      with (stepToken slide dt sp <$> tokens g).
    rewrite list_lookup_fmap. destruct (decide _) as [D | D]; [reflexivity |].
    rewrite (lookup_ge_None_2 (tokens g) k) by lia. reflexivity. }
  split; [exact Hts |]. split; [exact Hph |]. intros Hrest.
  rewrite (updateFrom_idle slide (length (tokens g)) 0 g dt sp wp) in H.
  - congruence.
  - intros k t _ Hkt. apply Hrest. apply list_elem_of_lookup. exists k. exact Hkt.
  - lia.
Qed.

(** In the phases before Movement no token slides, and a frame changes
    nothing. *)
Lemma updateTokens_before_Movement (g g' : Game) (dt sp : Q) (wp : list Z) :
  updateTokens slide g dt sp wp = Some g' → counted g →
  phase g ≠ Movement → phase g ≠ Win → g' = g.
Proof.
  intros H (_ & Hpre & Hpl) NM NW.
  apply (updateTokens_fields _ _ _ _ _ H).
  destruct (phase g) eqn:Eph; try congruence.
  - destruct Hpre as (E & _); [auto |]. rewrite E. intros t Ht. inversion Ht.
  - destruct Hpre as (E & _); [auto |]. rewrite E. intros t Ht. inversion Ht.
  - destruct Hpre as (E & _); [auto |]. rewrite E. intros t Ht. inversion Ht.
  - apply Hpl. reflexivity.
Qed.

Lemma handleEvent_tally (g g' : Game) (ev : Event) (wp : list Z) (r : bool) :
  handleEvent tokenSize g ev wp = Some (g', r) →
  counted g → tally g → tally g'.
Proof.
  intros H (Hlen & Hpre & Hpl) (Tp & Tm & TA & TB).
  assert (tally g) as Hg by exact (conj Tp (conj Tm (conj TA TB))).
  assert (∀ g1, tokens g1 = [] → placedA g1 = 0 → placedB g1 = 0 →
                phase g1 ≠ Movement → tally g1) as Hempty.
  { intros g1 E EA EB NM. unfold tally, tokensOf. rewrite E, EA, EB. simpl.
    split; [intros _; split; reflexivity |].
    split; [intros P; contradiction |]. split; lia. }
  assert (∀ g1, tokens g1 = tokens g → phase g1 ≠ Placement →
                phase g1 ≠ Movement → tally g1) as Hidle.
  { intros g1 E NP NM. unfold tally. rewrite E.
    split; [intros P; contradiction |].
    split; [intros P; contradiction |]. split; assumption. }
  destruct (handleEvent_cases _ _ _ _ _ _ H)
    as [-> | [-> | [[Hph ->] | [[Hph ->] | [[Hph ->] | [[Hph [-> | ->]] | [[Hph ->]
       | [[Hph [pos Hp]] | [Hph [pos Hm]]]]]]]]]].
  - exact Hg.
  - exact Hg.
  - apply Hidle; [reflexivity | discriminate | discriminate].
  - destruct Hpre as (E & EA & EB & _); [auto |].
    apply Hempty; [assumption .. | discriminate].
  - apply Hempty; try reflexivity. unfold resetGame.
    destruct (bool_decide (phase g = Win)); discriminate.
  - apply Hidle; [reflexivity | discriminate | discriminate].
  - apply Hidle; [reflexivity | discriminate | discriminate].
  - exact Hg.
  - destruct (Tp Hph) as (EA & EB).
    destruct (Hpl Hph) as (_ & _ & HB & Hturn).
    destruct (placementClick_effect _ _ _ _ _ Hp)
      as [(-> & _) | (S & s & _ & _ & _ & _ & _ & [(_ & -> & _) | (_ & -> & _)])].
    + exact Hg.
    + unfold tally. simpl. rewrite !tokensOf_app. simpl.
      split; [intros E; discriminate E |]. split; [intros E; discriminate E |].
      destruct Hturn as [[Ht HA] | [Ht HA]]; rewrite Ht; simpl; lia.
    + unfold tally, placedOn.
      destruct Hturn as [[Ht HA] | [Ht HA]]; rewrite Ht; simpl;
        rewrite wrap32_small by (unfold INT_MIN, INT_MAX; lia);
        match goal with |- context [if ?c then _ else _] => destruct c eqn:E3 end;
        simpl; rewrite !tokensOf_app; simpl; rewrite ?Hph;
        try (apply andb_true_iff in E3 as [E3 E4]);
        (split; [intros E; first [discriminate E | split; lia] |]);
        (split; [intros E; first [discriminate E | split; lia] |]); split; lia.
  - destruct (Tm Hph) as (EA & EB).
    assert (map owner (tokens g') = map owner (tokens g) ∧ phase g' = Movement)
      as [Ho Hph'].
    { destruct (movementClick_effect _ _ _ _ _ Hm)
        as (_ & [-> | [(k & tk & _ & _ & _ & Hg' & L & Hall & _)
                      | (j & tj & S & dest & Hacc & ->)]]).
      - auto.
      - split; [| rewrite Hg'; exact Hph].
        apply owners_pointwise; [exact L |]. intros i t Hi.
        destruct (Hall i t Hi) as (t' & Hi' & Hf). exists t'.
        split; [exact Hi' |]. unfold sameButFlag in Hf. rewrite <- Hf. reflexivity.
      - destruct Hacc as (_ & Ht & _). split; [| exact Hph]. simpl.
        apply (owners_insert _ _ tj); [exact Ht | reflexivity]. }
    unfold tally. rewrite (tokensOf_owners A _ _ Ho), (tokensOf_owners B _ _ Ho).
    rewrite Hph'. split; [intros E; discriminate E |].
    split; [intros _; split; assumption |]. split; lia.
Qed.

Lemma updateTokens_tally (g g' : Game) (dt sp : Q) (wp : list Z) :
  updateTokens slide g dt sp wp = Some g' →
  counted g → tally g → tally g'.
Proof.
  intros H Hc (Tp & Tm & TA & TB).
  destruct (decide (phase g = Movement ∨ phase g = Win)) as [D | D].
  - destruct (updateTokens_fields _ _ _ _ _ H) as (Hts & Hph & _).
    assert (map owner (tokens g') = map owner (tokens g)) as Ho
      by (rewrite Hts; apply owners_stepToken).
    unfold tally. rewrite (tokensOf_owners A _ _ Ho), (tokensOf_owners B _ _ Ho).
    split; [| split; [| split; assumption]].
    + intros E. exfalso. destruct Hph as [P | P]; destruct D as [D | D]; congruence.
    + intros E. apply Tm. destruct Hph as [P | P]; destruct D as [D | D]; congruence.
  - rewrite (updateTokens_before_Movement _ _ _ _ _ H Hc) by tauto.
    exact (conj Tp (conj Tm (conj TA TB))).
Qed.

Lemma reachable_tally (g : Game) : reachable tokenSize slide g → tally g.
Proof.
  induction 1 as [| g ev g' r Hg IH _ Hev | g dt g' Hg IH Hup].
  - unfold tally, tokensOf. simpl. split; [intros E; discriminate E |].
    split; [intros E; discriminate E |]. split; lia.
  - exact (handleEvent_tally _ _ _ _ _ Hev
             (reachable_counted tokenSize slide g Hg) IH).
  - exact (updateTokens_tally _ _ _ _ _ Hup
             (reachable_counted tokenSize slide g Hg) IH).
Qed.

(** X11. In every state the program reaches neither player has more than 3
    tokens; during Placement each player has as many tokens as the
    placement counter says, and the game is in the Movement phase only with
    3 tokens of each player on the board. *)
Theorem reachable_three_tokens (g : Game) :
  reachable tokenSize slide g →
  (tokensOf A (tokens g) <= 3)%nat
  ∧ (tokensOf B (tokens g) <= 3)%nat
  ∧ (phase g = Placement →
     Z.of_nat (tokensOf A (tokens g)) = placedA g
     ∧ Z.of_nat (tokensOf B (tokens g)) = placedB g)
  ∧ (phase g = Movement →
     tokensOf A (tokens g) = 3%nat ∧ tokensOf B (tokens g) = 3%nat).
Proof.
  intros Hg. destruct (reachable_tally g Hg) as (Tp & Tm & TA & TB). auto.
Qed.

End Tally.

Section Indicator.

Variable tokenSize : Player → Vector2f.
Variable slide : Vector2f → Vector2f → Q → Q → option Vector2f.

Lemma handleEvent_indicatorRight (g g' : Game) (ev : Event) (wp : list Z)
  (r : bool) :
  handleEvent tokenSize g ev wp = Some (g', r) →
  counted g → indicatorRight g → indicatorRight g'.
Proof.
  intros H (_ & Hpre & _) (Ipre & Ipl).
  assert (indicatorRight g) as Hg by exact (conj Ipre Ipl).
  assert (∀ g1, phase g1 = Movement ∨ phase g1 = Win → indicatorRight g1)
    as Hlate.
  { intros g1 P. split; intros P'; exfalso;
      destruct P as [P | P]; rewrite P in P'; intuition discriminate. }
  destruct (handleEvent_cases _ _ _ _ _ _ H)
    as [-> | [-> | [[Hph ->] | [[Hph ->] | [[Hph ->] | [[Hph [-> | ->]] | [[Hph ->]
       | [[Hph [pos Hp]] | [Hph [pos Hm]]]]]]]]]].
  - exact Hg.
  - exact Hg.
  - split; simpl; [intros _; apply Ipre; tauto | intros E; discriminate E].
  - destruct Hpre as (_ & _ & _ & Ht); [auto |].
    split; simpl; [intros [E | [E | E]]; discriminate E |].
    intros _. rewrite Ht. apply Ipre. auto.
  - unfold resetGame. destruct (bool_decide (phase g = Win)); split; simpl;
      intros; first [reflexivity | intuition discriminate].
  - split; simpl; [intros _; apply Ipre; auto | intros E; discriminate E].
  - split; simpl; [intros _; apply Ipre; auto | intros E; discriminate E].
  - apply Hlate. right. exact Hph.
  - destruct (placementClick_effect _ _ _ _ _ Hp)
      as [(-> & _) | (S & s & _ & _ & _ & _ & _ & [(_ & -> & _) | (_ & -> & _)])].
    + exact Hg.
    + apply Hlate. right. reflexivity.
    + unfold placedOn. destruct (turn g); simpl;
        match goal with |- context [if ?c then _ else _] => destruct c end;
        first [ apply Hlate; left; reflexivity
              | split; simpl; rewrite ?Hph; intros;
                first [reflexivity | intuition discriminate] ].
  - apply Hlate. left.
    destruct (movementClick_effect _ _ _ _ _ Hm)
      as (_ & [-> | [(k & tk & _ & _ & _ & -> & _) | (j & tj & S & dest & _ & ->)]]);
      exact Hph.
Qed.

Lemma reachable_indicatorRight (g : Game) :
  reachable tokenSize slide g → indicatorRight g.
Proof.
  induction 1 as [| g ev g' r Hg IH _ Hev | g dt g' Hg IH Hup].
  - split; [reflexivity | intros E; discriminate E].
  - exact (handleEvent_indicatorRight _ _ _ _ _ Hev
             (reachable_counted tokenSize slide g Hg) IH).
  - pose proof (reachable_counted tokenSize slide g Hg) as Hc.
    destruct (decide (phase g = Movement ∨ phase g = Win)) as [D | D].
    + destruct (updateTokens_fields slide _ _ _ _ _ Hup) as (_ & Hph & _).
      split; intros P; exfalso;
        destruct Hph as [P' | P']; destruct D as [D | D];
        rewrite P' in P; rewrite ?D in P; intuition discriminate.
    + rewrite (updateTokens_before_Movement slide _ _ _ _ _ Hup Hc) by tauto.
      exact IH.
Qed.

(** X12. In every state the program reaches during the Placement phase, the
    banner shown as turn indicator is the placement banner of the player to
    move, and that player is the one with fewer tokens, Player A when the
    counts are equal: the players place alternately, A first. *)
Theorem reachable_placement_turn (g : Game) :
  reachable tokenSize slide g → phase g = Placement →
  currentPTI g = match turn g with A => papt | B => pbpt end
  ∧ (turn g = A ↔ tokensOf A (tokens g) = tokensOf B (tokens g))
  ∧ (turn g = B ↔ tokensOf A (tokens g) = S (tokensOf B (tokens g)))
  ∧ (∀ t, t ∈ tokens g → moving t = false)
  ∧ selectedPtr g = None.
Proof.
  intros Hg Hph.
  destruct (reachable_indicatorRight g Hg) as (_ & Ipl).
  destruct (reachable_counted tokenSize slide g Hg) as (_ & _ & Hpl).
  destruct (reachable_tally tokenSize slide g Hg) as (Tp & _).
  destruct (reachable_selectionOwn tokenSize slide g Hg) as (_ & Hnull).
  destruct (Hpl Hph) as (Hstill & _ & _ & Hturn). destruct (Tp Hph) as (EA & EB).
  split; [apply Ipl; exact Hph |].
  split; [| split; [| split; [exact Hstill |]]].
  - destruct Hturn as [[Ht HA] | [Ht HA]]; rewrite Ht; split; intros E;
      first [reflexivity | lia | discriminate E].
  - destruct Hturn as [[Ht HA] | [Ht HA]]; rewrite Ht; split; intros E;
      first [reflexivity | lia | discriminate E].
  - apply Hnull. rewrite Hph. discriminate.
Qed.

(** X13. Every game begins on an empty board: when an event takes a
    reachable state into the Placement phase from another phase (the first
    game, a game after a win, or a reset during Movement), there is no token,
    both counts are zero, Player A is to move with the matching banner, no
    token is selected, and the reset button is in place. *)
Theorem game_starts_fresh (g g' : Game) (ev : Event) (r : bool) :
  reachable tokenSize slide g →
  handleEvent tokenSize g ev winProducts = Some (g', r) →
  phase g ≠ Placement → phase g' = Placement →
  tokens g' = [] ∧ turn g' = A ∧ placedA g' = 0 ∧ placedB g' = 0
  ∧ selectedPtr g' = None ∧ currentPTI g' = papt
  ∧ startButtonBounds g' = resetButton.
Proof.
  intros Hg H NP P.
  destruct (reachable_indicatorRight g Hg) as (Ipre & _).
  destruct (reachable_counted tokenSize slide g Hg) as (_ & Hpre & _).
  destruct (reachable_selectionOwn tokenSize slide g Hg) as (_ & Hnull).
  destruct (handleEvent_cases _ _ _ _ _ _ H)
    as [-> | [-> | [[Hph ->] | [[Hph ->] | [[Hph ->] | [[Hph [-> | ->]] | [[Hph ->]
       | [[Hph [pos Hp]] | [Hph [pos Hm]]]]]]]]]];
    try contradiction; try discriminate P.
  - destruct Hpre as (E & EA & EB & Ht); [auto |]. simpl.
    repeat (split; [first [assumption | reflexivity] |]).
    split; [apply Hnull; rewrite Hph; discriminate |].
    split; [apply Ipre; auto | reflexivity].
  - unfold resetGame in P |- *.
    destruct (bool_decide (phase g = Win)); [discriminate P |].
    repeat split.
  - exfalso. destruct (movementClick_effect _ _ _ _ _ Hm)
      as (_ & [-> | [(k & tk & _ & _ & _ & E & _) | (j & tj & S & dest & _ & ->)]]).
    + congruence.
    + rewrite E in P. simpl in P. congruence.
    + simpl in P. congruence.
Qed.

(** X14. A win by placement is credited to the player who placed: when an
    event, handled while the window is open, takes a reachable state of the
    Placement phase into Win, the token just pushed completes a line of the
    player to move, that player is recorded as winner and announced in the
    log, and the turn does not pass. *)
Theorem placement_win_credited (g g' : Game) (ev : Event) (r : bool) :
  reachable tokenSize slide g → windowOpen g = true →
  handleEvent tokenSize g ev winProducts = Some (g', r) →
  phase g = Placement → phase g' = Win →
  (∃ S s, index slots S = Some s ∧ ¬ taken S (tokens g)
          ∧ tokens g' = tokens g ++ [placedToken (turn g) S s])
  ∧ (∃ c, c ∈ winCombos ∧ holdsLine (occupiedSlots (tokens g') (turn g)) c)
  ∧ winner g' = Some (turn g)
  ∧ logged g' = logged g ++ [winsMessage (turn g)]
  ∧ turn g' = turn g.
Proof.
  intros Hg Ew H P P'.
  pose proof (reach_event _ _ _ _ _ _ Hg Ew H) as Hg'.
  destruct (handleEvent_cases _ _ _ _ _ _ H)
    as [-> | [-> | [[Hph ->] | [[Hph ->] | [[Hph ->] | [[Hph [-> | ->]] | [[Hph ->]
       | [[Hph [pos Hp]] | [Hph [pos Hm]]]]]]]]]];
    try congruence; try (simpl in P'; congruence).
  - exfalso. unfold resetGame in P'.
    destruct (bool_decide (phase g = Win)); discriminate P'.
  - destruct (placementClick_effect _ _ _ _ _ Hp)
      as [(-> & _) | (S & s & _ & _ & Hs & Hfree & _
                      & [(Hw & -> & _) | (_ & -> & _)])].
    + congruence.
    + split; [exists S, s; auto |]. split; [| repeat split].
      destruct (checkWin_reachable tokenSize slide _ (turn g) Hg')
        as (b & Hb & Hiff).
      simpl in Hb, Hiff |- *. rewrite Hw in Hb. injection Hb as <-.
      apply Hiff. reflexivity.
    + exfalso. unfold placedOn in P'.
      destruct (turn g); simpl in P';
        match type of P' with context [if ?c then _ else _] => destruct c end;
        simpl in P'; congruence.
Qed.

End Indicator.

(** ** The loop of [main] *)

Lemma occupiedSlots_tokensOf (ts : list Token) (p : Player) :
  (length (occupiedSlots ts p) <= tokensOf p ts)%nat.
Proof.
  induction ts as [|t ts IH]; [reflexivity |].
  rewrite occupiedSlots_cons. unfold tokensOf in *. simpl.
  destruct (bool_decide (owner t = p)); simpl.
  - destruct (negb (slotIndex t =? -1)); simpl; lia.
  - exact IH.
Qed.

Lemma primeProduct_three (l : list Z) :
  (∀ s, s ∈ l → 0 <= s <= 8) → (length l <= 3)%nat →
  primeProduct l <= 24389.
Proof.
  intros Hr Hlen. destruct l as [|x [|y [|z [|w l]]]]; simpl in Hlen |- *; try lia.
  - pose proof (slotPrime_le x (Hr x ltac:(left))).
    pose proof (slotPrime_ge x). lia.
  - pose proof (slotPrime_le x (Hr x ltac:(left))).
    pose proof (slotPrime_le y (Hr y ltac:(right; left))).
    pose proof (slotPrime_ge x). pose proof (slotPrime_ge y). nia.
  - pose proof (slotPrime_le x (Hr x ltac:(left))).
    pose proof (slotPrime_le y (Hr y ltac:(right; left))).
    pose proof (slotPrime_le z (Hr z ltac:(right; right; left))).
    pose proof (slotPrime_ge x). pose proof (slotPrime_ge y).
    pose proof (slotPrime_ge z).
    assert (slotPrime y * slotPrime z <= 841) by nia. nia.
Qed.

Section MainLoop.

Variable tokenSize : Player → Vector2f.
Variable slide : Vector2f → Vector2f → Q → Q → option Vector2f.

Lemma handleEvents_wellFormed (queue : list Event) (g : Game) :
  wellFormed g →
  ∃ g' queue', handleEvents tokenSize g queue winProducts = Some (g', queue')
               ∧ queue' `suffix_of` queue.
Proof.
  revert g. induction queue as [|ev queue IH]; intros g Hwf.
  - exists g, []. split; reflexivity.
  - cbn [handleEvents]. destruct (windowOpen g).
    + destruct (handleEvent_wellFormed tokenSize g ev Hwf) as (g1 & r & -> & Hwf1).
      cbn [mbind option_bind]. destruct r.
      * exists g1, queue. split; [reflexivity | apply suffix_cons_r; reflexivity].
      * destruct (IH g1 Hwf1) as (g' & q' & -> & Hs). exists g', q'.
        split; [reflexivity | apply suffix_cons_r; exact Hs].
    + exists g, (ev :: queue). split; reflexivity.
Qed.

(** X15. A turn of the loop of [main] never runs into undefined behaviour:
    from any state the program reaches, whatever the pending events and the
    frame time, [handleEvents] then [updateTokens] read no array outside its
    bounds, follow no dangling selection pointer and take no remainder by
    zero; the state they leave is again one the program reaches, and the
    events handed back are the tail of the queue that was not handled. *)
Theorem frame_never_undefined (g : Game) (queue : list Event) (dt : Q) :
  reachable tokenSize slide g →
  ∃ g' queue', frame tokenSize slide g queue dt = Some (g', queue')
               ∧ reachable tokenSize slide g'
               ∧ queue' `suffix_of` queue.
Proof.
  intros Hg. pose proof (reachable_wellFormed tokenSize slide g Hg) as Hwf.
  destruct (handleEvents_wellFormed queue g Hwf) as (g1 & q1 & E1 & Hs).
  pose proof (handleEvents_reachable tokenSize slide _ _ _ _ Hg E1) as Hg1.
  destruct (updateTokens_wellFormed slide g1 dt speed
              (reachable_wellFormed tokenSize slide g1 Hg1)) as (g2 & E2 & _).
  exists g2, q1.
  assert (frame tokenSize slide g queue dt = Some (g2, q1)) as E.
  { unfold frame. rewrite E1. cbn [mbind option_bind]. rewrite E2. reflexivity. }
  split; [exact E |]. split; [| exact Hs].
  exact (frame_reachable tokenSize slide _ _ _ _ _ Hg E).
Qed.

(** X16. In every state the program reaches, and for either player, the
    product computed by [checkWin] is the true product of the weights of
    the player's slots, at most 29 * 29 * 29, far from overflow; and the
    verdict is true exactly when the player's slots contain one of the 8
    winning triples. *)
Theorem checkWin_in_game (g : Game) (p : Player) :
  reachable tokenSize slide g →
  winProduct (tokens g) p 1 = Some (primeProduct (occupiedSlots (tokens g) p))
  ∧ primeProduct (occupiedSlots (tokens g) p) <= 24389
  ∧ ∃ b, checkWin (tokens g) p winProducts = Some b
         ∧ (b = true ↔
            ∃ c, c ∈ winCombos ∧ holdsLine (occupiedSlots (tokens g) p) c).
Proof.
  intros Hg.
  destruct (reachable_wellFormed tokenSize slide g Hg) as (Hts & _ & _).
  destruct (reachable_tally tokenSize slide g Hg) as (_ & _ & TA & TB).
  pose proof (occupiedSlots_sublist (tokens g) p) as Hsub.
  assert (∀ s, s ∈ occupiedSlots (tokens g) p → 0 <= s <= 8) as Hr.
  { intros s Hs. pose proof (elem_of_sublist _ _ _ Hs Hsub) as Hs'.
    apply list_elem_of_fmap in Hs' as (t & -> & Ht). apply Hts. exact Ht. }
  assert (primeProduct (occupiedSlots (tokens g) p) <= 24389) as Hb.
  { apply primeProduct_three; [exact Hr |].
    pose proof (occupiedSlots_tokensOf (tokens g) p). destruct p; lia. }
  split; [| split; [exact Hb |]].
  - rewrite (winProduct_exact _ _ 1 Hr) by (unfold INT_MAX; lia).
    f_equal. lia.
  - apply checkWin_exact; [exact Hr | unfold INT_MAX; lia].
Qed.

End MainLoop.

(** ** Two games that go wrong *)

(** [updateTokens] consults the interpolation only for the tokens in
    transit. *)
Lemma updateFrom_ext
  (slide slide' : Vector2f → Vector2f → Q → Q → option Vector2f)
  (n i : nat) (g : Game) (dt sp : Q) (wp : list Z) :
  (∀ k t, (i <= k)%nat → tokens g !! k = Some t → moving t = true →
          slide (sprite_pos (sprite t)) (targetPos t) sp dt
          = slide' (sprite_pos (sprite t)) (targetPos t) sp dt) →
  updateFrom slide n i g dt sp wp = updateFrom slide' n i g dt sp wp.
Proof.
  revert i g. induction n as [|n IH]; intros i g Hag; [reflexivity |].
  simpl.
  assert (updateToken slide g i dt sp wp = updateToken slide' g i dt sp wp) as E.
  { unfold updateToken. destruct (tokens g !! i) as [t|] eqn:Et; [| reflexivity].
    cbn [mbind option_bind]. destruct (moving t) eqn:Em; [| reflexivity].
    rewrite (Hag i t (le_n i) Et Em). reflexivity. }
  rewrite <- E.
  destruct (updateToken slide g i dt sp wp) as [g1|] eqn:E1; [| reflexivity].
  cbn [mbind option_bind]. apply IH. intros k t Hle Hk Hm.
  destruct (updateToken_step slide _ _ _ _ _ _ E1) as (ti & Hti & Hts1 & _).
  rewrite Hts1 in Hk. rewrite list_lookup_insert_ne in Hk by lia.
  apply (Hag k t); [lia | exact Hk | exact Hm].
Qed.

Section WrongGames.

Variable slide : Vector2f → Vector2f → Q → Q → option Vector2f.

(** X17. The winner recorded on arrival is the player to move, not the owner
    of the token that arrived. Player A starts two slides in one turn, 5 to
    2 and 4 to 0; the short one arrives first, without a line, and the turn
    passes to B; the long one then arrives and completes A's line 0, 1, 2:
    the program reaches phase Win with Player B recorded and announced as
    winner, though B holds no line and A does. *)
Theorem arrival_credits_player_to_move (dt1 dt2 : Q) (p : Vector2f) :
  slide (fpair 275 275) (fpair 25 25) speed dt1 = Some p →
  slide (fpair 525 275) (fpair 525 25) speed dt1 = None →
  slide p (fpair 25 25) speed dt2 = None →
  ∃ g1 g2,
    reachable size50 slide doubleSlide
    ∧ updateTokens slide doubleSlide dt1 speed winProducts = Some g1
    ∧ phase g1 = Movement ∧ turn g1 = B
    ∧ updateTokens slide g1 dt2 speed winProducts = Some g2
    ∧ reachable size50 slide g2
    ∧ phase g2 = Win
    ∧ winner g2 = Some B
    ∧ last (logged g2) = Some (winsMessage B)
    ∧ checkWin (tokens g2) B winProducts = Some false
    ∧ checkWin (tokens g2) A winProducts = Some true
    ∧ occupiedSlots (tokens g2) A = [0; 2; 1]
    ∧ occupiedSlots (tokens g2) B = [3; 7; 8].
Proof.
  intros H1 H2 H3.
  assert (reachable size50 slide doubleSlide) as Hg0.
  { apply stateAfter_reachable. vm_compute. eexists. reflexivity. }
  set (slide1 := fun (_ tgt : Vector2f) (_ _ : Q) =>
                   if Qeq_bool (vec_x tgt) 25 then Some p else None).
  assert (updateTokens slide doubleSlide dt1 speed winProducts
          = updateTokens slide1 doubleSlide dt1 speed winProducts) as E1.
  { apply updateFrom_ext. intros k t _ Hk Hm.
    do 6 (destruct k as [|k];
          [vm_compute in Hk; injection Hk as <-;
           first [discriminate Hm
                 | vm_compute; vm_compute in H1; exact H1
                 | vm_compute; vm_compute in H2; exact H2] |]).
    vm_compute in Hk. discriminate Hk. }
  destruct (updateTokens slide1 doubleSlide dt1 speed winProducts) as [g1|] eqn:C1;
    [| vm_compute in C1; discriminate C1].
  pose proof (reach_update _ _ _ _ _ Hg0 E1) as Hg1.
  vm_compute in C1. injection C1 as C1.
  assert (updateTokens slide g1 dt2 speed winProducts
          = updateTokens arriveNow g1 dt2 speed winProducts) as E2.
  { apply updateFrom_ext. intros k t _ Hk Hm. rewrite <- C1 in Hk.
    do 6 (destruct k as [|k];
          [vm_compute in Hk; injection Hk as <-;
           first [discriminate Hm
                 | vm_compute; vm_compute in H3; exact H3] |]).
    vm_compute in Hk. discriminate Hk. }
  destruct (updateTokens arriveNow g1 dt2 speed winProducts) as [g2|] eqn:C2;
    [| rewrite <- C1 in C2; vm_compute in C2; discriminate C2].
  pose proof (reach_update _ _ _ _ _ Hg1 E2) as Hg2.
  rewrite <- C1 in C2. vm_compute in C2. injection C2 as C2.
  exists g1, g2. split; [exact Hg0 |]. split; [exact E1 |].
  split; [rewrite <- C1; reflexivity |]. split; [rewrite <- C1; reflexivity |].
  split; [exact E2 |]. split; [exact Hg2 |].
  rewrite <- C2. vm_compute. repeat split.
Qed.

End WrongGames.

Lemma arrival_credits_player_to_move_witness :
  let p := default (fpair 0 0)
             (slideWithin (fpair 275 275) (fpair 25 25) speed (3 # 4)) in
  slideWithin (fpair 275 275) (fpair 25 25) speed (3 # 4) = Some p
  ∧ slideWithin (fpair 525 275) (fpair 525 25) speed (3 # 4) = None
  ∧ slideWithin p (fpair 25 25) speed 1 = None
  ∧ ∃ g1 g2,
      reachable size50 slideWithin doubleSlide
      ∧ updateTokens slideWithin doubleSlide (3 # 4) speed winProducts = Some g1
      ∧ phase g1 = Movement ∧ turn g1 = B
      ∧ updateTokens slideWithin g1 1 speed winProducts = Some g2
      ∧ reachable size50 slideWithin g2
      ∧ phase g2 = Win
      ∧ winner g2 = Some B
      ∧ last (logged g2) = Some (winsMessage B)
      ∧ checkWin (tokens g2) B winProducts = Some false
      ∧ checkWin (tokens g2) A winProducts = Some true
      ∧ occupiedSlots (tokens g2) A = [0; 2; 1]
      ∧ occupiedSlots (tokens g2) B = [3; 7; 8].
Proof.
  intros p.
  assert (slideWithin (fpair 275 275) (fpair 25 25) speed (3 # 4) = Some p) as H1
    by (vm_compute; reflexivity).
  assert (slideWithin (fpair 525 275) (fpair 525 25) speed (3 # 4) = None) as H2
    by (vm_compute; reflexivity).
  assert (slideWithin p (fpair 25 25) speed 1 = None) as H3
    by (vm_compute; reflexivity).
  split; [exact H1 |]. split; [exact H2 |]. split; [exact H3 |].
  exact (arrival_credits_player_to_move slideWithin (3 # 4) 1 p H1 H2 H3).
Defined.

Section StrayFlag.

Variable slide : Vector2f → Vector2f → Q → Q → option Vector2f.

(** X18. The selection flag is not kept to one token. Player A sends a token
    off and, before it arrives, clicks another of his tokens; the arrival
    clears the selection pointer but not that token's flag, and the turn
    passes; Player B then selects a token: the program reaches a state with
    the flag set on two tokens, one of them a token of the player who is not
    to move, to which the selection pointer does not point. *)
Theorem selection_flag_left_behind (dt : Q) :
  slide (fpair 275 25) (fpair 525 25) speed dt = None →
  ∃ g1 g2 ta tb,
    reachable size50 slide selectedAhead
    ∧ updateTokens slide selectedAhead dt speed winProducts = Some g1
    ∧ handleEvent size50 g1 (MouseLeft 300 300) winProducts = Some (g2, false)
    ∧ reachable size50 slide g2
    ∧ phase g2 = Movement ∧ turn g2 = B
    ∧ selectedPtr g2 = Some 3%nat
    ∧ tokens g2 !! 2%nat = Some ta ∧ owner ta = A ∧ selected ta = true
    ∧ tokens g2 !! 3%nat = Some tb ∧ owner tb = B ∧ selected tb = true.
Proof.
  intros H.
  assert (reachable size50 slide selectedAhead) as Hg0.
  { apply stateAfter_reachable. vm_compute. eexists. reflexivity. }
  assert (updateTokens slide selectedAhead dt speed winProducts
          = updateTokens arriveNow selectedAhead dt speed winProducts) as E1.
  { apply updateFrom_ext. intros k t _ Hk Hm.
    do 6 (destruct k as [|k];
          [vm_compute in Hk; injection Hk as <-;
           first [discriminate Hm
                 | vm_compute; vm_compute in H; exact H] |]).
    vm_compute in Hk. discriminate Hk. }
  destruct (updateTokens arriveNow selectedAhead dt speed winProducts)
    as [g1|] eqn:C1; [| vm_compute in C1; discriminate C1].
  pose proof (reach_update _ _ _ _ _ Hg0 E1) as Hg1.
  vm_compute in C1. injection C1 as C1.
  destruct (handleEvent size50 g1 (MouseLeft 300 300) winProducts)
    as [[g2 r]|] eqn:C2; [| rewrite <- C1 in C2; vm_compute in C2; discriminate C2].
  assert (windowOpen g1 = true) as Ew by (rewrite <- C1; reflexivity).
  pose proof (reach_event _ _ _ _ _ _ Hg1 Ew C2) as Hg2.
  pose proof C2 as C2'. rewrite <- C1 in C2'. vm_compute in C2'.
  injection C2' as C2' Cr. rewrite <- Cr in C2.
  eexists g1, g2, _, _. split; [exact Hg0 |]. split; [exact E1 |].
  split; [exact C2 |]. split; [exact Hg2 |].
  rewrite <- C2'. vm_compute. repeat split.
Qed.

End StrayFlag.

Lemma selection_flag_left_behind_witness :
  arriveNow (fpair 275 25) (fpair 525 25) speed 1 = None
  ∧ ∃ g1 g2 ta tb,
      reachable size50 arriveNow selectedAhead
      ∧ updateTokens arriveNow selectedAhead 1 speed winProducts = Some g1
      ∧ handleEvent size50 g1 (MouseLeft 300 300) winProducts = Some (g2, false)
      ∧ reachable size50 arriveNow g2
      ∧ phase g2 = Movement ∧ turn g2 = B
      ∧ selectedPtr g2 = Some 3%nat
      ∧ tokens g2 !! 2%nat = Some ta ∧ owner ta = A ∧ selected ta = true
      ∧ tokens g2 !! 3%nat = Some tb ∧ owner tb = B ∧ selected tb = true.
Proof.
  split; [reflexivity |].
  exact (selection_flag_left_behind arriveNow 1 eq_refl).
Defined.

(** ** Instances *)

Lemma handleEvent_keeps_tokens_witness :
  ∃ g' r, handleEvent size50 tokenSelected (MouseLeft 550 50) winProducts
          = Some (g', r)
          ∧ (g' = resetGame tokenSelected
             ∨ ∀ i t, tokens tokenSelected !! i = Some t →
                      ∃ t', tokens g' !! i = Some t' ∧ keptByClick t t').
Proof.
  destruct (handleEvent size50 tokenSelected (MouseLeft 550 50) winProducts)
    as [[g' r]|] eqn:E; [| vm_compute in E; discriminate E].
  exists g', r. split; [reflexivity |].
  exact (handleEvent_keeps_tokens size50 tokenSelected g' _ winProducts r E).
Defined.

Lemma handleEvent_phase_edges_witness :
  ∃ g' r, handleEvent size50 wonByPlacement (MouseLeft 200 550) winProducts
          = Some (g', r)
          ∧ (phase g' = phase wonByPlacement
             ∨ (phaseEdge (phase wonByPlacement) (phase g')
                ∧ (phase wonByPlacement = Movement → phase g' = Placement →
                   g' = resetGame wonByPlacement))).
Proof.
  destruct (handleEvent size50 wonByPlacement (MouseLeft 200 550) winProducts)
    as [[g' r]|] eqn:E; [| vm_compute in E; discriminate E].
  exists g', r. split; [reflexivity |].
  exact (handleEvent_phase_edges size50 wonByPlacement g' _ winProducts r E).
Defined.

Lemma only_own_token_moves_witness :
  let t := default (standing A 0) (tokens tokenSelected !! 0%nat) in
  reachable size50 arriveNow tokenSelected
  ∧ selectionOwn tokenSelected
  ∧ ∃ g' r t',
      handleEvent size50 tokenSelected (MouseLeft 550 50) winProducts
      = Some (g', r)
      ∧ tokens tokenSelected !! 0%nat = Some t
      ∧ tokens g' !! 0%nat = Some t'
      ∧ moving t = false ∧ moving t' = true
      ∧ phase tokenSelected = Movement
      ∧ selectedPtr tokenSelected = Some 0%nat
      ∧ owner t = turn tokenSelected
      ∧ turn g' = turn tokenSelected.
Proof.
  intros t.
  assert (reachable size50 arriveNow tokenSelected) as Hg
    by (apply stateAfter_reachable; vm_compute; eexists; reflexivity).
  destruct (only_own_token_moves size50 arriveNow tokenSelected Hg)
    as [Hown Hmove].
  split; [exact Hg |]. split; [exact Hown |].
  destruct (handleEvent size50 tokenSelected (MouseLeft 550 50) winProducts)
    as [[g' r]|] eqn:E; [| vm_compute in E; discriminate E].
  destruct (tokens g' !! 0%nat) as [t'|] eqn:E';
    [| vm_compute in E; injection E as <- _; vm_compute in E'; discriminate E'].
  assert (tokens tokenSelected !! 0%nat = Some t) as Et by (vm_compute; reflexivity).
  assert (moving t = false) as Hm by (vm_compute; reflexivity).
  assert (moving t' = true) as Hm'.
  { vm_compute in E. injection E as <- _. vm_compute in E'.
    injection E' as <-. reflexivity. }
  exists g', r, t'. split; [reflexivity |]. split; [exact Et |].
  split; [exact E' |]. split; [exact Hm |]. split; [exact Hm' |].
  exact (Hmove g' _ r 0%nat t t' E Et E' Hm Hm').
Defined.

Lemma reachable_three_tokens_witness :
  reachable size50 arriveNow twoSlides
  ∧ (tokensOf A (tokens twoSlides) <= 3)%nat
  ∧ (tokensOf B (tokens twoSlides) <= 3)%nat
  ∧ (phase twoSlides = Placement →
     Z.of_nat (tokensOf A (tokens twoSlides)) = placedA twoSlides
     ∧ Z.of_nat (tokensOf B (tokens twoSlides)) = placedB twoSlides)
  ∧ (phase twoSlides = Movement →
     tokensOf A (tokens twoSlides) = 3%nat
     ∧ tokensOf B (tokens twoSlides) = 3%nat).
Proof.
  assert (reachable size50 arriveNow twoSlides) as Hg
    by (apply stateAfter_reachable; vm_compute; eexists; reflexivity).
  split; [exact Hg |].
  exact (reachable_three_tokens size50 arriveNow twoSlides Hg).
Defined.

Lemma reachable_placement_turn_witness :
  reachable size50 arriveNow oneTokenPlaced
  ∧ phase oneTokenPlaced = Placement
  ∧ currentPTI oneTokenPlaced
    = match turn oneTokenPlaced with A => papt | B => pbpt end
  ∧ (turn oneTokenPlaced = A
     ↔ tokensOf A (tokens oneTokenPlaced) = tokensOf B (tokens oneTokenPlaced))
  ∧ (turn oneTokenPlaced = B
     ↔ tokensOf A (tokens oneTokenPlaced)
       = S (tokensOf B (tokens oneTokenPlaced)))
  ∧ (∀ t, t ∈ tokens oneTokenPlaced → moving t = false)
  ∧ selectedPtr oneTokenPlaced = None.
Proof.
  assert (reachable size50 arriveNow oneTokenPlaced) as Hg
    by (apply stateAfter_reachable; vm_compute; eexists; reflexivity).
  assert (phase oneTokenPlaced = Placement) as Hph by (vm_compute; reflexivity).
  split; [exact Hg |]. split; [exact Hph |].
  exact (reachable_placement_turn size50 arriveNow oneTokenPlaced Hg Hph).
Defined.

Lemma game_starts_fresh_witness :
  reachable size50 arriveNow twoSlides
  ∧ phase twoSlides ≠ Placement
  ∧ ∃ g' r, handleEvent size50 twoSlides (MouseLeft 400 650) winProducts
            = Some (g', r)
            ∧ phase g' = Placement
            ∧ tokens g' = [] ∧ turn g' = A ∧ placedA g' = 0 ∧ placedB g' = 0
            ∧ selectedPtr g' = None ∧ currentPTI g' = papt
            ∧ startButtonBounds g' = resetButton.
Proof.
  assert (reachable size50 arriveNow twoSlides) as Hg
    by (apply stateAfter_reachable; vm_compute; eexists; reflexivity).
  assert (phase twoSlides ≠ Placement) as NP by (vm_compute; discriminate).
  split; [exact Hg |]. split; [exact NP |].
  destruct (handleEvent size50 twoSlides (MouseLeft 400 650) winProducts)
    as [[g' r]|] eqn:E; [| vm_compute in E; discriminate E].
  assert (phase g' = Placement) as P
    by (vm_compute in E; injection E as <- _; reflexivity).
  exists g', r. split; [reflexivity |]. split; [exact P |].
  exact (game_starts_fresh size50 arriveNow twoSlides g' _ r Hg E NP P).
Defined.

Lemma placement_win_credited_witness :
  let g := stateAfter (game [0; 1; 3; 4]) in
  reachable size50 arriveNow g ∧ windowOpen g = true ∧ phase g = Placement
  ∧ ∃ g' r, handleEvent size50 g (MouseLeft 50 550) winProducts = Some (g', r)
            ∧ phase g' = Win
            ∧ (∃ S s, index slots S = Some s ∧ ¬ taken S (tokens g)
                      ∧ tokens g' = tokens g ++ [placedToken (turn g) S s])
            ∧ (∃ c, c ∈ winCombos
                    ∧ holdsLine (occupiedSlots (tokens g') (turn g)) c)
            ∧ winner g' = Some (turn g)
            ∧ logged g' = logged g ++ [winsMessage (turn g)]
            ∧ turn g' = turn g.
Proof.
  intros g.
  assert (reachable size50 arriveNow g) as Hg
    by (apply stateAfter_reachable; vm_compute; eexists; reflexivity).
  assert (windowOpen g = true) as Ew by (vm_compute; reflexivity).
  assert (phase g = Placement) as Hph by (vm_compute; reflexivity).
  split; [exact Hg |]. split; [exact Ew |]. split; [exact Hph |].
  destruct (handleEvent size50 g (MouseLeft 50 550) winProducts)
    as [[g' r]|] eqn:E; [| vm_compute in E; discriminate E].
  assert (phase g' = Win) as P
    by (vm_compute in E; injection E as <- _; reflexivity).
  exists g', r. split; [reflexivity |]. split; [exact P |].
  exact (placement_win_credited size50 arriveNow g g' _ r Hg Ew E Hph P).
Defined.

Lemma frame_never_undefined_witness :
  reachable size50 slideWithin doubleSlide
  ∧ ∃ g' queue',
      frame size50 slideWithin doubleSlide
            [OtherEvent; MouseLeft 300 550; Closed; MouseLeft 50 50] (3 # 4)
      = Some (g', queue')
      ∧ reachable size50 slideWithin g'
      ∧ queue' `suffix_of`
          [OtherEvent; MouseLeft 300 550; Closed; MouseLeft 50 50].
Proof.
  assert (reachable size50 slideWithin doubleSlide) as Hg
    by (apply stateAfter_reachable; vm_compute; eexists; reflexivity).
  split; [exact Hg |].
  exact (frame_never_undefined size50 slideWithin doubleSlide _ (3 # 4) Hg).
Defined.

Lemma checkWin_in_game_witness :
  reachable size50 arriveNow wonByPlacement
  ∧ winProduct (tokens wonByPlacement) A 1
    = Some (primeProduct (occupiedSlots (tokens wonByPlacement) A))
  ∧ primeProduct (occupiedSlots (tokens wonByPlacement) A) <= 24389
  ∧ ∃ b, checkWin (tokens wonByPlacement) A winProducts = Some b
         ∧ (b = true ↔
            ∃ c, c ∈ winCombos
                 ∧ holdsLine (occupiedSlots (tokens wonByPlacement) A) c).
Proof.
  assert (reachable size50 arriveNow wonByPlacement) as Hg
    by (apply stateAfter_reachable; vm_compute; eexists; reflexivity).
  split; [exact Hg |].
  exact (checkWin_in_game size50 arriveNow wonByPlacement A Hg).
Defined.

(** ** Selection *)

Section Selection.

Variable tokenSize : Player → Vector2f.



End Selection.


(** ** Screens, buttons and the window *)

Section Screens.

Variable tokenSize : Player → Vector2f.
Variable slide : Vector2f → Vector2f → Q → Q → option Vector2f.

Lemma updateToken_display (g g' : Game) (i : nat) (dt sp : Q) (wp : list Z) :
  updateToken slide g i dt sp wp = Some g' →
  windowOpen g' = windowOpen g
  ∧ (startButtonBounds g = buttonFor (phase g) →
     startButtonBounds g' = buttonFor (phase g')).
Proof.
  unfold updateToken. intros H.
  destruct (tokens g !! i) as [t|]; [| discriminate H].
  cbn [mbind option_bind] in H.
  destruct (moving t).
  - destruct (slide _ _ _ _) as [p|].
    + injection H as <-. split; [reflexivity | intros E; exact E].
    + cbn [mbind option_bind] in H.
      destruct (checkWin _ _ _) as [[|]|]; cbn [mbind option_bind] in H;
        [| | discriminate H]; injection H as <-;
        (split; [reflexivity | intros E; simpl; first [reflexivity | exact E]]).
  - injection H as <-. split; [reflexivity | intros E; exact E].
Qed.

Lemma updateFrom_display (n i : nat) (g g' : Game) (dt sp : Q) (wp : list Z) :
  updateFrom slide n i g dt sp wp = Some g' →
  windowOpen g' = windowOpen g
  ∧ (startButtonBounds g = buttonFor (phase g) →
     startButtonBounds g' = buttonFor (phase g')).
Proof.
  revert i g. induction n as [|n IH]; intros i g H.
  - injection H as <-. split; [reflexivity | intros E; exact E].
  - simpl in H. destruct (updateToken slide g i dt sp wp) as [g1|] eqn:E1;
      [| discriminate H].
    cbn [mbind option_bind] in H.
    destruct (updateToken_display _ _ _ _ _ _ E1) as [W1 B1].
    destruct (IH _ _ H) as [W2 B2].
    split; [congruence | intros E; apply B2, B1, E].
Qed.

Lemma handleEvent_button (g g' : Game) (ev : Event) (wp : list Z) (r : bool) :
  handleEvent tokenSize g ev wp = Some (g', r) →
  startButtonBounds g = buttonFor (phase g) →
  startButtonBounds g' = buttonFor (phase g').
Proof.
  intros H E.
  destruct (handleEvent_cases _ _ _ _ _ _ H)
    as [-> | [-> | [[_ ->] | [[_ ->] | [[Hp ->] | [[_ [-> | ->]] | [[Hp ->] |
        [[Hp [pos Hc]] | [Hp [pos Hc]]]]]]]]]]; try reflexivity; try exact E.
  - unfold resetGame. destruct (bool_decide (phase g = Win)); reflexivity.
  - destruct (placementClick_effect _ _ _ _ _ Hc)
      as [(-> & _) | (S & s & _ & _ & _ & _ & _ & [(_ & -> & _) | (_ & -> & _)])];
      [exact E | reflexivity |].
    destruct (placedOn_fields g S s) as (_ & _ & _ & -> & _).
    rewrite E, Hp.
    unfold placedOn. destruct (turn g); simpl;
      match goal with |- context [if ?c then _ else _] => destruct c end;
      simpl; rewrite ?Hp; reflexivity.
  - destruct (movementClick_effect _ _ _ _ _ Hc)
      as [_ [-> | [(k & t & _ & _ & _ & -> & _) | (j & t & S & dest & _ & ->)]]];
      exact E.
Qed.

Lemma reachable_button (g : Game) :
  reachable tokenSize slide g → startButtonBounds g = buttonFor (phase g).
Proof.
  induction 1 as [| g ev g' r _ IH _ He | g dt g' _ IH Hu].
  - reflexivity.
  - exact (handleEvent_button _ _ _ _ _ He IH).
  - exact (proj2 (updateFrom_display _ _ _ _ _ _ _ Hu) IH).
Qed.

(** X20. In every state the program can reach, the rectangle in the global
    [startButtonBounds] is the one that belongs to the current phase:
    (165, 440, 275, 100) on the start screen, (165, 665, 275, 100) on the
    Instructions and About screens, (340, 620, 240, 80) during Placement
    and Movement and (165, 510, 275, 100) on the Win screen. It never
    overlaps the Instructions, About or exit button of the screen it is
    on, so that the earlier test on [startButtonBounds] in [handleEvents]
    hides none of them. *)
Theorem button_follows_phase (g : Game) (x y : Z) :
  reachable tokenSize slide g →
  startButtonBounds g = buttonFor (phase g)
  ∧ (contains (startButtonBounds g) (fpair x y) = true →
     (phase g = Start →
      contains instructionsButtonBounds (fpair x y) = false
      ∧ contains aboutButtonBounds (fpair x y) = false)
     ∧ (phase g = Win → contains exitButtonBounds (fpair x y) = false)).
Proof.
  intros Hr. pose proof (reachable_button g Hr) as E.
  split; [exact E |]. rewrite E. intros Hc.
  split; [intros Hp; split | intros Hp]; rewrite Hp in Hc;
    apply contains_spec in Hc; try (unfold Qle; simpl; lia);
    apply not_true_is_false; intros Hc';
    apply contains_spec in Hc'; try (unfold Qle; simpl; lia);
    simpl in Hc, Hc';
    repeat match goal with
           | H : context [inject_Z ?z] |- _ =>
               progress (let q := eval vm_compute in (inject_Z z) in
                         change (inject_Z z) with q in H)
           end; lra.
Qed.


(** X22. An event leaves the window as it is, open or closed, or closes
    it, and it closes it only if it is the Closed event or a click on the
    exit button of the Win screen (off the button at [startButtonBounds]);
    a call of [updateTokens] never touches the window. So the exit button
    works on the Win screen only, and nothing reopens the window. *)
Theorem window_closes_on_request (g g' : Game) (ev : Event) (r : bool)
  (dt sp : Q) (wp : list Z) :
  (handleEvent tokenSize g ev wp = Some (g', r) →
   windowOpen g' = windowOpen g
   ∨ (windowOpen g' = false ∧ (ev = Closed ∨ exitClick g ev)))
  ∧ (updateTokens slide g dt sp wp = Some g' → windowOpen g' = windowOpen g).
Proof.
  split; [| intros Hu; exact (proj1 (updateFrom_display _ _ _ _ _ _ _ Hu))].
  intros H. destruct ev as [| x y |].
  - injection H as <- _. right. split; [reflexivity | left; reflexivity].
  - unfold handleEvent in H.
    destruct (contains (startButtonBounds g) (fpair x y)) eqn:Eb.
    + left. destruct (phase g) eqn:Eph; simpl in H; injection H as <- _;
        try reflexivity.
      all: unfold resetGame; rewrite Eph; reflexivity.
    + rewrite !andb_false_r in H.
      destruct (bool_decide (phase g = Start)
                && contains instructionsButtonBounds (fpair x y));
        [injection H as <- _; left; reflexivity |].
      destruct (bool_decide (phase g = Start)
                && contains aboutButtonBounds (fpair x y));
        [injection H as <- _; left; reflexivity |].
      destruct (bool_decide (phase g = Win)
                && contains exitButtonBounds (fpair x y)) eqn:Ex.
      * injection H as <- _. right. split; [reflexivity |]. right.
        apply andb_true_iff in Ex as [Ew Ex].
        apply (bool_decide_eq_true_1 _) in Ew.
        split; [exact Ew |]. exists x, y. auto.
      * left. destruct (bool_decide (phase g = Placement)).
        -- destruct (placementClick_effect _ _ _ _ _ H)
             as [(-> & _) | (S & s & _ & _ & _ & _ & _ &
                             [(_ & -> & _) | (_ & -> & _)])];
             [reflexivity | reflexivity |].
           unfold placedOn. destruct (turn g); simpl;
             match goal with |- context [if ?c then _ else _] => destruct c end;
             reflexivity.
        -- destruct (bool_decide (phase g = Movement)).
           ++ destruct (movementClick_effect _ _ _ _ _ H)
                as [_ [-> | [(k & t & _ & _ & _ & -> & _) |
                             (j & t & S & dest & _ & ->)]]]; reflexivity.
           ++ injection H as <- _. reflexivity.
  - injection H as <- _. left. reflexivity.
Qed.

End Screens.

Lemma button_follows_phase_witness :
  reachable size50 arriveNow wonByPlacement
  ∧ phase wonByPlacement = Win
  ∧ contains (startButtonBounds wonByPlacement) (fpair 200 550) = true
  ∧ startButtonBounds wonByPlacement = buttonFor (phase wonByPlacement)
  ∧ contains exitButtonBounds (fpair 200 550) = false.
Proof.
  assert (reachable size50 arriveNow wonByPlacement) as Hg
    by (apply stateAfter_reachable; vm_compute; eexists; reflexivity).
  assert (phase wonByPlacement = Win) as Hp by (vm_compute; reflexivity).
  assert (contains (startButtonBounds wonByPlacement) (fpair 200 550) = true)
    as Hc by (vm_compute; reflexivity).
  destruct (button_follows_phase size50 arriveNow wonByPlacement 200 550 Hg)
    as [E H].
  split; [exact Hg |]. split; [exact Hp |]. split; [exact Hc |].
  split; [exact E |]. exact (proj2 (H Hc) Hp).
Defined.


Lemma window_closes_on_request_witness :
  let g' := log (String.append "Game exited." newline)
                (close_window wonByPlacement) in
  handleEvent size50 wonByPlacement (MouseLeft 200 700) winProducts
  = Some (g', true)
  ∧ windowOpen wonByPlacement = true
  ∧ (windowOpen g' = windowOpen wonByPlacement
     ∨ (windowOpen g' = false
        ∧ (MouseLeft 200 700 = Closed
           ∨ exitClick wonByPlacement (MouseLeft 200 700))))
  ∧ updateTokens arriveNow wonByPlacement 1 speed winProducts
    = Some wonByPlacement
  ∧ windowOpen wonByPlacement = windowOpen wonByPlacement.
Proof.
  intros g'.
  assert (handleEvent size50 wonByPlacement (MouseLeft 200 700) winProducts
          = Some (g', true)) as He by (vm_compute; reflexivity).
  assert (updateTokens arriveNow wonByPlacement 1 speed winProducts
          = Some wonByPlacement) as Hu by (vm_compute; reflexivity).
  split; [exact He |]. split; [vm_compute; reflexivity |].
  split;
    [exact (proj1 (window_closes_on_request size50 arriveNow wonByPlacement g'
                     (MouseLeft 200 700) true 1 speed winProducts) He) |].
  split; [exact Hu |].
  exact (proj2 (window_closes_on_request size50 arriveNow wonByPlacement
                  wonByPlacement OtherEvent false 1 speed winProducts) Hu).
Defined.
